(** * beachboom: pose-to-collider synchronisation and the projectile loop

    A shallow embedding of [src/scene.ts] (class [SoccerScene], the version
    that owns a Rapier physics world) and of the pose front end that drives
    it ([calculateBodyBoundingBoxes], [drawResults], [detectPose]).

    - JavaScript numbers are modelled by [number]: exact rationals extended
      with [+Infinity], [-Infinity] and [NaN].  Arithmetic follows IEEE-754
      on the special values and is exact on finite ones (rounding and the
      sign of zero are not modelled).
    - Where a law depends on rounding, [createBox] is read a second time as
      JavaScript runs it, in IEEE-754 binary64: module [Binary64], over the
      primitive floating-point numbers.
    - A thrown exception is the [Abrupt] completion; property access on
      [undefined] is the only source of it in the code modelled here, apart
      from the perception call and the physics backend.
    - Objects that are shared and mutated in place (THREE meshes) live in a
      store indexed by reference; the scene graph, the ball list and the
      proxy table hold references into it.
    - The Rapier time step is external: it is the [integrate] method of the
      class [Physics]. *)

From Stdlib Require Import Floats QArith Qcanon Lqa ZifyNat.
From stdpp Require Import gmap strings list fin_maps.

#[global] Instance Qc_eq_decision : EqDecision Qc := Qc_eq_dec.

(** ** Numbers *)

Inductive number : Type :=
  | Fin (q : Qc)
  | PInf
  | NInf
  | NaN.

#[global] Instance number_eq_dec : EqDecision number.
Proof. solve_decision. Defined.

#[global] Instance number_inhabited : Inhabited number := populate (Fin 0%Qc).

(** A decimal literal [n/d] of the source, e.g. [0.05] is [lit 1 20]. *)
Definition lit (n : Z) (d : positive) : number := Fin (Q2Qc (n # d)).

Definition Qc_ltb (a b : Qc) : bool :=
  match (a ?= b)%Qc with Lt => true | _ => false end.

Definition Qc_sign (a : Qc) : comparison := (a ?= 0)%Qc.

Definition num_neg (x : number) : number :=
  match x with
  | Fin a => Fin (- a)%Qc
  | PInf => NInf
  | NInf => PInf
  | NaN => NaN
  end.

Definition num_add (x y : number) : number :=
  match x, y with
  | NaN, _ | _, NaN => NaN
  | Fin a, Fin b => Fin (a + b)%Qc
  | PInf, NInf | NInf, PInf => NaN
  | PInf, _ | _, PInf => PInf
  | NInf, _ | _, NInf => NInf
  end.

Definition num_sub (x y : number) : number := num_add x (num_neg y).

(** An infinity of sign [pos] scaled by a finite factor of sign [s]. *)
Definition inf_scaled (pos : bool) (s : comparison) : number :=
  match s with
  | Eq => NaN
  | Gt => if pos then PInf else NInf
  | Lt => if pos then NInf else PInf
  end.

Definition num_mul (x y : number) : number :=
  match x, y with
  | NaN, _ | _, NaN => NaN
  | Fin a, Fin b => Fin (a * b)%Qc
  | PInf, Fin b => inf_scaled true (Qc_sign b)
  | NInf, Fin b => inf_scaled false (Qc_sign b)
  | Fin a, PInf => inf_scaled true (Qc_sign a)
  | Fin a, NInf => inf_scaled false (Qc_sign a)
  | PInf, PInf | NInf, NInf => PInf
  | PInf, NInf | NInf, PInf => NInf
  end.

(** Division; a zero divisor is taken as [+0]. *)
Definition num_div (x y : number) : number :=
  match x, y with
  | NaN, _ | _, NaN => NaN
  | Fin a, Fin b =>
      match Qc_sign b with
      | Eq => match Qc_sign a with Eq => NaN | Gt => PInf | Lt => NInf end
      | _ => Fin (a / b)%Qc
      end
  | Fin _, (PInf | NInf) => Fin 0%Qc
  | (PInf | NInf), (PInf | NInf) => NaN
  | PInf, Fin b => match Qc_sign b with Lt => NInf | _ => PInf end
  | NInf, Fin b => match Qc_sign b with Lt => PInf | _ => NInf end
  end.

(** [x < y]; every comparison with [NaN] is false. *)
Definition num_ltb (x y : number) : bool :=
  match x, y with
  | NaN, _ | _, NaN => false
  | Fin a, Fin b => Qc_ltb a b
  | NInf, NInf | PInf, _ | _, NInf => false
  | NInf, _ | _, PInf => true
  end.

(** [x > y] *)
Definition num_gtb (x y : number) : bool := num_ltb y x.

(** [x ** 2] *)
Definition num_sq (x : number) : number := num_mul x x.

(** [Math.sqrt(s) > r].  The real square root of a rational is irrational in
    general, so the comparison is decided on the squares: for [s >= 0] and
    [r >= 0], [sqrt s > r] iff [s > r * r]; [Math.sqrt] of a negative number
    or of [NaN] is [NaN], and of [+Infinity] is [+Infinity]. *)
Definition sqrt_gtb (s r : number) : bool :=
  match s, r with
  | NaN, _ | _, NaN | NInf, _ | _, PInf => false
  | PInf, _ => true
  | Fin a, NInf => negb (Qc_ltb a 0%Qc)
  | Fin a, Fin b =>
      if Qc_ltb a 0%Qc then false
      else if Qc_ltb b 0%Qc then true
      else Qc_ltb (b * b)%Qc a
  end.

(** [Math.min(a, b)] and [Math.max(a, b)]: [NaN] if either argument is. *)
Definition min2 (x y : number) : number :=
  match x, y with
  | NaN, _ | _, NaN => NaN
  | _, _ => if num_ltb y x then y else x
  end.

Definition max2 (x y : number) : number :=
  match x, y with
  | NaN, _ | _, NaN => NaN
  | _, _ => if num_ltb x y then y else x
  end.

(** [Math.min(...xs)] and [Math.max(...xs)]; with no argument they are
    [+Infinity] and [-Infinity]. *)
Definition Math_min (xs : list number) : number := foldr min2 PInf xs.
Definition Math_max (xs : list number) : number := foldr max2 NInf xs.

(** ** Completions *)

Inductive completion (A : Type) : Type :=
  | Normal (a : A)
  | Abrupt.
Arguments Normal {A} a.
Arguments Abrupt {A}.

Definition cbind {A B} (c : completion A) (k : A → completion B) : completion B :=
  match c with
  | Normal a => k a
  | Abrupt => Abrupt
  end.

Notation "'let!' x ':=' c 'in' k" := (cbind c (fun x => k))
  (at level 10, x name, c at level 100, k at level 200).

(** [xs.map(f)] where the callback may throw: the first throw aborts. *)
Fixpoint cmap {A B} (f : A → completion B) (xs : list A) : completion (list B) :=
  match xs with
  | [] => Normal []
  | x :: xs' =>
      let! y := f x in
      let! ys := cmap f xs' in
      Normal (y :: ys)
  end.

(** ** The keypoint mapper *)

Module Landmark.
Record t : Type := mk { x : number; y : number }.
End Landmark.

#[global] Instance landmark_eq_dec : EqDecision Landmark.t.
Proof. solve_decision. Defined.

(** A pose is the array of landmarks of one detected person. *)
Abbreviation Pose := (list Landmark.t).

Record BoundingBox : Type := {
  minX : number;
  maxX : number;
  minY : number;
  maxY : number;
  color : string;
}.

#[global] Instance BoundingBox_eq_dec : EqDecision BoundingBox.
Proof. solve_decision. Defined.

Record BodyBoundingBoxes : Type := {
  leftHand : BoundingBox;
  rightHand : BoundingBox;
  leftLeg : BoundingBox;
  rightLeg : BoundingBox;
  head : BoundingBox;
  torso : BoundingBox;
}.

Definition padding : number := lit 5 100.

(** [p.x] and [p.y] where [p] may be [undefined] (an index past the end of
    the pose): reading a property of [undefined] throws. *)
Definition prop {A} (f : Landmark.t → A) (p : option Landmark.t) : completion A :=
  match p with
  | Some l => Normal (f l)
  | None => Abrupt
  end.

Definition ndcX (px : number) : number := num_sub (num_mul px (lit 2 1)) (lit 1 1).
Definition ndcY (py : number) : number :=
  num_neg (num_sub (num_mul py (lit 2 1)) (lit 1 1)).

Definition createBox (points : list (option Landmark.t)) (color : string)
    : completion BoundingBox :=
  let! xs := cmap (fun p => let! px := prop Landmark.x p in Normal (ndcX px)) points in
  let! ys := cmap (fun p => let! py := prop Landmark.y p in Normal (ndcY py)) points in
  let minX := Math_min xs in
  let maxX := Math_max xs in
  let minY := Math_min ys in
  let maxY := Math_max ys in
  let width := num_sub maxX minX in
  let height := num_sub maxY minY in
  Normal {| minX := num_sub minX (num_mul width padding);
            maxX := num_add maxX (num_mul width padding);
            minY := num_sub minY (num_mul height padding);
            maxY := num_add maxY (num_mul height padding);
            color := color |}.

(** The six groups of landmarks, as the object literal lists them. *)
Definition head_points (pose : Pose) : list (option Landmark.t) :=
  Some <$> take 11 pose.
Definition leftHand_points (pose : Pose) : list (option Landmark.t) :=
  [pose !! 15; pose !! 17; pose !! 19; pose !! 21].
Definition rightHand_points (pose : Pose) : list (option Landmark.t) :=
  [pose !! 16; pose !! 18; pose !! 20; pose !! 22].
Definition leftLeg_points (pose : Pose) : list (option Landmark.t) :=
  [pose !! 23; pose !! 25; pose !! 27; pose !! 29; pose !! 31].
Definition rightLeg_points (pose : Pose) : list (option Landmark.t) :=
  [pose !! 24; pose !! 26; pose !! 28; pose !! 30; pose !! 32].
Definition torso_points (pose : Pose) : list (option Landmark.t) :=
  [pose !! 11; pose !! 12; pose !! 23; pose !! 24].

(** [poseLandmarks] is [None] when it is [null] or [undefined]. *)
Definition calculateBodyBoundingBoxes (poseLandmarks : option (list Pose))
    : completion (option BodyBoundingBoxes) :=
  match poseLandmarks with
  | None | Some [] => Normal None
  | Some (pose :: _) =>
      let! head := createBox (head_points pose) "yellow" in
      let! leftHand := createBox (leftHand_points pose) "blue" in
      let! rightHand := createBox (rightHand_points pose) "green" in
      let! leftLeg := createBox (leftLeg_points pose) "purple" in
      let! rightLeg := createBox (rightLeg_points pose) "orange" in
      let! torso := createBox (torso_points pose) "red" in
      Normal (Some {| head := head; leftHand := leftHand; rightHand := rightHand;
                      leftLeg := leftLeg; rightLeg := rightLeg; torso := torso |})
  end.

(** [Object.entries(bodyBoxes)]: own keys in insertion order. *)
Definition entries (b : BodyBoundingBoxes) : list (string * BoundingBox) :=
  [("head", head b); ("leftHand", leftHand b); ("rightHand", rightHand b);
   ("leftLeg", leftLeg b); ("rightLeg", rightLeg b); ("torso", torso b)].

(** ** The keypoint mapper in binary64 *)

(** [createBox] once more, over the numbers JavaScript computes with: the
    IEEE-754 binary64 format, every operation rounded to the nearest
    number, ties to even.  A decimal literal of the source stands for the
    binary64 number nearest to it. *)
Module Binary64.

Module Landmark.
Record t : Type := mk { x : float; y : float }.
End Landmark.

Record BoundingBox : Type := {
  minX : float;
  maxX : float;
  minY : float;
  maxY : float;
  color : string;
}.

#[local] Set Warnings "-inexact-float".
Definition padding : float := 0.05%float.
#[local] Set Warnings "inexact-float".

(** [Math.min(a, b)] and [Math.max(a, b)]: [NaN] if either argument is, and
    [-0] counts as smaller than [+0]. *)
Definition min2 (x y : float) : float :=
  if is_nan x || is_nan y then nan
  else if (x <? y)%float then x
  else if (y <? x)%float then y
  else if get_sign x then x else y.

Definition max2 (x y : float) : float :=
  if is_nan x || is_nan y then nan
  else if (y <? x)%float then x
  else if (x <? y)%float then y
  else if get_sign x then y else x.

(** [Math.min(...xs)] and [Math.max(...xs)]. *)
Definition Math_min (xs : list float) : float := foldr min2 infinity xs.
Definition Math_max (xs : list float) : float := foldr max2 neg_infinity xs.

Definition prop {A} (f : Landmark.t → A) (p : option Landmark.t) : completion A :=
  match p with
  | Some l => Normal (f l)
  | None => Abrupt
  end.

Definition ndcX (px : float) : float := (px * 2 - 1)%float.
Definition ndcY (py : float) : float := (- (py * 2 - 1))%float.

Definition createBox (points : list (option Landmark.t)) (color : string)
    : completion BoundingBox :=
  let! xs := cmap (fun p => let! px := prop Landmark.x p in Normal (ndcX px)) points in
  let! ys := cmap (fun p => let! py := prop Landmark.y p in Normal (ndcY py)) points in
  let minX := Math_min xs in
  let maxX := Math_max xs in
  let minY := Math_min ys in
  let maxY := Math_max ys in
  let width := (maxX - minX)%float in
  let height := (maxY - minY)%float in
  Normal {| minX := (minX - width * padding)%float;
            maxX := (maxX + width * padding)%float;
            minY := (minY - height * padding)%float;
            maxY := (maxY + height * padding)%float;
            color := color |}.

(** *** Vocabulary *)

(** The landmarks of a group converted to normalised device coordinates. *)
Definition converted_xs (ls : list Landmark.t) : list float :=
  (fun l => ndcX (Landmark.x l)) <$> ls.
Definition converted_ys (ls : list Landmark.t) : list float :=
  (fun l => ndcY (Landmark.y l)) <$> ls.


(** [m] is a least (greatest) element of [xs] for JavaScript's [<]; of
    [-0] and [+0] either one is, when both occur. *)
Definition is_least (m : float) (xs : list float) : Prop :=
  m ∈ xs ∧ ∀ v, v ∈ xs → (v <? m)%float = false.
Definition is_greatest (m : float) (xs : list float) : Prop :=
  m ∈ xs ∧ ∀ v, v ∈ xs → (m <? v)%float = false.


End Binary64.

(** ** Objects of the 3D scene *)

Module Vector3.
Record t : Type := mk { x : number; y : number; z : number }.
End Vector3.

Module Quaternion.
Record t : Type := mk { x : number; y : number; z : number; w : number }.
End Quaternion.

#[global] Instance Vector3_eq_dec : EqDecision Vector3.t.
Proof. solve_decision. Defined.
#[global] Instance Quaternion_eq_dec : EqDecision Quaternion.t.
Proof. solve_decision. Defined.

Inductive Geometry : Type :=
  | SphereGeometry (radius : number) (widthSegments heightSegments : nat)
  | BoxGeometry (width height depth : number).

#[global] Instance Geometry_eq_dec : EqDecision Geometry.
Proof. solve_decision. Defined.

(** A [THREE.Mesh]: its geometry, the colour of its material ([None] when
    the palette has no entry) and its transform. *)
Record Mesh : Type := {
  geometry : Geometry;
  materialColor : option N;
  position : Vector3.t;
  quaternion : Quaternion.t;
  scale : Vector3.t;
}.

#[global] Instance Mesh_eq_dec : EqDecision Mesh.
Proof. solve_decision. Defined.

(** [new THREE.Mesh(geometry, material)]: at the origin, not rotated, unit
    scale. *)
Definition newMesh (g : Geometry) (c : option N) : Mesh :=
  {| geometry := g; materialColor := c;
     position := Vector3.mk (lit 0 1) (lit 0 1) (lit 0 1);
     quaternion := Quaternion.mk (lit 0 1) (lit 0 1) (lit 0 1) (lit 1 1);
     scale := Vector3.mk (lit 1 1) (lit 1 1) (lit 1 1) |}.

#[global] Instance Mesh_inhabited : Inhabited Mesh :=
  populate (newMesh (BoxGeometry (lit 1 1) (lit 1 1) (lit 1 1)) None).

Definition with_position (v : Vector3.t) (m : Mesh) : Mesh :=
  {| geometry := geometry m; materialColor := materialColor m;
     position := v; quaternion := quaternion m; scale := scale m |}.
Definition with_quaternion (q : Quaternion.t) (m : Mesh) : Mesh :=
  {| geometry := geometry m; materialColor := materialColor m;
     position := position m; quaternion := q; scale := scale m |}.
Definition with_scale (v : Vector3.t) (m : Mesh) : Mesh :=
  {| geometry := geometry m; materialColor := materialColor m;
     position := position m; quaternion := quaternion m; scale := v |}.

(** A child of [this.scene]: one of the fixtures the constructor adds
    (helpers, lights, ground, goal post) or a mesh of the store. *)
Inductive SceneNode : Type :=
  | Fixture (name : string)
  | MeshNode (ref : nat).

#[global] Instance SceneNode_eq_dec : EqDecision SceneNode.
Proof. solve_decision. Defined.

#[global] Instance MeshNode_inj : Inj (=) (=) MeshNode.
Proof. by intros r1 r2 [= ->]. Qed.

(** ** The physics world *)

Record Collider : Type := {
  radius : number;
  restitution : number;
  friction : number;
}.

Record RigidBody : Type := {
  translation : Vector3.t;
  rotation : Quaternion.t;
  linvel : Vector3.t;
  linearDamping : number;
  angularDamping : number;
  collider : option Collider;
}.

#[global] Instance Collider_eq_dec : EqDecision Collider.
Proof. solve_decision. Defined.
#[global] Instance RigidBody_eq_dec : EqDecision RigidBody.
Proof. solve_decision. Defined.

(** [RAPIER.RigidBodyDesc.dynamic()] *)
Definition dynamicBody : RigidBody :=
  {| translation := Vector3.mk (lit 0 1) (lit 0 1) (lit 0 1);
     rotation := Quaternion.mk (lit 0 1) (lit 0 1) (lit 0 1) (lit 1 1);
     linvel := Vector3.mk (lit 0 1) (lit 0 1) (lit 0 1);
     linearDamping := lit 0 1;
     angularDamping := lit 0 1;
     collider := None |}.

Definition with_translation (v : Vector3.t) (b : RigidBody) : RigidBody :=
  {| translation := v; rotation := rotation b; linvel := linvel b;
     linearDamping := linearDamping b; angularDamping := angularDamping b;
     collider := collider b |}.
Definition with_linvel (v : Vector3.t) (b : RigidBody) : RigidBody :=
  {| translation := translation b; rotation := rotation b; linvel := v;
     linearDamping := linearDamping b; angularDamping := angularDamping b;
     collider := collider b |}.
Definition with_linearDamping (d : number) (b : RigidBody) : RigidBody :=
  {| translation := translation b; rotation := rotation b; linvel := linvel b;
     linearDamping := d; angularDamping := angularDamping b;
     collider := collider b |}.
Definition with_angularDamping (d : number) (b : RigidBody) : RigidBody :=
  {| translation := translation b; rotation := rotation b; linvel := linvel b;
     linearDamping := linearDamping b; angularDamping := d;
     collider := collider b |}.
Definition with_collider (c : Collider) (b : RigidBody) : RigidBody :=
  {| translation := translation b; rotation := rotation b; linvel := linvel b;
     linearDamping := linearDamping b; angularDamping := angularDamping b;
     collider := Some c |}.

(** The physics backend.  One call of [world.step()] replaces the state of
    every body by [integrate bodies body], which may depend on all the
    bodies of the world (contacts) and on what the backend was built with
    (gravity, the ground collider); it creates and removes no body. *)
Class Physics : Type := { integrate : gmap nat RigidBody → RigidBody → RigidBody }.

(** ** The state of the page *)

Record Ball : Type := { mesh : nat; rigidBody : nat }.

#[global] Instance Ball_eq_dec : EqDecision Ball.
Proof. solve_decision. Defined.

(** What [requestAnimationFrame] was given. *)
Inductive Callback : Type :=
  | CbDetectPose
  | CbRender.

#[global] Instance Callback_eq_dec : EqDecision Callback.
Proof. solve_decision. Defined.

Record State : Type := {
  children : list SceneNode;            (* this.scene.children *)
  meshes : gmap nat Mesh;               (* the store of meshes *)
  nextRef : nat;                        (* next fresh mesh reference *)
  colliderBoxes : gmap string nat;      (* this.colliderBoxes *)
  balls : list Ball;                    (* this.balls *)
  bodies : gmap nat RigidBody;          (* this.rapierWorld: its bodies *)
  nextHandle : nat;                     (* next fresh body handle *)
  steps : nat;                          (* calls of this.rapierWorld.step() *)
  drawn : nat;                          (* calls of this.renderer.render() *)
  frameRequests : list (nat * Callback);(* pending animation frame callbacks *)
  nextRequest : nat;                    (* next requestAnimationFrame id *)
  animationId : option nat;             (* let animationId: number *)
}.

Definition set_children (f : list SceneNode → list SceneNode) (s : State) : State :=
  Build_State (f (children s)) (meshes s) (nextRef s) (colliderBoxes s) (balls s)
    (bodies s) (nextHandle s) (steps s) (drawn s) (frameRequests s) (nextRequest s)
    (animationId s).
Definition set_meshes (f : gmap nat Mesh → gmap nat Mesh) (s : State) : State :=
  Build_State (children s) (f (meshes s)) (nextRef s) (colliderBoxes s) (balls s)
    (bodies s) (nextHandle s) (steps s) (drawn s) (frameRequests s) (nextRequest s)
    (animationId s).
Definition set_nextRef (f : nat → nat) (s : State) : State :=
  Build_State (children s) (meshes s) (f (nextRef s)) (colliderBoxes s) (balls s)
    (bodies s) (nextHandle s) (steps s) (drawn s) (frameRequests s) (nextRequest s)
    (animationId s).
Definition set_colliderBoxes (f : gmap string nat → gmap string nat) (s : State) : State :=
  Build_State (children s) (meshes s) (nextRef s) (f (colliderBoxes s)) (balls s)
    (bodies s) (nextHandle s) (steps s) (drawn s) (frameRequests s) (nextRequest s)
    (animationId s).
Definition set_balls (f : list Ball → list Ball) (s : State) : State :=
  Build_State (children s) (meshes s) (nextRef s) (colliderBoxes s) (f (balls s))
    (bodies s) (nextHandle s) (steps s) (drawn s) (frameRequests s) (nextRequest s)
    (animationId s).
Definition set_bodies (f : gmap nat RigidBody → gmap nat RigidBody) (s : State) : State :=
  Build_State (children s) (meshes s) (nextRef s) (colliderBoxes s) (balls s)
    (f (bodies s)) (nextHandle s) (steps s) (drawn s) (frameRequests s) (nextRequest s)
    (animationId s).
Definition set_nextHandle (f : nat → nat) (s : State) : State :=
  Build_State (children s) (meshes s) (nextRef s) (colliderBoxes s) (balls s)
    (bodies s) (f (nextHandle s)) (steps s) (drawn s) (frameRequests s) (nextRequest s)
    (animationId s).
Definition set_steps (f : nat → nat) (s : State) : State :=
  Build_State (children s) (meshes s) (nextRef s) (colliderBoxes s) (balls s)
    (bodies s) (nextHandle s) (f (steps s)) (drawn s) (frameRequests s) (nextRequest s)
    (animationId s).
Definition set_drawn (f : nat → nat) (s : State) : State :=
  Build_State (children s) (meshes s) (nextRef s) (colliderBoxes s) (balls s)
    (bodies s) (nextHandle s) (steps s) (f (drawn s)) (frameRequests s) (nextRequest s)
    (animationId s).
Definition set_frameRequests (f : list (nat * Callback) → list (nat * Callback))
    (s : State) : State :=
  Build_State (children s) (meshes s) (nextRef s) (colliderBoxes s) (balls s)
    (bodies s) (nextHandle s) (steps s) (drawn s) (f (frameRequests s)) (nextRequest s)
    (animationId s).
Definition set_nextRequest (f : nat → nat) (s : State) : State :=
  Build_State (children s) (meshes s) (nextRef s) (colliderBoxes s) (balls s)
    (bodies s) (nextHandle s) (steps s) (drawn s) (frameRequests s) (f (nextRequest s))
    (animationId s).
Definition set_animationId (f : option nat → option nat) (s : State) : State :=
  Build_State (children s) (meshes s) (nextRef s) (colliderBoxes s) (balls s)
    (bodies s) (nextHandle s) (steps s) (drawn s) (frameRequests s) (nextRequest s)
    (f (animationId s)).

(** ** The state-and-exception monad of the page's code

    A computation returns a completion together with the state it leaves:
    what was mutated before a throw stays mutated. *)

Definition M (A : Type) : Type := State → completion A * State.

#[global] Instance M_ret : MRet M := fun A a s => (Normal a, s).
#[global] Instance M_bind : MBind M := fun A B k m s =>
  match m s with
  | (Normal a, s') => k a s'
  | (Abrupt, s') => (Abrupt, s')
  end.

Definition throw {A} : M A := fun s => (Abrupt, s).
Definition gets {A} (f : State → A) : M A := fun s => (Normal (f s), s).
Definition modify (f : State → State) : M unit := fun s => (Normal tt, f s).
Definition lift {A} (c : completion A) : M A := fun s => (c, s).

(** [try { body } catch { handler }] *)
Definition try_catch (body handler : M unit) : M unit := fun s =>
  match body s with
  | (Normal a, s') => (Normal a, s')
  | (Abrupt, s') => handler s'
  end.

(** [xs.forEach(f)] *)
Fixpoint forEach {A} (f : A → M unit) (xs : list A) : M unit :=
  match xs with
  | [] => mret tt
  | x :: xs' => f x ;; forEach f xs'
  end.

(** The state a computation leaves, whatever its completion. *)
Definition exec {A} (m : M A) (s : State) : State := (m s).2.

(** ** Primitive operations on the scene graph, the stores and the browser *)

(** [this.scene.add(mesh)] for a mesh that has no parent yet. *)
Definition sceneAdd (r : nat) : M unit :=
  modify (set_children (fun c => c ++ [MeshNode r])).

Fixpoint remove_first (n : SceneNode) (l : list SceneNode) : list SceneNode :=
  match l with
  | [] => []
  | m :: l' => if decide (m = n) then l' else m :: remove_first n l'
  end.

(** [this.scene.remove(mesh)] *)
Definition sceneRemove (r : nat) : M unit :=
  modify (set_children (remove_first (MeshNode r))).

(** [new THREE.Mesh(...)]: a fresh reference into the store. *)
Definition allocMesh (m : Mesh) : M nat := fun s =>
  (Normal (nextRef s), set_nextRef S (set_meshes <[nextRef s := m]> s)).

(** In-place mutation of the mesh behind a reference. *)
Definition updateMesh (r : nat) (f : Mesh → Mesh) : M unit :=
  modify (set_meshes (alter f r)).

(** [this.rapierWorld.createRigidBody(desc)] *)
Definition createRigidBody (desc : RigidBody) : M nat := fun s =>
  (Normal (nextHandle s), set_nextHandle S (set_bodies <[nextHandle s := desc]> s)).

Definition updateBody (h : nat) (f : RigidBody → RigidBody) : M unit :=
  modify (set_bodies (alter f h)).

(** [this.rapierWorld.removeRigidBody(body)] *)
Definition removeRigidBody (h : nat) : M unit :=
  modify (set_bodies (delete h)).

(** [this.rapierWorld.step()] *)
Definition worldStep `{Physics} : M unit :=
  modify (fun s => set_steps S (set_bodies (fun bs => integrate bs <$> bs) s)).

(** [this.renderer.render(this.scene, this.camera)] *)
Definition rendererRender : M unit := modify (set_drawn S).

Definition requestAnimationFrame (cb : Callback) : M nat := fun s =>
  (Normal (nextRequest s),
   set_nextRequest S (set_frameRequests (fun q => q ++ [(nextRequest s, cb)]) s)).

(** [cancelAnimationFrame(id)]; [id] is [None] for [undefined]. *)
Definition cancelAnimationFrame (id : option nat) : M unit :=
  modify (set_frameRequests (filter (fun p => Some p.1 ≠ id))).

(** ** [SoccerScene]: projectiles *)

Definition maxBalls : nat := 10.
Definition removalDistance : number := lit 10 1.

(** [Math.sqrt(position.x ** 2 + position.y ** 2 + position.z ** 2) > r] *)
Definition distanceExceeds (p : Vector3.t) (r : number) : bool :=
  sqrt_gtb (num_add (num_add (num_sq (Vector3.x p)) (num_sq (Vector3.y p)))
                    (num_sq (Vector3.z p))) r.

(** The two removals that always go together. *)
Definition dispose (ball : Ball) : M unit :=
  sceneRemove (mesh ball);;
  removeRigidBody (rigidBody ball).

(** The callback of [this.balls.filter(...)], run over the array in order. *)
Fixpoint filterBalls (bs : list Ball) : M (list Ball) :=
  match bs with
  | [] => mret []
  | ball :: rest =>
      position ← gets (fun s => position (meshes s !!! mesh ball));
      keep ← (if distanceExceeds position removalDistance
              then dispose ball;; mret false
              else mret true);
      kept ← filterBalls rest;
      mret (if keep : bool then ball :: kept else kept)
  end.

(** [while (this.balls.length > maxBalls) { ... this.balls.shift() ... }] *)
Fixpoint shiftWhileOver (bs : list Ball) : M (list Ball) :=
  match bs with
  | [] => mret []
  | oldestBall :: rest =>
      if decide (maxBalls < length bs)
      then dispose oldestBall;; shiftWhileOver rest
      else mret bs
  end.

Definition cleanupBalls : M unit :=
  bs ← gets balls;
  kept ← filterBalls bs;
  modify (set_balls (fun _ => kept));;
  bs ← gets balls;
  rest ← shiftWhileOver bs;
  modify (set_balls (fun _ => rest)).

Definition spawnBall : M unit :=
  let ballRadius := lit 5 10 in
  ballMesh ← allocMesh (newMesh (SphereGeometry ballRadius 32 32) (Some 0xff0000%N));
  let x := lit 0 1 in
  let y := lit 2 1 in
  let z := lit 4 1 in
  updateMesh ballMesh (with_position (Vector3.mk x y z));;
  sceneAdd ballMesh;;
  rigidBody ← createRigidBody dynamicBody;
  updateBody rigidBody (with_translation (Vector3.mk x y z));;
  updateBody rigidBody (with_linearDamping (lit 5 10));;
  updateBody rigidBody (with_angularDamping (lit 5 10));;
  updateBody rigidBody
    (with_collider {| radius := ballRadius; restitution := lit 7 10; friction := lit 3 10 |});;
  updateBody rigidBody (with_linvel (Vector3.mk (lit 0 1) (lit (-1) 1) (lit 0 1)));;
  modify (set_balls (fun bs => bs ++ [{| mesh := ballMesh; rigidBody := rigidBody |}]));;
  cleanupBalls.

(** ** [SoccerScene]: collider proxies *)

Definition colors (part : string) : option N :=
  (list_to_map
     [("head", 0xffff00%N); ("leftHand", 0x0000ff%N); ("rightHand", 0x00ff00%N);
      ("leftLeg", 0x800080%N); ("rightLeg", 0xffa500%N); ("torso", 0xff0000%N)]
   : gmap string N) !! part.

(** The property names every plain object inherits from [Object.prototype]. *)
Definition objectPrototypeKeys : list string :=
  ["constructor"; "__defineGetter__"; "__defineSetter__"; "hasOwnProperty";
   "__lookupGetter__"; "__lookupSetter__"; "isPrototypeOf"; "propertyIsEnumerable";
   "toString"; "valueOf"; "__proto__"; "toLocaleString"].

(** What [this.colliderBoxes[part]] evaluates to: a mesh the table owns, a
    member of [Object.prototype] (truthy, and without a [scale]), or
    [undefined]. *)
Inductive Slot : Type :=
  | Own (r : nat)
  | Inherited
  | Undefined.

Definition member (table : gmap string nat) (part : string) : Slot :=
  match table !! part with
  | Some r => Own r
  | None => if bool_decide (part ∈ objectPrototypeKeys) then Inherited else Undefined
  end.

(** The body of the [forEach] callback of [updateColliderBoxes]. *)
Definition updateColliderBox (part : string) (box : BoundingBox) : M unit :=
  slot ← gets (fun s => member (colliderBoxes s) part);
  match slot with
  | Undefined =>
      r ← allocMesh (newMesh (BoxGeometry (lit 1 1) (lit 1 1) (lit 2 10)) (colors part));
      modify (set_colliderBoxes <[part := r]>);;
      sceneAdd r
  | _ => mret tt
  end;;
  let width := num_sub (maxX box) (minX box) in
  let height := num_sub (maxY box) (minY box) in
  let centerX := num_div (num_add (maxX box) (minX box)) (lit 2 1) in
  let centerY := num_div (num_add (maxY box) (minY box)) (lit 2 1) in
  slot ← gets (fun s => member (colliderBoxes s) part);
  match slot with
  | Own r =>
      updateMesh r (with_scale
        (Vector3.mk (num_mul width (lit 3 1)) (num_mul height (lit 3 1)) (lit 2 10)));;
      updateMesh r (with_position
        (Vector3.mk (num_mul centerX (lit 3 1)) (num_mul centerY (lit 3 1)) (lit 0 1)))
  | _ => throw
  end.

(** [bodyBoxes] is given by its [Object.entries]. *)
Definition updateColliderBoxes (bodyBoxes : list (string * BoundingBox)) : M unit :=
  forEach (fun '(part, box) => updateColliderBox part box) bodyBoxes.

(** ** [SoccerScene.render] *)

(** Reading the transform of a body that the world no longer has traps. *)
Definition readBody (h : nat) : M RigidBody :=
  b ← gets (fun s => bodies s !! h);
  match b with
  | Some b => mret b
  | None => throw
  end.

(** The callback of [this.balls.forEach(...)] in [render]. *)
Definition syncBall (ball : Ball) : M unit :=
  body ← readBody (rigidBody ball);
  let position := translation body in
  updateMesh (mesh ball) (with_position
    (Vector3.mk (Vector3.x position) (Vector3.y position) (Vector3.z position)));;
  let rotation := rotation body in
  updateMesh (mesh ball) (with_quaternion
    (Quaternion.mk (Quaternion.x rotation) (Quaternion.y rotation)
                   (Quaternion.z rotation) (Quaternion.w rotation))).

Definition render `{Physics} : M unit :=
  worldStep;;
  bs ← gets balls;
  forEach syncBall bs;;
  rendererRender;;
  _ ← requestAnimationFrame CbRender;
  mret tt.

(** ** The pose front end *)

(** The skeleton segments [drawResults] strokes. *)
Definition connections : list (nat * nat) :=
  [(11, 12); (12, 24); (24, 23); (23, 11);
   (12, 14); (14, 16);
   (11, 13); (13, 15);
   (24, 26); (26, 28);
   (23, 25); (25, 27);
   (0, 1); (1, 2); (2, 3); (3, 7); (7, 8); (8, 9); (9, 10); (10, 0)].

(** The 2D overlay only matters here by what it reads: each segment reads
    [x] and [y] of both of its end points. *)
Definition drawSkeleton (pose : Pose) : completion unit :=
  let! _ := cmap (fun c : nat * nat =>
              let! _ := prop Landmark.x (pose !! c.1) in
              let! _ := prop Landmark.y (pose !! c.1) in
              let! _ := prop Landmark.x (pose !! c.2) in
              prop Landmark.y (pose !! c.2)) connections in
  Normal tt.

Definition drawResults `{Physics} (poseLandmarks : option (list Pose)) : M unit :=
  match poseLandmarks with
  | None | Some [] => mret tt
  | Some (pose :: _) =>
      match pose with
      | [] => mret tt
      | _ :: _ =>
          lift (drawSkeleton pose);;
          bodyBoxes ← lift (calculateBodyBoundingBoxes poseLandmarks);
          match bodyBoxes with
          | Some bodyBoxes => updateColliderBoxes (entries bodyBoxes)
          | None => mret tt
          end;;
          render
      end
  end.

(** What one call of [detectPose] finds: the detector and the video element,
    and what [poseDetector.detectForVideo] answers, [results.landmarks] or a
    throw. *)
Record Perception : Type := {
  detectorLoaded : bool;
  videoWidth : nat;
  videoHeight : nat;
  paused : bool;
  ended : bool;
  detectForVideo : completion (option (list Pose));
}.

Definition rearm : M unit :=
  id ← requestAnimationFrame CbDetectPose;
  modify (set_animationId (fun _ => Some id)).

Definition detectPose `{Physics} (v : Perception) : M unit :=
  if negb (detectorLoaded v) || bool_decide (videoWidth v = 0) then rearm
  else if paused v || ended v then
    id ← gets animationId;
    cancelAnimationFrame id
  else if bool_decide (videoWidth v = 0) || bool_decide (videoHeight v = 0) then rearm
  else
    try_catch
      (landmarks ← lift (detectForVideo v);
       match landmarks with
       | Some (_ :: _) =>
           _ ← lift (calculateBodyBoundingBoxes landmarks);
           drawResults landmarks
       | _ => mret tt
       end;;
       rearm)
      (id ← gets animationId;
       cancelAnimationFrame id).

(** ** The event loop *)

Definition runCallback `{Physics} (v : Perception) (cb : Callback) : M unit :=
  match cb with
  | CbDetectPose => detectPose v
  | CbRender => render
  end.

Fixpoint findRequest (h : nat) (q : list (nat * Callback)) : option Callback :=
  match q with
  | [] => None
  | (h', cb) :: q' => if decide (h' = h) then Some cb else findRequest h q'
  end.

(** One handle of the frame's snapshot: a callback that was cancelled in the
    meantime is skipped; an exception that escapes a callback is reported by
    the browser and the frame goes on. *)
Definition runRequest `{Physics} (v : Perception) (h : nat) (s : State) : State :=
  match findRequest h (frameRequests s) with
  | Some cb =>
      exec (runCallback v cb) (set_frameRequests (filter (fun p => p.1 ≠ h)) s)
  | None => s
  end.

(** One display frame: the callbacks pending when the frame starts are run
    in the order they were requested; those requested during the frame wait
    for the next one. *)
Definition displayFrame `{Physics} (v : Perception) (s : State) : State :=
  foldl (fun s h => runRequest v h s) s ((frameRequests s).*1).

(** What can happen to the page: the spawn interval fires, the start
    handler's timeout calls [detectPose], the browser runs a display frame,
    the stop handler runs. *)
Inductive Event : Type :=
  | SpawnTick
  | StartTimeout (v : Perception)
  | AnimationFrame (v : Perception)
  | StopClick.

Definition stopClick : M unit :=
  id ← gets animationId;
  match id with
  | Some (S _) => cancelAnimationFrame id
  | _ => mret tt
  end.

Definition step `{Physics} (s : State) (ev : Event) : State :=
  match ev with
  | SpawnTick => exec spawnBall s
  | StartTimeout v => exec (detectPose v) s
  | AnimationFrame v => displayFrame v s
  | StopClick => exec stopClick s
  end.

Definition run `{Physics} (s : State) (evs : list Event) : State := foldl step s evs.

(** The page once [new SoccerScene(container)] has returned. *)
Definition newSoccerScene : State :=
  {| children := Fixture <$> ["axesHelper"; "gridHelper"; "referenceCube";
                              "ambientLight"; "directionalLight"; "pointLight";
                              "ground"; "goalPost"];
     meshes := ∅; nextRef := 0; colliderBoxes := ∅; balls := [];
     bodies := ∅; nextHandle := 0; steps := 0; drawn := 0;
     frameRequests := []; nextRequest := 1; animationId := None |}.

(** A backend without contacts: every step moves a body by its linear
    velocity. *)
Definition ballistic : Physics :=
  {| integrate := fun _ b =>
       with_translation
         (Vector3.mk (num_add (Vector3.x (translation b)) (Vector3.x (linvel b)))
                     (num_add (Vector3.y (translation b)) (Vector3.y (linvel b)))
                     (num_add (Vector3.z (translation b)) (Vector3.z (linvel b)))) b |}.

(** A pose of 33 landmarks, all at the centre of the image. *)
Definition centred : Pose := replicate 33 (Landmark.mk (lit 1 2) (lit 1 2)).

Definition seeing (l : option (list Pose)) : Perception :=
  {| detectorLoaded := true; videoWidth := 640; videoHeight := 480;
     paused := false; ended := false; detectForVideo := Normal l |}.

(** ** [BackgroundRemover.removeBackground]

    [imageData.data] is a [Uint8ClampedArray], four bytes per pixel; it is
    modelled by the list of its bytes. *)

Definition threshold : number := lit 128 1.
Definition tolerance : number := lit 50 1.

(** [data[i]] as a number: [undefined] past the end, which arithmetic turns
    into [NaN]. *)
Definition byteAt (data : list Z) (i : nat) : number :=
  match data !! i with
  | Some v => lit v 1
  | None => NaN
  end.

(** The test of the loop body at offset [i]. *)
Definition isBackground (data : list Z) (i : nat) : bool :=
  let r := byteAt data i in
  let g := byteAt data (i + 1) in
  let b := byteAt data (i + 2) in
  let luminance := num_div (num_add (num_add r g) b) (lit 3 1) in
  num_gtb luminance (num_sub threshold tolerance) &&
  num_ltb luminance (num_add threshold tolerance).

(** The loop body; a store past the end of a typed array is ignored. *)
Definition removeAt (data : list Z) (i : nat) : list Z :=
  if isBackground data i then <[i + 3 := 0%Z]> data else data.

(** The values [i] takes in [for (let i = 0; i < n; i += 4)]. *)
Definition pixelOffsets (n : nat) : list nat :=
  filter (fun i => i mod 4 = 0) (seq 0 n).

Definition removeBackground (data : list Z) : list Z :=
  foldl removeAt data (pixelOffsets (length data)).

(** ** Vocabulary of the mapper's properties *)

(** A landmark with finite coordinates. *)
Definition finite_landmark (l : Landmark.t) : Prop :=
  ∃ a b : Qc, l = Landmark.mk (Fin a) (Fin b).

(** [m] is the least (greatest) element of [xs] for the code's own [<]. *)
Definition is_least (m : number) (xs : list number) : Prop :=
  m ∈ xs ∧ ∀ v, v ∈ xs → num_ltb v m = false.
Definition is_greatest (m : number) (xs : list number) : Prop :=
  m ∈ xs ∧ ∀ v, v ∈ xs → num_ltb m v = false.

(** The landmarks of a group converted to normalised device coordinates. *)
Definition converted_xs (ls : Pose) : list number :=
  (fun l => ndcX (Landmark.x l)) <$> ls.
Definition converted_ys (ls : Pose) : list number :=
  (fun l => ndcY (Landmark.y l)) <$> ls.

(** [b] is the box of the group [points]: the extremes of the converted
    points, each edge moved outwards by [padding] times the raw extent. *)
Definition box_of_group (b : BoundingBox) (points : list (option Landmark.t)) : Prop :=
  ∃ (ls : Pose) (x0 x1 y0 y1 : number),
    points = Some <$> ls ∧
    is_least x0 (converted_xs ls) ∧ is_greatest x1 (converted_xs ls) ∧
    is_least y0 (converted_ys ls) ∧ is_greatest y1 (converted_ys ls) ∧
    minX b = num_sub x0 (num_mul (num_sub x1 x0) padding) ∧
    maxX b = num_add x1 (num_mul (num_sub x1 x0) padding) ∧
    minY b = num_sub y0 (num_mul (num_sub y1 y0) padding) ∧
    maxY b = num_add y1 (num_mul (num_sub y1 y0) padding).

(** [x <= y] between finite numbers. *)
Definition num_le (x y : number) : Prop :=
  match x, y with
  | Fin a, Fin b => (a <= b)%Qc
  | _, _ => False
  end.

(** The box [b] is not inverted and every landmark among [points], once
    converted, lies within its edges. *)
Definition encloses (b : BoundingBox) (points : list (option Landmark.t)) : Prop :=
  num_le (minX b) (maxX b) ∧ num_le (minY b) (maxY b) ∧
  ∀ l, Some l ∈ points →
    num_le (minX b) (ndcX (Landmark.x l)) ∧ num_le (ndcX (Landmark.x l)) (maxX b) ∧
    num_le (minY b) (ndcY (Landmark.y l)) ∧ num_le (ndcY (Landmark.y l)) (maxY b).

(** ** Vocabulary of the background remover's properties *)

(** Byte [j] of the image once the loop has run: an alpha byte is zero when
    its pixel passed the test, every other byte is as it was. *)
Definition cleared (data : list Z) (j : nat) : option Z :=
  if decide (j mod 4 = 3) then
    if isBackground data (j - 3) then (fun _ => 0%Z) <$> data !! j else data !! j
  else data !! j.

(** [d'] has the colour bytes of [d]. *)
Definition same_colours (d d' : list Z) : Prop :=
  ∀ j, j mod 4 ≠ 3 → d' !! j = d !! j.

(** ** Vocabulary of the projectiles' properties *)

(** A ball is far when the filter callback of [cleanupBalls] rejects it;
    this only reads the store of meshes. *)
Definition far (ms : gmap nat Mesh) (ball : Ball) : bool :=
  distanceExceeds (position (ms !!! mesh ball)) removalDistance.

(** The test of the filter callback applied to the body instead of the
    mesh. *)
Definition away (s : State) (ball : Ball) : bool :=
  match bodies s !! rigidBody ball with
  | Some body => distanceExceeds (translation body) removalDistance
  | None => false
  end.

(** The state [dispose] leaves, for one ball and for a list of balls. *)
Definition disposed (ball : Ball) (s : State) : State :=
  set_bodies (delete (rigidBody ball))
    (set_children (remove_first (MeshNode (mesh ball))) s).

Definition disposeAll (dead : list Ball) (s : State) : State :=
  set_bodies (fun bo => foldl (fun m b => delete (rigidBody b) m) bo dead)
    (set_children (fun c => foldl (fun c b => remove_first (MeshNode (mesh b)) c) c dead) s).

(** The ball that [spawnBall] creates in state [s], and the state right
    after [this.balls.push(...)]. *)
Definition newBall (s : State) : Ball :=
  {| mesh := nextRef s; rigidBody := nextHandle s |}.

Definition spawnPoint : Vector3.t := Vector3.mk (lit 0 1) (lit 2 1) (lit 4 1).

Definition ballMesh : Mesh :=
  with_position spawnPoint
    (newMesh (SphereGeometry (lit 5 10) 32 32) (Some 0xff0000%N)).

Definition ballBody : RigidBody :=
  {| translation := spawnPoint;
     rotation := Quaternion.mk (lit 0 1) (lit 0 1) (lit 0 1) (lit 1 1);
     linvel := Vector3.mk (lit 0 1) (lit (-1) 1) (lit 0 1);
     linearDamping := lit 5 10;
     angularDamping := lit 5 10;
     collider := Some {| radius := lit 5 10; restitution := lit 7 10;
                         friction := lit 3 10 |} |}.

Definition pushed (s : State) : State :=
  set_balls (fun bs => bs ++ [newBall s])
    (set_nextHandle S (set_bodies <[nextHandle s := ballBody]>
      (set_children (fun c => c ++ [MeshNode (nextRef s)])
        (set_nextRef S (set_meshes <[nextRef s := ballMesh]> s))))).

(** What is left of a ball list after the cap is enforced: the oldest balls
    in excess of [maxBalls] are gone. *)
Definition capped (bs : list Ball) : list Ball := drop (length bs - maxBalls) bs.

(** The [k] most recent entries of a list kept oldest first. *)
Definition most_recent {A} (k : nat) (l : list A) : list A := drop (length l - k) l.

(** The number of spawn ticks of a run. *)
Fixpoint ticks (evs : list Event) : nat :=
  match evs with
  | [] => 0
  | SpawnTick :: evs' => S (ticks evs')
  | _ :: evs' => ticks evs'
  end.

(** The run [evs] from [s] finds no ball far at any of its spawn ticks. *)
Fixpoint calm `{Physics} (s : State) (evs : list Event) : bool :=
  match evs with
  | [] => true
  | ev :: evs' =>
      (match ev with
       | SpawnTick => forallb (fun b => negb (far (meshes s) b)) (balls s)
       | _ => true
       end) && calm (step s ev) evs'
  end.

(** The balls the spawn ticks of the run create, oldest first. *)
Fixpoint spawned `{Physics} (s : State) (evs : list Event) : list Ball :=
  match evs with
  | [] => []
  | ev :: evs' =>
      match ev with
      | SpawnTick => [newBall s]
      | _ => []
      end ++ spawned (step s ev) evs'
  end.

(** ** Vocabulary of the proxies' properties *)

(** The transform [updateColliderBoxes] gives to the proxy of [box]. *)
Definition proxyScale (box : BoundingBox) : Vector3.t :=
  Vector3.mk (num_mul (num_sub (maxX box) (minX box)) (lit 3 1))
             (num_mul (num_sub (maxY box) (minY box)) (lit 3 1))
             (lit 2 10).

Definition proxyPosition (box : BoundingBox) : Vector3.t :=
  Vector3.mk (num_mul (num_div (num_add (maxX box) (minX box)) (lit 2 1)) (lit 3 1))
             (num_mul (num_div (num_add (maxY box) (minY box)) (lit 2 1)) (lit 3 1))
             (lit 0 1).

Definition placed (box : BoundingBox) (m : Mesh) : Mesh :=
  with_position (proxyPosition box) (with_scale (proxyScale box) m).

(** The mesh a new proxy starts as, and the state once it is registered and
    added to the scene. *)
Definition proxyMesh (part : string) : Mesh :=
  newMesh (BoxGeometry (lit 1 1) (lit 1 1) (lit 2 10)) (colors part).

Definition created (part : string) (s : State) : State :=
  set_children (fun c => c ++ [MeshNode (nextRef s)])
    (set_colliderBoxes <[part := nextRef s]>
      (set_nextRef S (set_meshes <[nextRef s := proxyMesh part]> s))).

(** How often a node occurs among the children of the scene. *)
Definition occurrences (n : SceneNode) (c : list SceneNode) : nat :=
  length (filter (fun m => m = n) c).

(** ** Vocabulary of the frames' properties *)

(** The state after [this.rapierWorld.step()], and a mesh after a body's
    transform was copied into it. *)
Definition stepped `{Physics} (s : State) : State :=
  set_steps S (set_bodies (fun bs => integrate bs <$> bs) s).

Definition synced (body : RigidBody) (m : Mesh) : Mesh :=
  with_quaternion (rotation body) (with_position (translation body) m).

Definition sync_of (bs : gmap nat RigidBody) (ball : Ball) : Mesh → Mesh :=
  match bs !! rigidBody ball with
  | Some body => synced body
  | None => id
  end.

Definition readback (bs : gmap nat RigidBody) (live : list Ball)
    (ms : gmap nat Mesh) : gmap nat Mesh :=
  foldl (fun ms ball => alter (sync_of bs ball) (mesh ball) ms) ms live.

(** The state a request for an animation frame leaves. *)
Definition requested (cb : Callback) (s : State) : State :=
  set_nextRequest S (set_frameRequests (fun q => q ++ [(nextRequest s, cb)]) s).

(** The state [render] leaves when every live ball still has its body. *)
Definition rendered `{Physics} (s : State) : State :=
  requested CbRender
    (set_drawn S
      (set_meshes (readback (bodies (stepped s)) (balls s)) (stepped s))).


(** The perception call was made and found somebody: a first pose with all
    33 landmarks. *)
Definition one_detection (v : Perception) : Prop :=
  detectorLoaded v = true ∧ videoWidth v ≠ 0 ∧ videoHeight v ≠ 0 ∧
  paused v = false ∧ ended v = false ∧
  ∃ pose rest, detectForVideo v = Normal (Some (pose :: rest)) ∧ 33 ≤ length pose.

(** The number of pending [render] callbacks, and of pending [detectPose]
    callbacks. *)
Definition renders (q : list (nat * Callback)) : nat :=
  length (filter (fun p => p.2 = CbRender) q).
Definition detects (q : list (nat * Callback)) : nat :=
  length (filter (fun p => p.2 = CbDetectPose) q).

(** ** Invariants *)

(** The invariant of the page. *)
Record wf (s : State) : Prop := {
  wf_children_nodup : NoDup (children s);
  wf_children_bound : ∀ r, MeshNode r ∈ children s → r < nextRef s;
  wf_ball_meshes : NoDup (mesh <$> balls s);
  wf_ball_bodies : NoDup (rigidBody <$> balls s);
  wf_ball : ∀ b, b ∈ balls s →
    mesh b < nextRef s ∧ rigidBody b < nextHandle s ∧
    is_Some (meshes s !! mesh b) ∧ is_Some (bodies s !! rigidBody b);
  wf_proxy : ∀ k r, colliderBoxes s !! k = Some r →
    r < nextRef s ∧ is_Some (meshes s !! r) ∧ MeshNode r ∈ children s ∧
    (r ∉ mesh <$> balls s) ∧ k ∉ objectPrototypeKeys;
  wf_proxy_inj : ∀ k1 k2 r,
    colliderBoxes s !! k1 = Some r → colliderBoxes s !! k2 = Some r → k1 = k2;
  wf_requests_nodup : NoDup (frameRequests s).*1;
  wf_requests_bound : ∀ h, h ∈ (frameRequests s).*1 → h < nextRequest s;
  wf_meshes_bound : ∀ r, is_Some (meshes s !! r) → r < nextRef s;
}.

(** Every live ball's mesh shows where its body is: position and rotation
    of the mesh are those of the body. *)
Definition in_sync (s : State) : Prop :=
  ∀ b, b ∈ balls s →
    ∃ m body, meshes s !! mesh b = Some m ∧ bodies s !! rigidBody b = Some body ∧
              position m = translation body ∧ quaternion m = rotation body.

(** [s'] comes from [s] by work on the proxies only: what was registered
    and what was in the scene still is, and everything that belongs to the
    projectiles, the physics world, the renderer and the browser is as it
    was. *)
Definition extends (s s' : State) : Prop :=
  (∀ k r, colliderBoxes s !! k = Some r → colliderBoxes s' !! k = Some r) ∧
  (∀ n, n ∈ children s → n ∈ children s') ∧
  nextRef s ≤ nextRef s' ∧
  balls s' = balls s ∧ bodies s' = bodies s ∧ steps s' = steps s ∧
  drawn s' = drawn s ∧ frameRequests s' = frameRequests s ∧
  nextRequest s' = nextRequest s ∧ animationId s' = animationId s ∧
  nextHandle s' = nextHandle s ∧
  (∀ b, b ∈ balls s → meshes s' !! mesh b = meshes s !! mesh b).

(** [s'] is well-formed and has the projectiles of [s]: the same live
    balls, no body handle was handed out in between, and meshes that showed
    where the bodies are still do. *)
Definition quiet (s s' : State) : Prop :=
  wf s' ∧ balls s' = balls s ∧ nextHandle s' = nextHandle s ∧
  (in_sync s → in_sync s').

(** ** What the front end does to the page, and what every page satisfies *)

(** The children the constructor gives the scene, and the body parts the
    mapper names. *)
Definition fixtures : list string :=
  ["axesHelper"; "gridHelper"; "referenceCube"; "ambientLight"; "directionalLight";
   "pointLight"; "ground"; "goalPost"].

Definition parts : list string :=
  ["head"; "leftHand"; "rightHand"; "leftLeg"; "rightLeg"; "torso"].

(** The state one entry of [updateColliderBoxes] leaves: a new proxy is
    created and placed, or the proxy [r] of the part is placed again. *)
Definition introduced (part : string) (box : BoundingBox) (s : State) : State :=
  set_meshes (alter (placed box) (nextRef s)) (created part s).

Definition moved (r : nat) (box : BoundingBox) (s : State) : State :=
  set_meshes (alter (placed box) r) s.

(** [draws s t]: [t] comes from [s] by what [drawResults] does, any number
    of times: a proxy of a body part is created and placed, a proxy is
    placed again, the scene is rendered. *)
Inductive draws `{Physics} : State → State → Prop :=
  | draws_done s : draws s s
  | draws_new part box s u :
      wf s → colliderBoxes s !! part = None → part ∈ parts →
      draws (introduced part box s) u → draws s u
  | draws_known part box r s u :
      wf s → colliderBoxes s !! part = Some r →
      draws (moved r box s) u → draws s u
  | draws_render s u :
      wf s → draws (rendered s) u → draws s u.

(** A second invariant of the page: the physics world holds the bodies of
    the live balls and no other; the scene holds the fixtures, the meshes of
    the live balls and the proxies, and nothing else; the world was stepped
    as often as the scene was drawn; the proxies belong to the six body
    parts and are flat boxes in the plane [z = 0]; the ball meshes are the
    red spheres [spawnBall] made; [animationId] is the handle of no
    [render] callback. *)
Record tidy (s : State) : Prop := {
  tidy_world : ∀ h, is_Some (bodies s !! h) ↔ h ∈ rigidBody <$> balls s;
  tidy_scene : ∀ n, n ∈ children s ↔
    (∃ name, name ∈ fixtures ∧ n = Fixture name) ∨
    (∃ b, b ∈ balls s ∧ n = MeshNode (mesh b)) ∨
    (∃ k r, colliderBoxes s !! k = Some r ∧ n = MeshNode r);
  tidy_frames : steps s = drawn s;
  tidy_parts : ∀ k r, colliderBoxes s !! k = Some r → k ∈ parts;
  tidy_proxy : ∀ k r, colliderBoxes s !! k = Some r →
    ∃ m, meshes s !! r = Some m ∧
      geometry m = BoxGeometry (lit 1 1) (lit 1 1) (lit 2 10) ∧
      materialColor m = colors k ∧
      Vector3.z (position m) = lit 0 1 ∧ Vector3.z (scale m) = lit 2 10;
  tidy_ball : ∀ b, b ∈ balls s →
    ∃ m, meshes s !! mesh b = Some m ∧
      geometry m = SphereGeometry (lit 5 10) 32 32 ∧
      materialColor m = Some 0xff0000%N ∧
      scale m = Vector3.mk (lit 1 1) (lit 1 1) (lit 1 1);
  tidy_animationId : ∀ id, animationId s = Some id →
    0 < id ∧ id < nextRequest s ∧
    ∀ cb, (id, cb) ∈ frameRequests s → cb = CbDetectPose;
  tidy_requests : 0 < nextRequest s;
}.

(** The nodes a tidy scene holds, listed. *)
Definition sceneNodes (s : State) : list SceneNode :=
  (Fixture <$> fixtures) ++ (MeshNode <$> (mesh <$> balls s)) ++
  (MeshNode <$> (map_to_list (colliderBoxes s)).*2).

(** [t] has gone on from [s]: no step was undone and every pending [render]
    callback of [s] is still pending. *)
Definition grows (s t : State) : Prop :=
  steps s ≤ steps t ∧
  renders (frameRequests s) ≤ renders (frameRequests t) ∧
  ∀ h, (h, CbRender) ∈ frameRequests s → (h, CbRender) ∈ frameRequests t.

(** Every proxy registered in [s] is registered in [t] under the same
    reference. *)
Definition keeps_proxies (s t : State) : Prop :=
  ∀ k r, colliderBoxes s !! k = Some r → colliderBoxes t !! k = Some r.

(** The number of times the start handler's timeout fired. *)
Fixpoint starts (evs : list Event) : nat :=
  match evs with
  | [] => 0
  | StartTimeout _ :: evs' => S (starts evs')
  | _ :: evs' => starts evs'
  end.

(** At most [n] [detectPose] callbacks are pending, and when there are [n]
    of them [animationId] is the handle of one. *)
Definition loops (n : nat) (s : State) : Prop :=
  detects (frameRequests s) ≤ n ∧
  (0 < n → detects (frameRequests s) = n →
   ∃ id, animationId s = Some id ∧ (id, CbDetectPose) ∈ frameRequests s).

(** A call of [detectPose] that ends without asking for another frame: the
    video is paused or has ended, the perception call throws, or the first
    pose it returns is too short for the mapper. *)
Definition stops_detection (v : Perception) : Prop :=
  detectorLoaded v = true ∧ videoWidth v ≠ 0 ∧
  (paused v = true ∨ ended v = true ∨
   (videoHeight v ≠ 0 ∧
    (detectForVideo v = Abrupt ∨
     ∃ pose rest, detectForVideo v = Normal (Some (pose :: rest)) ∧ length pose < 33))).

(** ** Sample data *)

(** Sample data: a set of six boxes. *)
Definition squareBox (c : string) : BoundingBox :=
  {| minX := lit (-1) 2; maxX := lit 1 2; minY := lit (-1) 2; maxY := lit 1 2;
     color := c |}.

Definition sixBoxes : BodyBoundingBoxes :=
  {| head := squareBox "yellow"; leftHand := squareBox "blue";
     rightHand := squareBox "green"; leftLeg := squareBox "purple";
     rightLeg := squareBox "orange"; torso := squareBox "red" |}.

(** * Properties of the keypoint mapper *)

Lemma Qc_ltb_lt a b : Qc_ltb a b = true ↔ (a < b)%Qc.
Proof.
  unfold Qc_ltb. rewrite Qclt_alt. destruct (a ?= b)%Qc; split; congruence.
Qed.

Lemma Qc_ltb_ge a b : Qc_ltb a b = false ↔ (b <= a)%Qc.
Proof.
  rewrite <- not_true_iff_false, Qc_ltb_lt. split.
  - apply Qcnot_lt_le.
  - apply Qcle_not_lt.
Qed.

Lemma Qc_ltb_irrefl a : Qc_ltb a a = false.
Proof. apply Qc_ltb_ge, Qcle_refl. Qed.

Lemma cmap_some {A B} (f : A → B) (g : option A → completion B) (ls : list A) :
  (∀ l, g (Some l) = Normal (f l)) →
  cmap g (Some <$> ls) = Normal (f <$> ls).
Proof.
  intros Hg. induction ls as [|l ls IH]; [done|].
  rewrite !fmap_cons. simpl. rewrite Hg, IH. done.
Qed.

Lemma cmap_prop_undefined {A B} (f : Landmark.t → A) (g : A → B)
    (points : list (option Landmark.t)) :
  None ∈ points →
  cmap (fun p => let! v := prop f p in Normal (g v)) points = Abrupt.
Proof.
  induction points as [|p points IH]; intros Hin.
  - by apply elem_of_nil in Hin.
  - apply elem_of_cons in Hin as [<-|Hin]; [done|].
    simpl. destruct p as [l|]; [|done]. simpl. by rewrite IH.
Qed.

Lemma createBox_undefined points c : None ∈ points → createBox points c = Abrupt.
Proof.
  intros Hin. unfold createBox.
  by rewrite (cmap_prop_undefined Landmark.x ndcX points Hin).
Qed.

Lemma createBox_defined ls c :
  createBox (Some <$> ls) c =
  Normal {| minX := num_sub (Math_min (converted_xs ls))
                      (num_mul (num_sub (Math_max (converted_xs ls))
                                        (Math_min (converted_xs ls))) padding);
            maxX := num_add (Math_max (converted_xs ls))
                      (num_mul (num_sub (Math_max (converted_xs ls))
                                        (Math_min (converted_xs ls))) padding);
            minY := num_sub (Math_min (converted_ys ls))
                      (num_mul (num_sub (Math_max (converted_ys ls))
                                        (Math_min (converted_ys ls))) padding);
            maxY := num_add (Math_max (converted_ys ls))
                      (num_mul (num_sub (Math_max (converted_ys ls))
                                        (Math_min (converted_ys ls))) padding);
            color := c |}.
Proof.
  unfold createBox.
  rewrite (cmap_some (fun l => ndcX (Landmark.x l))) by done.
  simpl. rewrite (cmap_some (fun l => ndcY (Landmark.y l))) by done.
  done.
Qed.

(** The conversion on finite coordinates. *)
Lemma ndcX_fin (a : Qc) : ndcX (Fin a) = Fin (a * Q2Qc 2 - 1)%Qc.
Proof. reflexivity. Qed.

Lemma ndcY_fin (a : Qc) : ndcY (Fin a) = Fin (- (a * Q2Qc 2 - 1))%Qc.
Proof. reflexivity. Qed.

Lemma converted_xs_fin ls :
  Forall finite_landmark ls → ∃ qs, converted_xs ls = Fin <$> qs.
Proof.
  induction 1 as [|l ls (a & b & ->) _ (qs & IH)].
  - by exists [].
  - exists ((a * Q2Qc 2 - 1)%Qc :: qs). unfold converted_xs in *.
    rewrite !fmap_cons, IH. done.
Qed.

Lemma converted_ys_fin ls :
  Forall finite_landmark ls → ∃ qs, converted_ys ls = Fin <$> qs.
Proof.
  induction 1 as [|l ls (a & b & ->) _ (qs & IH)].
  - by exists [].
  - exists ((- (b * Q2Qc 2 - 1))%Qc :: qs). unfold converted_ys in *.
    rewrite !fmap_cons, IH. done.
Qed.

Lemma Math_min_cons (a : Qc) (qs : list Qc) :
  ∃ m, Math_min (Fin <$> a :: qs) = Fin m ∧ m ∈ a :: qs ∧
       ∀ v, v ∈ a :: qs → (m <= v)%Qc.
Proof.
  revert a. induction qs as [|a' qs IH]; intros a.
  - exists a. split; [done|]. split; [apply list_elem_of_here|].
    intros v ->%list_elem_of_singleton. apply Qcle_refl.
  - destruct (IH a') as (m & Hm & Hin & Hle).
    change (Math_min (Fin <$> a :: a' :: qs))
      with (min2 (Fin a) (Math_min (Fin <$> a' :: qs))).
    rewrite Hm. simpl. destruct (Qc_ltb m a) eqn:E.
    + exists m. split; [done|]. split; [by apply list_elem_of_further|].
      intros v [->|Hv]%elem_of_cons; [|by apply Hle].
      apply Qc_ltb_lt in E. by apply Qclt_le_weak.
    + exists a. split; [done|]. split; [by apply list_elem_of_here|].
      apply Qc_ltb_ge in E.
      intros v [->|Hv]%elem_of_cons; [apply Qcle_refl|].
      eapply Qcle_trans; [exact E|by apply Hle].
Qed.

Lemma Math_max_cons (a : Qc) (qs : list Qc) :
  ∃ m, Math_max (Fin <$> a :: qs) = Fin m ∧ m ∈ a :: qs ∧
       ∀ v, v ∈ a :: qs → (v <= m)%Qc.
Proof.
  revert a. induction qs as [|a' qs IH]; intros a.
  - exists a. split; [done|]. split; [apply list_elem_of_here|].
    intros v ->%list_elem_of_singleton. apply Qcle_refl.
  - destruct (IH a') as (m & Hm & Hin & Hle).
    change (Math_max (Fin <$> a :: a' :: qs))
      with (max2 (Fin a) (Math_max (Fin <$> a' :: qs))).
    rewrite Hm. simpl. destruct (Qc_ltb a m) eqn:E.
    + exists m. split; [done|]. split; [by apply list_elem_of_further|].
      intros v [->|Hv]%elem_of_cons; [|by apply Hle].
      apply Qc_ltb_lt in E. by apply Qclt_le_weak.
    + exists a. split; [done|]. split; [by apply list_elem_of_here|].
      apply Qc_ltb_ge in E.
      intros v [->|Hv]%elem_of_cons; [apply Qcle_refl|].
      eapply Qcle_trans; [by apply Hle|exact E].
Qed.

Lemma Math_min_fin (qs : list Qc) :
  qs ≠ [] → ∃ m, Math_min (Fin <$> qs) = Fin m ∧ is_least (Fin m) (Fin <$> qs).
Proof.
  destruct qs as [|a qs]; [done|]. intros _.
  destruct (Math_min_cons a qs) as (m & Hm & Hin & Hle).
  exists m. split; [done|]. split; [by apply list_elem_of_fmap_2|].
  intros v (q & -> & Hq)%list_elem_of_fmap. simpl. by apply Qc_ltb_ge, Hle.
Qed.

Lemma Math_max_fin (qs : list Qc) :
  qs ≠ [] → ∃ m, Math_max (Fin <$> qs) = Fin m ∧ is_greatest (Fin m) (Fin <$> qs).
Proof.
  destruct qs as [|a qs]; [done|]. intros _.
  destruct (Math_max_cons a qs) as (m & Hm & Hin & Hle).
  exists m. split; [done|]. split; [by apply list_elem_of_fmap_2|].
  intros v (q & -> & Hq)%list_elem_of_fmap. simpl. by apply Qc_ltb_ge, Hle.
Qed.

Lemma fmap_eq_nil_inv {A B} (f : A → B) (l : list A) : f <$> l = [] → l = [].
Proof. by destruct l. Qed.

(** For a non-empty group of finite landmarks [createBox] returns the box
    of the group. *)
Lemma createBox_group ls c :
  ls ≠ [] → Forall finite_landmark ls →
  ∃ b, createBox (Some <$> ls) c = Normal b ∧ box_of_group b (Some <$> ls).
Proof.
  intros Hne Hfin. rewrite createBox_defined. eexists. split; [done|].
  destruct (converted_xs_fin ls Hfin) as (qx & Hx).
  destruct (converted_ys_fin ls Hfin) as (qy & Hy).
  assert (qx ≠ []) as Hqx.
  { intros ->. apply Hne. by apply fmap_eq_nil_inv in Hx. }
  assert (qy ≠ []) as Hqy.
  { intros ->. apply Hne. by apply fmap_eq_nil_inv in Hy. }
  destruct (Math_min_fin qx Hqx) as (x0 & Hx0 & Lx0).
  destruct (Math_max_fin qx Hqx) as (x1 & Hx1 & Lx1).
  destruct (Math_min_fin qy Hqy) as (y0 & Hy0 & Ly0).
  destruct (Math_max_fin qy Hqy) as (y1 & Hy1 & Ly1).
  exists ls, (Fin x0), (Fin x1), (Fin y0), (Fin y1). simpl.
  rewrite Hx, Hy, Hx0, Hx1, Hy0, Hy1. done.
Qed.

Lemma picked_landmarks (pose : Pose) (idxs : list nat) :
  Forall (fun i => i < length pose) idxs → Forall finite_landmark pose →
  ∃ ls, (fun i => pose !! i) <$> idxs = Some <$> ls ∧
        Forall finite_landmark ls ∧ length ls = length idxs.
Proof.
  intros Hidx Hfin. induction Hidx as [|i idxs Hi _ (ls & Heq & Hls & Hlen)].
  - by exists [].
  - destruct (lookup_lt_is_Some_2 pose i Hi) as [l Hl].
    exists (l :: ls). rewrite !fmap_cons, Heq, Hl. split; [done|]. split.
    + constructor; [|done]. eapply Forall_forall; [exact Hfin|].
      by eapply list_elem_of_lookup_2.
    + simpl. by rewrite Hlen.
Qed.

Lemma picked_group (pose : Pose) (idxs : list nat) c :
  idxs ≠ [] →
  Forall (fun i => i < length pose) idxs → Forall finite_landmark pose →
  ∃ b, createBox ((fun i => pose !! i) <$> idxs) c = Normal b ∧
       box_of_group b ((fun i => pose !! i) <$> idxs).
Proof.
  intros Hne Hidx Hfin.
  destruct (picked_landmarks pose idxs Hidx Hfin) as (ls & -> & Hls & Hlen).
  apply createBox_group; [|done].
  intros ->. destruct idxs; [done|discriminate].
Qed.

(** At least 33 finite landmarks: the mapper returns the six boxes, each the
    box of its group. *)
Lemma mapper_boxes (pose : Pose) (rest : list Pose) :
  33 ≤ length pose → Forall finite_landmark pose →
  ∃ boxes, calculateBodyBoundingBoxes (Some (pose :: rest)) = Normal (Some boxes) ∧
    box_of_group (head boxes) (head_points pose) ∧
    box_of_group (leftHand boxes) (leftHand_points pose) ∧
    box_of_group (rightHand boxes) (rightHand_points pose) ∧
    box_of_group (leftLeg boxes) (leftLeg_points pose) ∧
    box_of_group (rightLeg boxes) (rightLeg_points pose) ∧
    box_of_group (torso boxes) (torso_points pose).
Proof.
  intros Hlen Hfin.
  assert (∀ idxs c, idxs ≠ [] → Forall (fun i => i < 33) idxs →
            ∃ b, createBox ((fun i => pose !! i) <$> idxs) c = Normal b ∧
                 box_of_group b ((fun i => pose !! i) <$> idxs)) as Hpick.
  { intros idxs c Hne Hidx. apply picked_group; [done| |done].
    eapply Forall_impl; [exact Hidx|]. simpl. lia. }
  destruct (createBox_group (take 11 pose) "yellow") as (bh & Hh & Gh).
  { destruct pose; [simpl in Hlen; lia|done]. }
  { by apply Forall_take. }
  destruct (Hpick [15; 17; 19; 21] "blue") as (b1 & H1 & G1);
    [done|repeat constructor; lia|].
  destruct (Hpick [16; 18; 20; 22] "green") as (b2 & H2 & G2);
    [done|repeat constructor; lia|].
  destruct (Hpick [23; 25; 27; 29; 31] "purple") as (b3 & H3 & G3);
    [done|repeat constructor; lia|].
  destruct (Hpick [24; 26; 28; 30; 32] "orange") as (b4 & H4 & G4);
    [done|repeat constructor; lia|].
  destruct (Hpick [11; 12; 23; 24] "red") as (b5 & H5 & G5);
    [done|repeat constructor; lia|].
  exists {| head := bh; leftHand := b1; rightHand := b2; leftLeg := b3;
            rightLeg := b4; torso := b5 |}.
  split; [|done].
  unfold calculateBodyBoundingBoxes, head_points, leftHand_points,
    rightHand_points, leftLeg_points, rightLeg_points, torso_points.
  rewrite Hh. simpl in H1, H2, H3, H4, H5 |- *.
  rewrite H1. simpl. rewrite H2. simpl. rewrite H3. simpl.
  rewrite H4. simpl. rewrite H5. done.
Qed.

(** With 33 landmarks or more, finite or not, nothing the mapper or the
    overlay reads is missing. *)
Lemma mapper_total (pose : Pose) (rest : list Pose) :
  33 ≤ length pose →
  ∃ boxes, calculateBodyBoundingBoxes (Some (pose :: rest)) = Normal (Some boxes).
Proof.
  intros Hlen.
  do 33 (destruct pose as [|? pose]; [simpl in Hlen; lia|]).
  eexists. reflexivity.
Qed.

Lemma drawSkeleton_total (pose : Pose) :
  33 ≤ length pose → drawSkeleton pose = Normal tt.
Proof.
  intros Hlen.
  do 33 (destruct pose as [|? pose]; [simpl in Hlen; lia|]).
  reflexivity.
Qed.

(** ** The claims about the mapper *)

(** C7. Each landmark [(x, y)] is converted by [ndcX = x*2-1] and
    [ndcY = -(y*2-1)], and for a pose of at least 33 finite landmarks each
    of the six boxes is built from the per-axis least and greatest converted
    coordinates of its group, to which the padding is then applied. *)
Theorem mapper_converts_then_bounds (pose : Pose) (rest : list Pose) :
  33 ≤ length pose → Forall finite_landmark pose →
  (∀ x y : Qc,
     ndcX (Landmark.x (Landmark.mk (Fin x) (Fin y))) = Fin (x * Q2Qc 2 - 1)%Qc ∧
     ndcY (Landmark.y (Landmark.mk (Fin x) (Fin y))) = Fin (- (y * Q2Qc 2 - 1))%Qc) ∧
  ∃ boxes, calculateBodyBoundingBoxes (Some (pose :: rest)) = Normal (Some boxes) ∧
    box_of_group (head boxes) (head_points pose) ∧
    box_of_group (leftHand boxes) (leftHand_points pose) ∧
    box_of_group (rightHand boxes) (rightHand_points pose) ∧
    box_of_group (leftLeg boxes) (leftLeg_points pose) ∧
    box_of_group (rightLeg boxes) (rightLeg_points pose) ∧
    box_of_group (torso boxes) (torso_points pose).
Proof.
  intros Hlen Hfin. split; [by intros x y|]. by apply mapper_boxes.
Qed.

(** C8. An absent or empty detection list makes the mapper return [null]
    normally: nothing is thrown. *)
Theorem mapper_no_result :
  calculateBodyBoundingBoxes None = Normal None ∧
  calculateBodyBoundingBoxes (Some []) = Normal None.
Proof. split; reflexivity. Qed.

(** C10. The mapper reads the first pose at fixed indices up to 32 without
    a guard: when that pose has fewer than 33 landmarks the call throws,
    whatever the rest of the detection list is. *)
Theorem mapper_short_pose_throws (pose : Pose) (rest : list Pose) :
  length pose < 33 →
  calculateBodyBoundingBoxes (Some (pose :: rest)) = Abrupt.
Proof.
  intros Hlen. unfold calculateBodyBoundingBoxes.
  assert (createBox (rightLeg_points pose) "orange" = Abrupt) as Hthrow.
  { apply createBox_undefined. unfold rightLeg_points.
    rewrite (lookup_ge_None_2 pose 32) by lia.
    do 4 apply list_elem_of_further. apply list_elem_of_here. }
  destruct (createBox (head_points pose) "yellow"); [simpl|done].
  destruct (createBox (leftHand_points pose) "blue"); [simpl|done].
  destruct (createBox (rightHand_points pose) "green"); [simpl|done].
  destruct (createBox (leftLeg_points pose) "purple"); [simpl|done].
  by rewrite Hthrow.
Qed.

(** * The padding law as JavaScript computes it *)

(** ** Binary64: the order of the numbers *)













(** ** Binary64: rounding never yields [NaN] *)












(** ** Binary64: [Math.min], [Math.max] and [createBox] *)








#[local] Set Warnings "-inexact-float".


#[local] Set Warnings "inexact-float".

(** * The projectile life cycle *)

Lemma dispose_eq ball s : dispose ball s = (Normal tt, disposed ball s).
Proof. reflexivity. Qed.

Lemma state_eq (s t : State) :
  children s = children t → meshes s = meshes t → nextRef s = nextRef t →
  colliderBoxes s = colliderBoxes t → balls s = balls t → bodies s = bodies t →
  nextHandle s = nextHandle t → steps s = steps t → drawn s = drawn t →
  frameRequests s = frameRequests t → nextRequest s = nextRequest t →
  animationId s = animationId t → s = t.
Proof. destruct s, t; simpl; intros; subst; reflexivity. Qed.

Lemma disposeAll_nil s : disposeAll [] s = s.
Proof. by destruct s. Qed.

Lemma disposeAll_cons b dead s :
  disposeAll (b :: dead) s = disposeAll dead (disposed b s).
Proof. reflexivity. Qed.

Lemma disposeAll_app dead1 dead2 s :
  disposeAll (dead1 ++ dead2) s = disposeAll dead2 (disposeAll dead1 s).
Proof.
  revert s. induction dead1 as [|b dead1 IH]; intros s.
  - by rewrite disposeAll_nil.
  - simpl app. by rewrite !disposeAll_cons, IH.
Qed.

Lemma filterBalls_eq bs s :
  filterBalls bs s =
  (Normal (filter (fun b => far (meshes s) b = false) bs),
   disposeAll (filter (fun b => far (meshes s) b = true) bs) s).
Proof.
  revert s. induction bs as [|b bs IH]; intros s.
  - by rewrite disposeAll_nil.
  - simpl filterBalls. unfold mbind, M_bind, gets, mret, M_ret.
    rewrite !filter_cons. fold (far (meshes s) b).
    destruct (far (meshes s) b) eqn:E.
    + rewrite dispose_eq, IH. simpl. by rewrite disposeAll_cons.
    + by rewrite IH.
Qed.

Lemma shiftWhileOver_eq bs s :
  shiftWhileOver bs s =
  (Normal (capped bs), disposeAll (take (length bs - maxBalls) bs) s).
Proof.
  unfold capped. revert s. induction bs as [|b bs IH]; intros s.
  - by rewrite disposeAll_nil.
  - simpl shiftWhileOver. destruct (decide (maxBalls < S (length bs))) as [Hlt|Hge].
    + change (shiftWhileOver bs (disposed b s) =
              (Normal (drop (length (b :: bs) - maxBalls) (b :: bs)),
               disposeAll (take (length (b :: bs) - maxBalls) (b :: bs)) s)).
      rewrite IH. simpl length in *.
      replace (S (length bs) - maxBalls) with (S (length bs - maxBalls)) by lia.
      done.
    + replace (length (b :: bs) - maxBalls) with 0 by (unfold maxBalls in *; simpl; lia).
      by rewrite disposeAll_nil.
Qed.

(** The balls that survive [cleanupBalls], and those it disposes of. *)
Lemma cleanupBalls_eq s :
  let kept := filter (fun b => far (meshes s) b = false) (balls s) in
  let dead := filter (fun b => far (meshes s) b = true) (balls s) in
  cleanupBalls s =
  (Normal tt,
   set_balls (fun _ => capped kept)
     (disposeAll (dead ++ take (length kept - maxBalls) kept) s)).
Proof.
  intros kept dead. unfold cleanupBalls, mbind, M_bind, gets, modify.
  rewrite filterBalls_eq. fold kept dead. simpl.
  rewrite shiftWhileOver_eq. simpl. by rewrite disposeAll_app.
Qed.

Lemma spawnBall_eq s : spawnBall s = cleanupBalls (pushed s).
Proof.
  unfold spawnBall, mbind, M_bind, allocMesh, updateMesh, sceneAdd,
    createRigidBody, updateBody, modify. simpl.
  f_equal. apply state_eq; simpl; try reflexivity.
  - by rewrite alter_insert_eq.
  - by rewrite !alter_insert_eq.
Qed.

(** ** The invariant: removal from the scene graph and from the world *)

Lemma remove_first_subset n l x : x ∈ remove_first n l → x ∈ l.
Proof.
  induction l as [|m l IH]; simpl; [done|].
  destruct (decide (m = n)).
  - apply list_elem_of_further.
  - intros [->|Hx]%elem_of_cons; [apply list_elem_of_here|].
    by apply list_elem_of_further, IH.
Qed.

Lemma remove_first_other n l x : x ∈ l → x ≠ n → x ∈ remove_first n l.
Proof.
  intros Hx Hne. induction l as [|m l IH]; simpl; [done|].
  apply elem_of_cons in Hx as [->|Hx].
  - rewrite decide_False by done. apply list_elem_of_here.
  - destruct (decide (m = n)); [done|]. by apply list_elem_of_further, IH.
Qed.

Lemma remove_first_NoDup n l : NoDup l → NoDup (remove_first n l).
Proof.
  induction 1 as [|m l Hm Hl IH]; simpl; [constructor|].
  destruct (decide (m = n)); [done|].
  constructor; [|done]. intros Hin. by apply Hm, (remove_first_subset n).
Qed.

Lemma NoDup_fmap_eq {A B} (f : A → B) (l : list A) x y :
  NoDup (f <$> l) → x ∈ l → y ∈ l → f x = f y → x = y.
Proof.
  induction l as [|a l IH]; [by intros _ ?%elem_of_nil|].
  rewrite fmap_cons. intros [Ha Hl]%NoDup_cons Hx Hy Hf.
  apply elem_of_cons in Hx as [->|Hx]; apply elem_of_cons in Hy as [->|Hy].
  - done.
  - exfalso. apply Ha. rewrite Hf. by apply list_elem_of_fmap_2.
  - exfalso. apply Ha. rewrite <- Hf. by apply list_elem_of_fmap_2.
  - by apply IH.
Qed.

Section disposal.
Context (s : State) (dead : list Ball).

Lemma children_disposeAll_subset x :
  x ∈ children (disposeAll dead s) → x ∈ children s.
Proof.
  simpl. generalize (children s). induction dead as [|b d IH]; intros c; [done|].
  simpl. intros Hx. by apply (remove_first_subset (MeshNode (mesh b))), IH.
Qed.

Lemma children_disposeAll_NoDup :
  NoDup (children s) → NoDup (children (disposeAll dead s)).
Proof.
  simpl. generalize (children s). induction dead as [|b d IH]; intros c; [done|].
  simpl. intros Hc. by apply IH, remove_first_NoDup.
Qed.

Lemma children_disposeAll_other x :
  x ∈ children s → (∀ b, b ∈ dead → x ≠ MeshNode (mesh b)) →
  x ∈ children (disposeAll dead s).
Proof.
  simpl. generalize (children s). induction dead as [|b d IH]; intros c; [done|].
  simpl. intros Hx Hne. apply IH.
  - apply remove_first_other; [done|]. apply Hne, list_elem_of_here.
  - intros b' Hb'. by apply Hne, list_elem_of_further.
Qed.

Lemma bodies_disposeAll_other h :
  (∀ b, b ∈ dead → h ≠ rigidBody b) →
  bodies (disposeAll dead s) !! h = bodies s !! h.
Proof.
  simpl. generalize (bodies s). induction dead as [|b d IH]; intros m; [done|].
  simpl. intros Hne. rewrite IH.
  - apply lookup_delete_ne. intros Heq. by apply (Hne b), eq_sym; [apply list_elem_of_here|].
  - intros b' Hb'. by apply Hne, list_elem_of_further.
Qed.

End disposal.

(** Disposing of balls that are not kept leaves a well-formed page. *)
Lemma wf_disposeAll s survivors removed :
  wf s → survivors `sublist_of` balls s →
  (∀ b, b ∈ removed → b ∈ balls s) →
  (∀ b, b ∈ removed → b ∉ survivors) →
  wf (set_balls (fun _ => survivors) (disposeAll removed s)).
Proof.
  intros Hwf Hsub Hin Hout.
  assert (∀ b, b ∈ survivors → b ∈ balls s) as Hsurv.
  { intros b Hb. by eapply elem_of_sublist. }
  destruct Hwf. constructor; simpl.
  - by apply (children_disposeAll_NoDup s removed).
  - intros r Hr. by apply wf_children_bound0, (children_disposeAll_subset s removed).
  - eapply sublist_NoDup; [exact wf_ball_meshes0|]. by apply fmap_sublist.
  - eapply sublist_NoDup; [exact wf_ball_bodies0|]. by apply fmap_sublist.
  - intros b Hb. destruct (wf_ball0 b (Hsurv b Hb)) as (H1 & H2 & H3 & H4).
    repeat split; try done.
    change (is_Some (bodies (disposeAll removed s) !! rigidBody b)).
    rewrite bodies_disposeAll_other; [done|].
    intros d Hd Heq. apply (Hout d Hd).
    rewrite <- (NoDup_fmap_eq rigidBody (balls s) b d); auto.
  - intros k r Hk. destruct (wf_proxy0 k r Hk) as (H1 & H2 & H3 & H4 & H5).
    repeat split; try done.
    + apply (children_disposeAll_other s removed); [done|].
      intros b Hb [= ->]. apply H4, list_elem_of_fmap_2, Hin, Hb.
    + intros (b & -> & Hb)%list_elem_of_fmap.
      apply H4, list_elem_of_fmap_2, Hsurv, Hb.
  - exact wf_proxy_inj0.
  - exact wf_requests_nodup0.
  - exact wf_requests_bound0.
  - exact wf_meshes_bound0.
Qed.

Lemma is_Some_insert {K A} `{Countable K} (m : gmap K A) i j x :
  is_Some (m !! j) → is_Some (<[i := x]> m !! j).
Proof.
  intros Hj. destruct (decide (i = j)) as [->|Hne].
  - rewrite lookup_insert_eq. by eexists.
  - by rewrite lookup_insert_ne.
Qed.

Lemma is_Some_alter {K A} `{Countable K} (f : A → A) (m : gmap K A) i j :
  is_Some (alter f i m !! j) ↔ is_Some (m !! j).
Proof.
  destruct (decide (i = j)) as [->|Hne].
  - rewrite lookup_alter_eq. apply fmap_is_Some.
  - by rewrite lookup_alter_ne.
Qed.

Lemma wf_newSoccerScene : wf newSoccerScene.
Proof.
  constructor; simpl.
  - apply (bool_decide_unpack _). by vm_compute.
  - intros r Hr. repeat (apply elem_of_cons in Hr as [Hr|Hr]; [discriminate|]).
    by apply elem_of_nil in Hr.
  - constructor.
  - constructor.
  - by intros b ?%elem_of_nil.
  - intros k r. by rewrite lookup_empty.
  - intros k1 k2 r. by rewrite lookup_empty.
  - constructor.
  - by intros h ?%elem_of_nil.
  - intros r [m Hm]. by rewrite lookup_empty in Hm.
Qed.

Lemma is_Some_insert_bound {A} (m : gmap nat A) (n : nat) x r :
  (∀ r, is_Some (m !! r) → r < n) → is_Some (<[n := x]> m !! r) → r < S n.
Proof.
  intros Hm Hr. destruct (decide (n = r)) as [->|Hne]; [lia|].
  rewrite lookup_insert_ne in Hr by done. apply Hm in Hr. lia.
Qed.

Lemma wf_pushed s : wf s → wf (pushed s).
Proof.
  intros []. constructor; simpl.
  - apply NoDup_app. split; [done|]. split; [|apply NoDup_singleton].
    intros x Hx ->%list_elem_of_singleton. apply wf_children_bound0 in Hx. lia.
  - intros r [Hr|Hr%list_elem_of_singleton]%elem_of_app.
    + apply wf_children_bound0 in Hr. lia.
    + injection Hr as ->. lia.
  - rewrite fmap_app. apply NoDup_app. split; [done|]. split; [|apply NoDup_singleton].
    intros x (b & -> & Hb)%list_elem_of_fmap Hx%list_elem_of_singleton.
    apply wf_ball0 in Hb. simpl in Hx. lia.
  - rewrite fmap_app. apply NoDup_app. split; [done|]. split; [|apply NoDup_singleton].
    intros x (b & -> & Hb)%list_elem_of_fmap Hx%list_elem_of_singleton.
    apply wf_ball0 in Hb. simpl in Hx. lia.
  - intros b [Hb|Hb%list_elem_of_singleton]%elem_of_app.
    + destruct (wf_ball0 b Hb) as (H1 & H2 & H3 & H4).
      split; [lia|]. split; [lia|]. split; by apply is_Some_insert.
    + subst b. simpl. rewrite !lookup_insert_eq. repeat split; try lia; by eexists.
  - intros k r Hk. destruct (wf_proxy0 k r Hk) as (H1 & H2 & H3 & H4 & H5).
    split; [lia|]. split; [by apply is_Some_insert|].
    split; [apply elem_of_app; by left|]. split; [|done].
    rewrite fmap_app. intros [Hr|Hr%list_elem_of_singleton]%elem_of_app; [done|].
    simpl in Hr. lia.
  - done.
  - done.
  - done.
  - intros r. by apply is_Some_insert_bound.
Qed.

Lemma NoDup_balls s : wf s → NoDup (balls s).
Proof. intros []. by eapply NoDup_fmap_1. Qed.

(** What [cleanupBalls] keeps and what it disposes of. *)
Lemma cleanup_partition s :
  wf s →
  let kept := filter (fun b => far (meshes s) b = false) (balls s) in
  let dead := filter (fun b => far (meshes s) b = true) (balls s) in
  let removed := dead ++ take (length kept - maxBalls) kept in
  capped kept `sublist_of` balls s ∧
  (∀ b, b ∈ removed → b ∈ balls s) ∧
  (∀ b, b ∈ removed → b ∉ capped kept).
Proof.
  intros Hwf kept dead removed.
  assert (NoDup kept) as Hkept.
  { eapply sublist_NoDup; [by apply NoDup_balls|]. apply sublist_filter. }
  split; [|split].
  - unfold capped. etrans; [apply sublist_drop|]. apply sublist_filter.
  - intros b [Hb|Hb]%elem_of_app.
    + by apply list_elem_of_filter in Hb as [_ Hb].
    + eapply elem_of_sublist in Hb; [|apply sublist_take].
      by apply list_elem_of_filter in Hb as [_ Hb].
  - intros b [Hb|Hb]%elem_of_app Hb'.
    + apply list_elem_of_filter in Hb as [Hfar _].
      eapply elem_of_sublist in Hb'; [|apply sublist_drop].
      apply list_elem_of_filter in Hb' as [Hnear _]. congruence.
    + rewrite <- (take_drop (length kept - maxBalls) kept) in Hkept.
      apply NoDup_app in Hkept as (_ & Hdisj & _). by apply (Hdisj b).
Qed.

Lemma wf_cleanupBalls s : wf s → wf (exec cleanupBalls s).
Proof.
  intros Hwf. unfold exec. rewrite cleanupBalls_eq. simpl.
  destruct (cleanup_partition s Hwf) as (H1 & H2 & H3).
  by apply (wf_disposeAll s).
Qed.

(** Disposal does not disturb the balls that are kept. *)
Lemma in_sync_disposeAll s survivors removed :
  wf s → in_sync s → survivors `sublist_of` balls s →
  (∀ b, b ∈ removed → b ∈ balls s) →
  (∀ b, b ∈ removed → b ∉ survivors) →
  in_sync (set_balls (fun _ => survivors) (disposeAll removed s)).
Proof.
  intros Hwf Hsync Hsub Hin Hout b Hb. simpl in Hb.
  assert (b ∈ balls s) as Hb' by by eapply elem_of_sublist.
  destruct (Hsync b Hb') as (m & body & Hm & Hbody & Hpos & Hrot).
  exists m, body. split; [done|]. split; [|done].
  change (bodies (disposeAll removed s) !! rigidBody b = Some body).
  rewrite bodies_disposeAll_other; [done|].
  intros d Hd Heq. apply (Hout d Hd).
  rewrite <- (NoDup_fmap_eq rigidBody (balls s) b d); auto. apply Hwf.
Qed.

Lemma in_sync_pushed s : wf s → in_sync s → in_sync (pushed s).
Proof.
  intros Hwf Hsync b [Hb|Hb%list_elem_of_singleton]%elem_of_app.
  - destruct (Hsync b Hb) as (m & body & Hm & Hbody & Hpos & Hrot).
    destruct (wf_ball s Hwf b Hb) as (H1 & H2 & _).
    exists m, body. simpl. rewrite !lookup_insert_ne by lia. done.
  - subst b. exists ballMesh, ballBody. simpl. by rewrite !lookup_insert_eq.
Qed.

Lemma in_sync_spawnBall s : wf s → in_sync s → in_sync (exec spawnBall s).
Proof.
  intros Hwf Hsync. unfold exec. rewrite spawnBall_eq, cleanupBalls_eq. simpl.
  destruct (cleanup_partition (pushed s) (wf_pushed s Hwf)) as (H1 & H2 & H3).
  by apply (in_sync_disposeAll (pushed s)); [apply wf_pushed|apply in_sync_pushed|..].
Qed.

Lemma wf_spawnBall s : wf s → wf (exec spawnBall s).
Proof.
  intros Hwf. unfold exec. rewrite spawnBall_eq. by apply wf_cleanupBalls, wf_pushed.
Qed.

(** ** The invariant: stores, counters and the request queue *)

Lemma wf_set_meshes f s :
  (∀ r, is_Some (f (meshes s) !! r) ↔ is_Some (meshes s !! r)) →
  wf s → wf (set_meshes f s).
Proof.
  intros Hf []. constructor; simpl; try done.
  - intros b Hb. destruct (wf_ball0 b Hb) as (? & ? & ? & ?).
    repeat split; try done. by apply Hf.
  - intros k r Hk. destruct (wf_proxy0 k r Hk) as (? & ? & ? & ? & ?).
    repeat split; try done. by apply Hf.
  - intros r Hr. by apply wf_meshes_bound0, Hf.
Qed.

Lemma wf_set_bodies f s :
  (∀ h, is_Some (bodies s !! h) → is_Some (f (bodies s) !! h)) →
  wf s → wf (set_bodies f s).
Proof.
  intros Hf []. constructor; simpl; try done.
  intros b Hb. destruct (wf_ball0 b Hb) as (? & ? & ? & ?). auto.
Qed.

Lemma wf_set_steps f s : wf s → wf (set_steps f s).
Proof. intros []. by constructor. Qed.

Lemma wf_set_drawn f s : wf s → wf (set_drawn f s).
Proof. intros []. by constructor. Qed.

Lemma wf_set_animationId f s : wf s → wf (set_animationId f s).
Proof. intros []. by constructor. Qed.

Lemma wf_requested cb s : wf s → wf (requested cb s).
Proof.
  intros []. constructor; simpl; try done.
  - rewrite fmap_app. apply NoDup_app. split; [done|]. split; [|apply NoDup_singleton].
    intros h Hh Hh'%list_elem_of_singleton. apply wf_requests_bound0 in Hh.
    simpl in Hh'. lia.
  - rewrite fmap_app. intros h [Hh|Hh%list_elem_of_singleton]%elem_of_app.
    + apply wf_requests_bound0 in Hh. lia.
    + simpl in Hh. lia.
Qed.

Lemma wf_filter_requests (P : nat * Callback → Prop) `{∀ p, Decision (P p)} s :
  wf s → wf (set_frameRequests (filter P) s).
Proof.
  intros []. constructor; simpl; try done.
  - eapply sublist_NoDup; [exact wf_requests_nodup0|].
    apply fmap_sublist, sublist_filter.
  - intros h Hh. apply wf_requests_bound0.
    eapply elem_of_sublist; [exact Hh|]. apply fmap_sublist, sublist_filter.
Qed.

Lemma requestAnimationFrame_eq cb s :
  requestAnimationFrame cb s = (Normal (nextRequest s), requested cb s).
Proof. reflexivity. Qed.

Lemma rearm_eq s :
  rearm s = (Normal tt,
             set_animationId (fun _ => Some (nextRequest s)) (requested CbDetectPose s)).
Proof. reflexivity. Qed.

Lemma wf_rearm s : wf s → wf (exec rearm s).
Proof. intros Hwf. by apply wf_set_animationId, wf_requested. Qed.

Lemma wf_cancel id s : wf s → wf (exec (cancelAnimationFrame id) s).
Proof. intros Hwf. by apply wf_filter_requests. Qed.

(** ** [render] *)

Lemma set_meshes_set_meshes f g s :
  set_meshes g (set_meshes f s) = set_meshes (fun ms => g (f ms)) s.
Proof. reflexivity. Qed.

Lemma set_meshes_id s : set_meshes (fun ms => ms) s = s.
Proof. by destruct s. Qed.

Lemma readback_lookup_other bs live ms r :
  r ∉ mesh <$> live → readback bs live ms !! r = ms !! r.
Proof.
  revert ms. induction live as [|b live IH]; intros ms Hr; [done|].
  rewrite fmap_cons in Hr. apply not_elem_of_cons in Hr as [Hne Hr].
  unfold readback in *. simpl. rewrite IH by done. by rewrite lookup_alter_ne.
Qed.

Lemma readback_is_Some bs live ms r :
  is_Some (readback bs live ms !! r) ↔ is_Some (ms !! r).
Proof.
  revert ms. induction live as [|b live IH]; intros ms; [done|].
  unfold readback in *. simpl. rewrite IH. apply is_Some_alter.
Qed.

(** After the read-back every live ball's mesh holds the transform of its
    body. *)
Lemma readback_lookup bs live ms ball body m :
  NoDup (mesh <$> live) → ball ∈ live →
  bs !! rigidBody ball = Some body → ms !! mesh ball = Some m →
  readback bs live ms !! mesh ball = Some (synced body m).
Proof.
  revert ms. induction live as [|b live IH]; intros ms Hnd Hin Hbody Hm.
  - by apply elem_of_nil in Hin.
  - rewrite fmap_cons in Hnd. apply NoDup_cons in Hnd as [Hb Hnd].
    change (readback bs (b :: live) ms)
      with (readback bs live (alter (sync_of bs b) (mesh b) ms)).
    apply elem_of_cons in Hin as [->|Hin].
    + rewrite readback_lookup_other by done.
      rewrite lookup_alter_eq, Hm. unfold sync_of. by rewrite Hbody.
    + apply IH; try done. rewrite lookup_alter_ne; [done|].
      intros Heq. apply Hb. rewrite Heq. by apply list_elem_of_fmap_2.
Qed.

Lemma syncBall_eq ball body t :
  bodies t !! rigidBody ball = Some body →
  syncBall ball t = (Normal tt, set_meshes (alter (synced body) (mesh ball)) t).
Proof.
  intros Hbody.
  cbv [syncBall readBody mbind M_bind gets updateMesh modify mret M_ret throw].
  rewrite Hbody. f_equal. apply state_eq; simpl; try reflexivity.
  rewrite alter_alter_eq. apply alter_ext.
  intros m _. destruct body as [[] [] ? ? ? ?]; reflexivity.
Qed.

Lemma forEach_readback (bs : list Ball) (t : State) :
  (∀ b, b ∈ bs → is_Some (bodies t !! rigidBody b)) →
  forEach syncBall bs t = (Normal tt, set_meshes (readback (bodies t) bs) t).
Proof.
  revert t. induction bs as [|b bs IH]; intros t Halive.
  - by rewrite set_meshes_id.
  - destruct (Halive b) as [body Hbody]; [apply list_elem_of_here|].
    simpl forEach. unfold mbind, M_bind. rewrite (syncBall_eq b body) by done.
    rewrite IH.
    + simpl. rewrite set_meshes_set_meshes. unfold readback at 2. simpl.
      unfold sync_of at 2. by rewrite Hbody.
    + intros b' Hb'. simpl. by apply Halive, list_elem_of_further.
Qed.

Lemma render_eq `{Physics} s :
  (∀ b, b ∈ balls s → is_Some (bodies s !! rigidBody b)) →
  render s = (Normal tt, rendered s).
Proof.
  intros Halive. unfold render, mbind, M_bind, worldStep, modify, gets at 1.
  simpl. rewrite forEach_readback; [done|].
  intros b Hb. simpl. rewrite lookup_fmap. by apply fmap_is_Some, Halive.
Qed.

Lemma wf_rendered `{Physics} s : wf s → wf (rendered s).
Proof.
  intros Hwf. apply wf_requested, wf_set_drawn, wf_set_meshes.
  - intros r. apply readback_is_Some.
  - apply wf_set_steps, wf_set_bodies; [|done].
    intros h. rewrite lookup_fmap. apply fmap_is_Some.
Qed.

Lemma wf_alive s : wf s → ∀ b, b ∈ balls s → is_Some (bodies s !! rigidBody b).
Proof. intros [] b Hb. by apply wf_ball0. Qed.

Lemma wf_render `{Physics} s : wf s → wf (exec render s).
Proof.
  intros Hwf. unfold exec. rewrite render_eq by by apply wf_alive.
  by apply wf_rendered.
Qed.

(** * The collider proxies *)

Lemma member_own table part r : table !! part = Some r → member table part = Own r.
Proof. intros Hr. unfold member. by rewrite Hr. Qed.

Lemma member_undefined (table : gmap string nat) part :
  table !! part = None → part ∉ objectPrototypeKeys → member table part = Undefined.
Proof. intros Hr Hk. unfold member. rewrite Hr. by rewrite bool_decide_eq_false_2. Qed.

Lemma member_inherited (table : gmap string nat) part :
  table !! part = None → part ∈ objectPrototypeKeys → member table part = Inherited.
Proof. intros Hr Hk. unfold member. rewrite Hr. by rewrite bool_decide_eq_true_2. Qed.

Lemma updateColliderBox_known part box r s :
  colliderBoxes s !! part = Some r →
  updateColliderBox part box s = (Normal tt, set_meshes (alter (placed box) r) s).
Proof.
  intros Hr.
  cbv [updateColliderBox mbind M_bind gets updateMesh modify mret M_ret throw].
  rewrite (member_own _ _ _ Hr). cbv beta iota.
  rewrite (member_own _ _ _ Hr). cbv beta iota. f_equal.
  apply state_eq; simpl; try reflexivity. by rewrite alter_alter_eq.
Qed.

Lemma updateColliderBox_new part box s :
  colliderBoxes s !! part = None → part ∉ objectPrototypeKeys →
  updateColliderBox part box s =
  (Normal tt, set_meshes (alter (placed box) (nextRef s)) (created part s)).
Proof.
  intros Hr Hk.
  cbv [updateColliderBox mbind M_bind gets updateMesh modify mret M_ret throw
       allocMesh sceneAdd].
  rewrite (member_undefined _ _ Hr Hk). cbv beta iota. simpl colliderBoxes.
  rewrite (member_own _ part (nextRef s)) by apply lookup_insert_eq.
  cbv beta iota. f_equal. apply state_eq; simpl; try reflexivity. by rewrite alter_alter_eq.
Qed.

(** A key inherited from [Object.prototype] that the table does not own
    makes the callback throw before anything is mutated. *)
Lemma updateColliderBox_inherited part box s :
  colliderBoxes s !! part = None → part ∈ objectPrototypeKeys →
  updateColliderBox part box s = (Abrupt, s).
Proof.
  intros Hr Hk.
  cbv [updateColliderBox mbind M_bind gets updateMesh modify mret M_ret throw].
  rewrite (member_inherited _ _ Hr Hk). cbv beta iota.
  by rewrite (member_inherited _ _ Hr Hk).
Qed.

Lemma wf_created part s :
  wf s → colliderBoxes s !! part = None → part ∉ objectPrototypeKeys →
  wf (created part s).
Proof.
  intros [] Hnone Hkey. constructor; simpl; try done.
  - apply NoDup_app. split; [done|]. split; [|apply NoDup_singleton].
    intros x Hx ->%list_elem_of_singleton. apply wf_children_bound0 in Hx. lia.
  - intros r [Hr|Hr%list_elem_of_singleton]%elem_of_app.
    + apply wf_children_bound0 in Hr. lia.
    + injection Hr as ->. lia.
  - intros b Hb. destruct (wf_ball0 b Hb) as (H1 & H2 & H3 & H4).
    split; [lia|]. split; [done|]. split; [by apply is_Some_insert|done].
  - intros k r Hk. destruct (decide (part = k)) as [<-|Hne].
    + rewrite lookup_insert_eq in Hk. injection Hk as <-.
      split; [lia|]. split; [rewrite lookup_insert_eq; by eexists|].
      split; [apply elem_of_app; right; apply list_elem_of_here|].
      split; [|done].
      intros (b & Hb1 & Hb2)%list_elem_of_fmap. apply wf_ball0 in Hb2. lia.
    + rewrite lookup_insert_ne in Hk by done.
      destruct (wf_proxy0 k r Hk) as (H1 & H2 & H3 & H4 & H5).
      split; [lia|]. split; [by apply is_Some_insert|].
      split; [apply elem_of_app; by left|done].
  - intros k1 k2 r Hk1 Hk2.
    destruct (decide (part = k1)) as [<-|Hne1]; destruct (decide (part = k2)) as [<-|Hne2].
    + done.
    + rewrite lookup_insert_eq in Hk1. rewrite lookup_insert_ne in Hk2 by done.
      injection Hk1 as <-. apply wf_proxy0 in Hk2. lia.
    + rewrite lookup_insert_eq in Hk2. rewrite lookup_insert_ne in Hk1 by done.
      injection Hk2 as <-. apply wf_proxy0 in Hk1. lia.
    + rewrite lookup_insert_ne in Hk1, Hk2 by done. by eapply wf_proxy_inj0.
  - intros r. by apply is_Some_insert_bound.
Qed.

Lemma wf_alter_mesh f r s : wf s → wf (set_meshes (alter f r) s).
Proof. apply wf_set_meshes. intros r'. apply is_Some_alter. Qed.

(** What one entry does to a well-formed page when its key is not an
    inherited one: the proxy of [part] exists afterwards and carries the
    transform of [box]; proxies that existed keep their reference; no other
    mesh below the old [nextRef] is touched; the scene gains at most the new
    proxy. *)
Lemma updateColliderBox_spec part box s :
  wf s → part ∉ objectPrototypeKeys →
  ∃ s' r m,
    updateColliderBox part box s = (Normal tt, s') ∧ wf s' ∧
    colliderBoxes s' !! part = Some r ∧ meshes s' !! r = Some m ∧
    position m = proxyPosition box ∧ scale m = proxyScale box ∧
    (∀ k r', colliderBoxes s !! k = Some r' → colliderBoxes s' !! k = Some r') ∧
    (∀ r', r' ≠ r → r' < nextRef s → meshes s' !! r' = meshes s !! r') ∧
    (∀ r0 m0, colliderBoxes s !! part = Some r0 → meshes s !! r0 = Some m0 →
       geometry m = geometry m0 ∧ materialColor m = materialColor m0) ∧
    (∀ n, n ∈ children s → n ∈ children s') ∧
    balls s' = balls s ∧ bodies s' = bodies s ∧ steps s' = steps s ∧
    drawn s' = drawn s ∧ frameRequests s' = frameRequests s ∧
    nextRequest s' = nextRequest s ∧ animationId s' = animationId s ∧
    nextHandle s' = nextHandle s ∧ nextRef s ≤ nextRef s'.
Proof.
  intros Hwf Hkey. destruct (colliderBoxes s !! part) as [r|] eqn:Hpart.
  - destruct (wf_proxy s Hwf part r Hpart) as (H1 & [m0 Hm0] & _).
    exists (set_meshes (alter (placed box) r) s), r, (placed box m0).
    split; [by apply updateColliderBox_known|].
    split; [by apply wf_alter_mesh|]. simpl.
    split; [done|]. split; [by rewrite lookup_alter_eq, Hm0|].
    split; [done|]. split; [done|]. split; [done|].
    split; [intros r' Hne _; by rewrite lookup_alter_ne|].
    split; [intros r1 m1 Hr1 Hm1; by simplify_eq|].
    repeat split; done.
  - exists (set_meshes (alter (placed box) (nextRef s)) (created part s)),
           (nextRef s), (placed box (proxyMesh part)).
    split; [by apply updateColliderBox_new|].
    split; [by apply wf_alter_mesh, wf_created|]. simpl.
    split; [by rewrite lookup_insert_eq|].
    split; [by rewrite lookup_alter_eq, lookup_insert_eq|].
    split; [done|]. split; [done|].
    split.
    { intros k r' Hk. rewrite lookup_insert_ne; [done|]. congruence. }
    split.
    { intros r' Hne _. rewrite lookup_alter_ne by done. by rewrite lookup_insert_ne. }
    split; [by intros r0 m0 ?|].
    split; [intros n Hn; apply elem_of_app; by left|].
    repeat split; try done. lia.
Qed.

Lemma extends_refl s : extends s s.
Proof. by repeat split. Qed.

Lemma extends_trans s1 s2 s3 : extends s1 s2 → extends s2 s3 → extends s1 s3.
Proof.
  intros (A1 & A2 & A3 & A4 & A5 & A6 & A7 & A8 & A9 & A10 & A11 & A12)
         (B1 & B2 & B3 & B4 & B5 & B6 & B7 & B8 & B9 & B10 & B11 & B12).
  split; [auto|]. split; [auto|]. split; [lia|].
  repeat (split; [congruence|]).
  intros b Hb. rewrite B12 by by rewrite A4. by apply A12.
Qed.

Lemma updateColliderBox_extends part box s :
  wf s → part ∉ objectPrototypeKeys →
  ∃ s' r m,
    updateColliderBox part box s = (Normal tt, s') ∧ wf s' ∧ extends s s' ∧
    colliderBoxes s' !! part = Some r ∧ meshes s' !! r = Some m ∧
    position m = proxyPosition box ∧ scale m = proxyScale box ∧
    (∀ r', r' ≠ r → r' < nextRef s → meshes s' !! r' = meshes s !! r') ∧
    (∀ r0 m0, colliderBoxes s !! part = Some r0 → meshes s !! r0 = Some m0 →
       geometry m = geometry m0 ∧ materialColor m = materialColor m0).
Proof.
  intros Hwf Hkey.
  destruct (updateColliderBox_spec part box s Hwf Hkey)
    as (s' & r & m & Heq & Hwf' & Hr & Hm & Hpos & Hscale & Hstable & Hother
        & Hsame & Hch & ? & ? & ? & ? & ? & ? & ? & ? & ?).
  exists s', r, m. split; [done|]. split; [done|].
  split; [|by repeat (split; [done|])].
  repeat (split; [done|]).
  intros b Hb. apply Hother.
  - intros Hmesh. destruct (wf_proxy s' Hwf' part r Hr) as (_ & _ & _ & Hnot & _).
    apply Hnot. rewrite <- Hmesh. apply list_elem_of_fmap_2. congruence.
  - by apply (wf_ball s Hwf b).
Qed.

Lemma updateColliderBoxes_cons part box es s :
  updateColliderBoxes ((part, box) :: es) s =
  match updateColliderBox part box s with
  | (Normal _, s') => updateColliderBoxes es s'
  | (Abrupt, s') => (Abrupt, s')
  end.
Proof. reflexivity. Qed.

(** A call whose keys are none of the inherited ones completes normally; a
    proxy whose part the call does not mention is left alone. *)
Lemma updateColliderBoxes_ok es s :
  wf s → Forall (fun k => k ∉ objectPrototypeKeys) es.*1 →
  ∃ s', updateColliderBoxes es s = (Normal tt, s') ∧ wf s' ∧ extends s s' ∧
    ∀ part r, part ∉ es.*1 → colliderBoxes s !! part = Some r →
      meshes s' !! r = meshes s !! r.
Proof.
  revert s. induction es as [|[k b] es IH]; intros s Hwf Hkeys.
  - exists s. split; [done|]. split; [done|]. split; [apply extends_refl|done].
  - rewrite fmap_cons in Hkeys. apply Forall_cons in Hkeys as [Hk Hkeys].
    destruct (updateColliderBox_extends k b s Hwf Hk)
      as (s1 & rk & mk & Heq & Hwf1 & Hext1 & Hrk & _ & _ & _ & Hother & _).
    destruct (IH s1 Hwf1 Hkeys) as (s' & Heq' & Hwf' & Hext' & Hleft).
    exists s'. rewrite updateColliderBoxes_cons, Heq.
    split; [done|]. split; [done|]. split; [by eapply extends_trans|].
    intros part r Hpart Hr. rewrite fmap_cons in Hpart.
    apply not_elem_of_cons in Hpart as [Hne Hpart].
    assert (colliderBoxes s1 !! part = Some r) as Hr1 by by apply Hext1.
    rewrite (Hleft part r Hpart Hr1). apply Hother.
    + intros ->. apply Hne. by eapply (wf_proxy_inj s1).
    + by apply (wf_proxy s Hwf part r).
Qed.

(** The proxy of a part the call mentions once carries the transform of
    that part's box when the call returns. *)
Lemma updateColliderBoxes_places es s part box :
  wf s → Forall (fun k => k ∉ objectPrototypeKeys) es.*1 → NoDup es.*1 →
  (part, box) ∈ es →
  ∃ s' r m, updateColliderBoxes es s = (Normal tt, s') ∧ wf s' ∧ extends s s' ∧
    colliderBoxes s' !! part = Some r ∧ meshes s' !! r = Some m ∧
    position m = proxyPosition box ∧ scale m = proxyScale box ∧
    (∀ r0 m0, colliderBoxes s !! part = Some r0 → meshes s !! r0 = Some m0 →
       geometry m = geometry m0 ∧ materialColor m = materialColor m0).
Proof.
  revert s. induction es as [|[k b] es IH]; intros s Hwf Hkeys Hnd Hin.
  - by apply elem_of_nil in Hin.
  - rewrite fmap_cons in Hkeys, Hnd. apply Forall_cons in Hkeys as [Hk Hkeys].
    apply NoDup_cons in Hnd as [Hfresh Hnd]. simpl in Hk, Hfresh.
    destruct (updateColliderBox_extends k b s Hwf Hk)
      as (s1 & rk & mk & Heq & Hwf1 & Hext1 & Hrk & Hmk & Hpos & Hscale & Hother & Hsame).
    rewrite updateColliderBoxes_cons, Heq.
    apply elem_of_cons in Hin as [[= -> ->]|Hin].
    + destruct (updateColliderBoxes_ok es s1 Hwf1 Hkeys)
        as (s' & Heq' & Hwf' & Hext' & Hleft).
      exists s', rk, mk. split; [done|]. split; [done|].
      split; [by eapply extends_trans|].
      split; [by apply Hext'|]. split; [by rewrite (Hleft k rk)|].
      done.
    + assert (part ≠ k) as Hne.
      { intros ->. apply Hfresh. by apply (list_elem_of_fmap_2 fst _ (k, box)). }
      destruct (IH s1 Hwf1 Hkeys Hnd Hin)
        as (s' & r & m & Heq' & Hwf' & Hext' & Hr & Hm & Hpos' & Hscale' & Hsame').
      exists s', r, m. split; [done|]. split; [done|].
      split; [by eapply extends_trans|].
      split; [done|]. split; [done|]. split; [done|]. split; [done|].
      intros r0 m0 Hr0 Hm0. apply (Hsame' r0 m0); [by apply Hext1|].
      rewrite Hother; [done| |by apply (wf_proxy s Hwf part r0)].
      intros ->. apply Hne. eapply (wf_proxy_inj s1 Hwf1); [|exact Hrk].
      by apply Hext1.
Qed.

Lemma occurrences_none n c : n ∉ c → occurrences n c = 0.
Proof.
  unfold occurrences. induction c as [|m c IH]; intros Hn; [done|].
  apply not_elem_of_cons in Hn as [Hne Hn].
  rewrite filter_cons. rewrite decide_False by done. by apply IH.
Qed.

Lemma occurrences_once n c : NoDup c → n ∈ c → occurrences n c = 1.
Proof.
  induction 1 as [|m c Hm Hc IH]; intros Hn.
  - by apply elem_of_nil in Hn.
  - unfold occurrences in *. rewrite filter_cons.
    destruct (decide (m = n)) as [->|Hne].
    + simpl. f_equal. by apply occurrences_none.
    + apply elem_of_cons in Hn as [->|Hn]; [done|]. by apply IH.
Qed.

(** * The pose front end and the event loop *)

Lemma entries_keys (b : BodyBoundingBoxes) :
  (entries b).*1 = ["head"; "leftHand"; "rightHand"; "leftLeg"; "rightLeg"; "torso"].
Proof. reflexivity. Qed.

Lemma entries_keys_own (b : BodyBoundingBoxes) :
  Forall (fun k => k ∉ objectPrototypeKeys) (entries b).*1.
Proof. rewrite entries_keys. apply (bool_decide_unpack _). by vm_compute. Qed.

Lemma entries_keys_NoDup (b : BodyBoundingBoxes) : NoDup (entries b).*1.
Proof. rewrite entries_keys. apply (bool_decide_unpack _). by vm_compute. Qed.

Lemma rendered_balls `{Physics} s : balls (rendered s) = balls s.
Proof. reflexivity. Qed.

(** Everything but a spawn tick leaves the projectiles alone. *)
(** After [render] every live ball's mesh shows where its body is. *)
Lemma rendered_in_sync `{Physics} s : wf s → in_sync (rendered s).
Proof.
  intros Hwf ball Hball. change (ball ∈ balls s) in Hball.
  destruct (wf_ball s Hwf ball Hball) as (_ & _ & [m Hm] & [body Hbody]).
  exists (synced (integrate (bodies s) body) m), (integrate (bodies s) body).
  simpl. rewrite lookup_fmap, Hbody. split; [|done].
  apply readback_lookup; try done; [apply Hwf|].
  by rewrite lookup_fmap, Hbody.
Qed.

Lemma rendered_quiet `{Physics} s t : wf t → quiet s t → quiet s (rendered t).
Proof.
  intros Hwf (_ & Hb & Hh & _). split; [by apply wf_rendered|].
  split; [done|]. split; [done|]. intros _. by apply rendered_in_sync.
Qed.

Lemma rearm_quiet s t : quiet s t → quiet s (exec rearm t).
Proof. intros (Hwf & Hb & Hh & Hs). split; [by apply wf_rearm|done]. Qed.

Lemma cancel_quiet id s t : quiet s t → quiet s (exec (cancelAnimationFrame id) t).
Proof. intros (Hwf & Hb & Hh & Hs). split; [by apply wf_cancel|done]. Qed.

Lemma quiet_refl s : wf s → quiet s s.
Proof. by repeat (split; [done|]). Qed.

Lemma quiet_trans s t u : quiet s t → quiet t u → quiet s u.
Proof.
  intros (? & ? & ? & ?) (? & ? & ? & ?).
  split; [done|]. split; [congruence|]. split; [congruence|auto].
Qed.

Lemma drawResults_quiet `{Physics} lm s : wf s → quiet s (exec (drawResults lm) s).
Proof.
  intros Hwf. unfold exec, drawResults.
  destruct lm as [[|pose rest]|]; [by apply quiet_refl| |by apply quiet_refl].
  destruct pose as [|l pose]; [by apply quiet_refl|].
  cbv [mbind M_bind lift].
  destruct (drawSkeleton (l :: pose)); [|by apply quiet_refl].
  destruct (calculateBodyBoundingBoxes (Some ((l :: pose) :: rest))) as [[b|]|];
    [| |by apply quiet_refl].
  - destruct (updateColliderBoxes_ok (entries b) s Hwf (entries_keys_own b))
      as (s1 & -> & Hwf1 & Hext & _).
    destruct Hext as (_ & _ & _ & Hballs & Hbodies & _ & _ & _ & _ & _ & Hhandle & Hmeshes).
    rewrite render_eq by by apply wf_alive.
    apply rendered_quiet; [done|]. split; [done|]. split; [done|]. split; [done|].
    intros Hsync ball Hball. rewrite Hballs in Hball.
    destruct (Hsync ball Hball) as (m & body & Hm & Hbody & Hpos & Hrot).
    exists m, body. by rewrite Hmeshes, Hbodies.
  - cbv [mret M_ret]. rewrite render_eq by by apply wf_alive.
    by apply rendered_quiet, quiet_refl.
Qed.

Lemma detectPose_quiet `{Physics} v s : wf s → quiet s (exec (detectPose v) s).
Proof.
  intros Hwf. pose proof (quiet_refl s Hwf) as Hs. unfold exec, detectPose.
  destruct (negb (detectorLoaded v) || bool_decide (videoWidth v = 0)).
  { by apply rearm_quiet. }
  destruct (paused v || ended v).
  { by apply (cancel_quiet (animationId s)). }
  destruct (bool_decide (videoWidth v = 0) || bool_decide (videoHeight v = 0)).
  { by apply rearm_quiet. }
  cbv [try_catch mbind M_bind lift].
  destruct (detectForVideo v) as [lm|]; [|by apply (cancel_quiet (animationId s))].
  destruct lm as [[|pose rest]|]; [by apply rearm_quiet| |by apply rearm_quiet].
  destruct (calculateBodyBoundingBoxes (Some (pose :: rest))) as [bodyBoxes|];
    [|by apply (cancel_quiet (animationId s))].
  pose proof (drawResults_quiet (Some (pose :: rest)) s Hwf) as Hq.
  unfold exec in Hq.
  destruct (drawResults (Some (pose :: rest)) s) as [[[]|] s1]; simpl in Hq |- *.
  - by apply rearm_quiet.
  - by apply (cancel_quiet (animationId s1)).
Qed.

Lemma runRequest_quiet `{Physics} v h s : wf s → quiet s (runRequest v h s).
Proof.
  intros Hwf. unfold runRequest.
  destruct (findRequest h (frameRequests s)) as [cb|]; [|by apply quiet_refl].
  set (t := set_frameRequests _ s).
  assert (quiet s t) as Ht.
  { split; [by apply wf_filter_requests|]. by repeat (split; [done|]). }
  destruct cb; simpl.
  - eapply quiet_trans; [exact Ht|]. apply detectPose_quiet, Ht.
  - unfold exec. rewrite render_eq by (apply wf_alive, Ht).
    apply rendered_quiet; [apply Ht|done].
Qed.

Lemma displayFrame_quiet `{Physics} v s : wf s → quiet s (displayFrame v s).
Proof.
  unfold displayFrame. generalize ((frameRequests s).*1). intros hs Hwf.
  assert (∀ t, quiet s t → quiet s (foldl (fun s h => runRequest v h s) t hs)) as Hloop.
  { induction hs as [|h hs IH]; intros t Ht; [done|].
    simpl. apply IH. eapply quiet_trans; [exact Ht|].
    apply runRequest_quiet, Ht. }
  by apply Hloop, quiet_refl.
Qed.

Lemma stopClick_quiet s : wf s → quiet s (exec stopClick s).
Proof.
  intros Hwf. unfold exec, stopClick. cbv [mbind M_bind gets].
  destruct (animationId s) as [[|id]|]; [by apply quiet_refl| |by apply quiet_refl].
  by apply (cancel_quiet (Some (S id))), quiet_refl.
Qed.

Lemma step_quiet `{Physics} s ev : wf s → ev ≠ SpawnTick → quiet s (step s ev).
Proof.
  intros Hwf Hev. destruct ev; simpl; [done| | |].
  - by apply detectPose_quiet.
  - by apply displayFrame_quiet.
  - by apply stopClick_quiet.
Qed.

Lemma wf_step `{Physics} s ev : wf s → wf (step s ev).
Proof.
  intros Hwf. destruct ev as [| v | v |] eqn:E.
  - by apply wf_spawnBall.
  - by apply (step_quiet s (StartTimeout v)).
  - by apply (step_quiet s (AnimationFrame v)).
  - by apply (step_quiet s StopClick).
Qed.

Lemma run_snoc `{Physics} s evs ev : run s (evs ++ [ev]) = step (run s evs) ev.
Proof. unfold run. by rewrite foldl_snoc. Qed.

Lemma run_cons `{Physics} s evs ev : run s (ev :: evs) = run (step s ev) evs.
Proof. reflexivity. Qed.

Lemma wf_run_from `{Physics} s evs : wf s → wf (run s evs).
Proof.
  revert s. induction evs as [|ev evs IH]; intros s Hwf; [done|].
  rewrite run_cons. by apply IH, wf_step.
Qed.

(** Every state the page can reach is well-formed. *)
Lemma wf_run `{Physics} evs : wf (run newSoccerScene evs).
Proof. apply wf_run_from, wf_newSoccerScene. Qed.

Lemma in_sync_step `{Physics} s ev : wf s → in_sync s → in_sync (step s ev).
Proof.
  intros Hwf Hsync. destruct ev as [| v | v |] eqn:E.
  - by apply in_sync_spawnBall.
  - by apply (step_quiet s (StartTimeout v)).
  - by apply (step_quiet s (AnimationFrame v)).
  - by apply (step_quiet s StopClick).
Qed.

(** In every state the page can reach each live ball's mesh shows where its
    body is. *)
Lemma in_sync_run `{Physics} evs : in_sync (run newSoccerScene evs).
Proof.
  assert (∀ s, wf s → in_sync s → in_sync (run s evs)) as Hfrom.
  { induction evs as [|ev evs IH]; intros s Hwf Hsync; [done|].
    rewrite run_cons. apply IH; [by apply wf_step|by apply in_sync_step]. }
  apply Hfrom; [apply wf_newSoccerScene|]. by intros b ?%elem_of_nil.
Qed.

(** So the filter callback, which reads the mesh, judges the body. *)
Lemma far_away s b : in_sync s → b ∈ balls s → far (meshes s) b = away s b.
Proof.
  intros Hsync Hb. destruct (Hsync b Hb) as (m & body & Hm & Hbody & Hpos & _).
  unfold far, away. rewrite Hbody, (lookup_total_correct _ _ _ Hm). by rewrite Hpos.
Qed.

(** * The population cap *)

Lemma most_recent_short {A} k (l : list A) : length l ≤ k → most_recent k l = l.
Proof.
  intros Hle. unfold most_recent. replace (length l - k) with 0 by lia. apply drop_0.
Qed.

Lemma most_recent_length {A} k (l : list A) :
  length (most_recent k l) = Nat.min k (length l).
Proof. unfold most_recent. rewrite length_drop. lia. Qed.

Lemma most_recent_app {A} k (l r : list A) :
  most_recent k (most_recent k l ++ r) = most_recent k (l ++ r).
Proof.
  destruct (decide (length l ≤ k)) as [Hle|Hgt].
  - by rewrite (most_recent_short k l).
  - assert (∃ l1 l2, l = l1 ++ l2 ∧ length l2 = k) as (l1 & l2 & -> & Hk).
    { exists (take (length l - k) l), (drop (length l - k) l).
      rewrite take_drop, length_drop. split; [done|lia]. }
    unfold most_recent. rewrite !length_app.
    replace (length l1 + length l2 - k) with (length l1 + 0) by lia.
    rewrite !drop_app_add, !drop_0.
    replace (length l2 + length r - k) with (length r) by lia.
    replace (length l1 + length l2 + length r - k) with (length l1 + length r) by lia.
    by rewrite <- app_assoc, drop_app_add.
Qed.

Lemma capped_most_recent bs : capped bs = most_recent maxBalls bs.
Proof. reflexivity. Qed.

Lemma spawnPoint_near : distanceExceeds spawnPoint removalDistance = false.
Proof. by vm_compute. Qed.

(** [cleanupBalls] reads the store of meshes and does not write it. *)
Lemma meshes_spawnBall s : meshes (exec spawnBall s) = meshes (pushed s).
Proof. unfold exec. rewrite spawnBall_eq, cleanupBalls_eq. reflexivity. Qed.

Lemma nextHandle_spawnBall s : nextHandle (exec spawnBall s) = S (nextHandle s).
Proof. unfold exec. rewrite spawnBall_eq, cleanupBalls_eq. reflexivity. Qed.

(** One spawn tick: the new ball joins the live ones, the far ones are
    removed, and then the oldest of what is left go until the cap holds. *)
Lemma balls_spawnBall s :
  balls (exec spawnBall s) =
  most_recent maxBalls
    (filter (fun b => far (meshes (exec spawnBall s)) b = false)
            (balls s ++ [newBall s])).
Proof.
  rewrite meshes_spawnBall. unfold exec. rewrite spawnBall_eq, cleanupBalls_eq.
  reflexivity.
Qed.

Lemma far_pushed s b :
  wf s → b ∈ balls s → far (meshes (pushed s)) b = far (meshes s) b.
Proof.
  intros Hwf Hb. unfold far. simpl.
  rewrite lookup_total_insert_ne; [done|].
  apply (wf_ball s Hwf) in Hb. lia.
Qed.

Lemma far_newBall s : far (meshes (pushed s)) (newBall s) = false.
Proof.
  unfold far. simpl. rewrite lookup_total_insert_eq. apply spawnPoint_near.
Qed.

Lemma filter_all {A} (P : A → Prop) `{∀ x, Decision (P x)} (l : list A) :
  Forall P l → filter P l = l.
Proof.
  induction 1 as [|x l Hx Hl IH]; [done|].
  rewrite filter_cons, decide_True by done. by rewrite IH.
Qed.

(** When no live ball is far, a spawn tick keeps the most recent
    [maxBalls] of the live balls and the new one. *)
Lemma balls_spawnBall_calm s :
  wf s → forallb (fun b => negb (far (meshes s) b)) (balls s) = true →
  balls (exec spawnBall s) = most_recent maxBalls (balls s ++ [newBall s]).
Proof.
  intros Hwf Hcalm. rewrite balls_spawnBall, meshes_spawnBall. f_equal.
  apply filter_all, Forall_app. split.
  - apply Forall_forall. intros b Hb. rewrite far_pushed by done.
    apply Is_true_true, forallb_True in Hcalm.
    eapply Forall_forall in Hcalm; [|exact Hb]. simpl in Hcalm.
    by destruct (far (meshes s) b).
  - constructor; [apply far_newBall|constructor].
Qed.

Lemma spawn_or_not (ev : Event) : ev = SpawnTick ∨ ev ≠ SpawnTick.
Proof. destruct ev; auto. Qed.

Lemma step_spawn `{Physics} s : step s SpawnTick = exec spawnBall s.
Proof. reflexivity. Qed.

Lemma spawned_tick `{Physics} s evs :
  spawned s (SpawnTick :: evs) = newBall s :: spawned (exec spawnBall s) evs.
Proof. reflexivity. Qed.

Lemma spawned_other `{Physics} s ev evs :
  ev ≠ SpawnTick → spawned s (ev :: evs) = spawned (step s ev) evs.
Proof. by destruct ev. Qed.

Lemma calm_tick `{Physics} s evs :
  calm s (SpawnTick :: evs) =
  forallb (fun b => negb (far (meshes s) b)) (balls s) && calm (exec spawnBall s) evs.
Proof. reflexivity. Qed.

Lemma calm_other `{Physics} s ev evs :
  ev ≠ SpawnTick → calm s (ev :: evs) = calm (step s ev) evs.
Proof. by destruct ev. Qed.

Lemma ticks_other ev evs : ev ≠ SpawnTick → ticks (ev :: evs) = ticks evs.
Proof. by destruct ev. Qed.

Lemma length_spawned `{Physics} s evs : length (spawned s evs) = ticks evs.
Proof.
  revert s. induction evs as [|ev evs IH]; intros s; [done|].
  destruct (spawn_or_not ev) as [->|Hev].
  - rewrite spawned_tick. simpl. by rewrite IH.
  - by rewrite spawned_other, ticks_other, IH.
Qed.

Lemma balls_run `{Physics} s evs :
  wf s → length (balls s) ≤ maxBalls → calm s evs = true →
  balls (run s evs) = most_recent maxBalls (balls s ++ spawned s evs).
Proof.
  revert s. induction evs as [|ev evs IH]; intros s Hwf Hlen Hcalm.
  - simpl. rewrite app_nil_r. by rewrite most_recent_short.
  - rewrite run_cons. pose proof (wf_step s ev Hwf) as Hwf'.
    destruct (spawn_or_not ev) as [->|Hev].
    + rewrite calm_tick in Hcalm. apply andb_true_iff in Hcalm as [Hnow Hlater].
      rewrite step_spawn in *. rewrite spawned_tick.
      pose proof (balls_spawnBall_calm s Hwf Hnow) as Hb.
      rewrite IH; [|done| |done].
      * rewrite Hb, most_recent_app. by rewrite <- app_assoc.
      * rewrite Hb, most_recent_length. lia.
    + rewrite calm_other in Hcalm by done. rewrite spawned_other by done.
      destruct (step_quiet s ev Hwf Hev) as (_ & Hb & _).
      rewrite IH; [|done|by rewrite Hb|done].
      by rewrite Hb.
Qed.

(** The handles of the spawned balls count up from [nextHandle]. *)
Lemma spawned_handles `{Physics} s evs :
  wf s → rigidBody <$> spawned s evs = seq (nextHandle s) (ticks evs).
Proof.
  revert s. induction evs as [|ev evs IH]; intros s Hwf; [done|].
  pose proof (wf_step s ev Hwf) as Hwf'.
  destruct (spawn_or_not ev) as [->|Hev].
  - rewrite step_spawn in Hwf'. rewrite spawned_tick, fmap_cons, IH by done.
    by rewrite nextHandle_spawnBall.
  - destruct (step_quiet s ev Hwf Hev) as (_ & _ & Hh & _).
    by rewrite spawned_other, ticks_other, IH, Hh.
Qed.

(** ** The claims about the projectile life cycle *)

(** C1, as amended.  In a run from the fresh page with more spawn ticks than
    the cap, in which no spawn tick finds a live ball beyond the removal
    distance, exactly [maxBalls] balls are live at the end, and they are the
    [maxBalls] most recently spawned ones, oldest first (the spawned balls
    are pairwise distinct).  At every spawn tick of any run the cap is
    enforced on what the distance filter left, by dropping the oldest. *)
Theorem projectile_cap `{Physics} (evs : list Event) :
  maxBalls < ticks evs → calm newSoccerScene evs = true →
  length (balls (run newSoccerScene evs)) = maxBalls ∧
  balls (run newSoccerScene evs) =
    most_recent maxBalls (spawned newSoccerScene evs) ∧
  NoDup (spawned newSoccerScene evs) ∧
  ∀ pre, let s := run newSoccerScene pre in
    balls (step s SpawnTick) =
    most_recent maxBalls
      (filter (fun b => far (meshes (step s SpawnTick)) b = false)
              (balls s ++ [newBall s])).
Proof.
  intros Hticks Hcalm.
  pose proof (balls_run newSoccerScene evs wf_newSoccerScene) as Hrun.
  simpl in Hrun. specialize (Hrun ltac:(lia) Hcalm).
  split; [|split; [done|split]].
  - rewrite Hrun, most_recent_length, length_spawned. lia.
  - apply (NoDup_fmap_1 rigidBody).
    rewrite spawned_handles by apply wf_newSoccerScene. apply NoDup_seq.
  - intros pre s. rewrite step_spawn. apply balls_spawnBall.
Qed.

(** C1 as stated fails: after 11 calm spawn ticks the 10 live balls are not
    the 11 - 10 = 1 most recently spawned. *)
Lemma projectile_cap_counterexample :
  let evs := replicate 11 SpawnTick in
  maxBalls < ticks evs ∧
  calm (H := ballistic) newSoccerScene evs = true ∧
  length (balls (run (H := ballistic) newSoccerScene evs)) = maxBalls ∧
  balls (run (H := ballistic) newSoccerScene evs) ≠
    most_recent (ticks evs - maxBalls) (spawned (H := ballistic) newSoccerScene evs).
Proof.
  split; [unfold maxBalls; simpl; lia|]. split; [by vm_compute|].
  split; [by vm_compute|]. vm_compute. discriminate.
Qed.

(** * Frames without a detection *)


Lemma filter_requests_head h cb (q : list (nat * Callback)) :
  NoDup ((h, cb) :: q).*1 → filter (fun p => p.1 ≠ h) ((h, cb) :: q) = q.
Proof.
  rewrite fmap_cons. intros [Hh Hq]%NoDup_cons. rewrite filter_cons. simpl.
  rewrite decide_False by (intros Hne; by apply Hne).
  apply filter_all, Forall_forall. intros p Hp Heq. apply Hh.
  rewrite <- Heq. apply (list_elem_of_fmap_2 fst q p Hp).
Qed.

Lemma findRequest_head h cb q : findRequest h ((h, cb) :: q) = Some cb.
Proof. simpl. by rewrite decide_True. Qed.

Lemma renders_cons h cb q :
  renders ((h, cb) :: q) = (match cb with CbRender => 1 | CbDetectPose => 0 end) + renders q.
Proof. unfold renders. rewrite filter_cons. by destruct cb. Qed.





(** * Frames with a detection *)

(** A call of [detectPose] that finds somebody updates the proxies, calls
    [render] and re-arms itself. *)
Lemma detectPose_busy `{Physics} v t :
  one_detection v → wf t →
  ∃ t1, wf t1 ∧ extends t t1 ∧ detectPose v t = rearm (rendered t1).
Proof.
  intros (Hload & Hw & Hh & Hp & He & pose & rest & Hdet & Hlen) Hwf.
  destruct (mapper_total pose rest Hlen) as (boxes & Hboxes).
  destruct (updateColliderBoxes_ok (entries boxes) t Hwf (entries_keys_own boxes))
    as (t1 & Hupd & Hwf1 & Hext & _).
  exists t1. split; [done|]. split; [done|].
  unfold detectPose. rewrite Hload, Hp, He.
  rewrite !bool_decide_eq_false_2 by done. simpl.
  cbv [try_catch mbind M_bind lift]. rewrite Hdet, Hboxes.
  unfold drawResults. destruct pose as [|l pose]; [simpl in Hlen; lia|].
  cbv [mbind M_bind lift]. rewrite (drawSkeleton_total _ Hlen), Hboxes, Hupd.
  rewrite render_eq by by apply wf_alive.
  by rewrite rearm_eq.
Qed.

Lemma detects_cons h cb q :
  detects ((h, cb) :: q) = (match cb with CbRender => 0 | CbDetectPose => 1 end) + detects q.
Proof. unfold detects. rewrite filter_cons. by destruct cb. Qed.

Lemma renders_app q1 q2 : renders (q1 ++ q2) = renders q1 + renders q2.
Proof. unfold renders. by rewrite filter_app, length_app. Qed.

Lemma detects_app q1 q2 : detects (q1 ++ q2) = detects q1 + detects q2.
Proof. unfold detects. by rewrite filter_app, length_app. Qed.

(** One pending callback of a frame with a detection: whichever it is, it
    steps the world once and draws once; [render] re-arms itself, and
    [detectPose] leaves a new [render] callback besides its own. *)
Lemma busy_request `{Physics} v h cb q t :
  one_detection v → wf t → frameRequests t = (h, cb) :: q →
  wf (runRequest v h t) ∧
  steps (runRequest v h t) = S (steps t) ∧
  drawn (runRequest v h t) = S (drawn t) ∧
  ∃ new, frameRequests (runRequest v h t) = q ++ new ∧
         renders new = 1 ∧ detects new = detects [(h, cb)].
Proof.
  intros Hone Hwf Hq.
  split; [by apply runRequest_quiet|].
  pose proof (wf_requests_nodup t Hwf) as Hnd. rewrite Hq in Hnd.
  unfold runRequest. rewrite Hq, findRequest_head.
  set (t0 := set_frameRequests _ t).
  assert (frameRequests t0 = q) as Hq0.
  { unfold t0. simpl. rewrite Hq. by apply filter_requests_head. }
  assert (wf t0) as Hwf0 by by apply wf_filter_requests.
  assert (steps t0 = steps t) as Hs0 by done.
  assert (drawn t0 = drawn t) as Hd0 by done.
  clearbody t0.
  destruct cb; simpl runCallback; unfold exec.
  - destruct (detectPose_busy v t0 Hone Hwf0) as (t1 & Hwf1 & Hext & ->).
    destruct Hext as (_ & _ & _ & _ & _ & Hs & Hd & Hq1 & Hn & _).
    rewrite rearm_eq. simpl. rewrite Hs, Hd, Hq1, Hs0, Hd0, Hq0.
    split; [done|]. split; [done|].
    exists [(nextRequest t1, CbRender); (S (nextRequest t1), CbDetectPose)].
    by rewrite <- app_assoc.
  - rewrite render_eq by by apply wf_alive. simpl. rewrite Hs0, Hd0, Hq0.
    split; [done|]. split; [done|]. by exists [(nextRequest t0, CbRender)].
Qed.

Lemma busy_loop `{Physics} v rest :
  one_detection v → ∀ added t, wf t → frameRequests t = rest ++ added →
  let t' := foldl (fun s h => runRequest v h s) t rest.*1 in
  steps t' = steps t + length rest ∧ drawn t' = drawn t + length rest ∧
  renders (frameRequests t') = renders added + length rest ∧
  detects (frameRequests t') = detects added + detects rest.
Proof.
  intros Hone. induction rest as [|[h cb] rest IH]; intros added t Hwf Hq.
  - simpl in *. rewrite Hq. change (detects []) with 0.
    by rewrite !Nat.add_0_r.
  - rewrite fmap_cons. simpl foldl.
    destruct (busy_request v h cb (rest ++ added) t Hone Hwf Hq)
      as (Hwf1 & Hs1 & Hd1 & new & Hq1 & Hr1 & Hdt1).
    rewrite <- app_assoc in Hq1.
    destruct (IH _ _ Hwf1 Hq1) as (Hs & Hd & Hr & Hdt).
    rewrite renders_app in Hr. rewrite detects_app in Hdt.
    rewrite (detects_cons h cb rest). rewrite (detects_cons h cb []) in Hdt1.
    change (detects []) with 0 in Hdt1. simpl length. cbv zeta in *.
    destruct cb; lia.
Qed.

(** In any state the page can reach, a display frame in which the detector
    finds somebody steps the world and draws the scene once for every
    callback that was pending, [render] or [detectPose] alike, and leaves one
    more [render] callback pending for every [detectPose] callback it ran. *)
Lemma detection_frame `{Physics} (evs : list Event) (v : Perception) :
  one_detection v →
  let s := run newSoccerScene evs in
  let s' := step s (AnimationFrame v) in
  steps s' = steps s + length (frameRequests s) ∧
  drawn s' = drawn s + length (frameRequests s) ∧
  renders (frameRequests s') = renders (frameRequests s) + detects (frameRequests s) ∧
  detects (frameRequests s') = detects (frameRequests s).
Proof.
  intros Hone s s'.
  destruct (busy_loop v (frameRequests s) Hone [] s (wf_run evs))
    as (Hs & Hd & Hr & Hdt); [by rewrite app_nil_r|].
  unfold s', step, displayFrame. change (renders []) with 0 in Hr.
  change (detects []) with 0 in Hdt.
  assert (length (frameRequests s) = renders (frameRequests s) + detects (frameRequests s))
    as Hlen.
  { generalize (frameRequests s). intros q. induction q as [|[h cb] q IHq]; [done|].
    rewrite renders_cons, detects_cons. simpl length. destruct cb; lia. }
  lia.
Qed.

(** * The claims about the collider proxies *)

(** C9.  In any state the page can reach, a call of [updateColliderBoxes]
    whose keys are distinct and none of them inherited from
    [Object.prototype] returns normally, and the proxy of each part of the
    input then sits at (centerX * 3, centerY * 3, 0) with scale
    (width * 3, height * 3, 0.2), for the midpoint and the extents of that
    part's box. *)
Theorem proxy_placement `{Physics} (evs : list Event)
    (bodyBoxes : list (string * BoundingBox)) (part : string) (box : BoundingBox) :
  Forall (fun k => k ∉ objectPrototypeKeys) bodyBoxes.*1 → NoDup bodyBoxes.*1 →
  (part, box) ∈ bodyBoxes →
  ∃ s' r m,
    updateColliderBoxes bodyBoxes (run newSoccerScene evs) = (Normal tt, s') ∧
    colliderBoxes s' !! part = Some r ∧ meshes s' !! r = Some m ∧
    position m =
      Vector3.mk
        (num_mul (num_div (num_add (maxX box) (minX box)) (lit 2 1)) (lit 3 1))
        (num_mul (num_div (num_add (maxY box) (minY box)) (lit 2 1)) (lit 3 1))
        (lit 0 1) ∧
    scale m =
      Vector3.mk
        (num_mul (num_sub (maxX box) (minX box)) (lit 3 1))
        (num_mul (num_sub (maxY box) (minY box)) (lit 3 1))
        (lit 2 10).
Proof.
  intros Hkeys Hnd Hin.
  destruct (updateColliderBoxes_places bodyBoxes (run newSoccerScene evs) part box
              (wf_run evs) Hkeys Hnd Hin)
    as (s' & r & m & Heq & _ & _ & Hr & Hm & Hpos & Hscale & _).
  by exists s', r, m.
Qed.

(** C5.  Two consecutive calls of [updateColliderBoxes] that both carry a
    box for [part] (keys distinct and not inherited): the second call finds
    the proxy the first one left under the same reference, the mesh behind
    it keeps its geometry and material, it occurs once among the children
    of the scene after each call, and its position and scale are those of
    the second call's box. *)
Theorem proxy_identity `{Physics} (evs : list Event)
    (frame1 frame2 : list (string * BoundingBox)) (part : string)
    (box1 box2 : BoundingBox) :
  Forall (fun k => k ∉ objectPrototypeKeys) frame1.*1 → NoDup frame1.*1 →
  Forall (fun k => k ∉ objectPrototypeKeys) frame2.*1 → NoDup frame2.*1 →
  (part, box1) ∈ frame1 → (part, box2) ∈ frame2 →
  ∃ s1 s2 r m1 m2,
    updateColliderBoxes frame1 (run newSoccerScene evs) = (Normal tt, s1) ∧
    updateColliderBoxes frame2 s1 = (Normal tt, s2) ∧
    colliderBoxes s1 !! part = Some r ∧ colliderBoxes s2 !! part = Some r ∧
    meshes s1 !! r = Some m1 ∧ meshes s2 !! r = Some m2 ∧
    geometry m2 = geometry m1 ∧ materialColor m2 = materialColor m1 ∧
    occurrences (MeshNode r) (children s1) = 1 ∧
    occurrences (MeshNode r) (children s2) = 1 ∧
    position m2 = proxyPosition box2 ∧ scale m2 = proxyScale box2.
Proof.
  intros Hk1 Hn1 Hk2 Hn2 Hin1 Hin2.
  destruct (updateColliderBoxes_places frame1 (run newSoccerScene evs) part box1
              (wf_run evs) Hk1 Hn1 Hin1)
    as (s1 & r & m1 & Heq1 & Hwf1 & _ & Hr1 & Hm1 & _).
  destruct (updateColliderBoxes_places frame2 s1 part box2 Hwf1 Hk2 Hn2 Hin2)
    as (s2 & r' & m2 & Heq2 & Hwf2 & Hext & Hr2 & Hm2 & Hpos & Hscale & Hsame).
  assert (r' = r) as ->.
  { destruct Hext as (Hstable & _). apply Hstable in Hr1. congruence. }
  destruct (Hsame r m1 Hr1 Hm1) as [Hg Hc].
  exists s1, s2, r, m1, m2. repeat (split; [done|]).
  split; [|split; [|done]].
  - apply occurrences_once; [apply Hwf1|]. by apply (wf_proxy s1 Hwf1 part r).
  - apply occurrences_once; [apply Hwf2|]. by apply (wf_proxy s2 Hwf2 part r).
Qed.

(** * The render frame *)

(** One call of [render] on a reachable page returns normally, steps the
    world once, draws once, and leaves in each live ball's mesh the position
    and rotation of its body after that step; what is written later into a
    mesh does not reach the bodies. *)
Lemma render_steps_once_and_copies `{Physics} (evs : list Event) :
  let s := run newSoccerScene evs in
  ∃ s', render s = (Normal tt, s') ∧ steps s' = S (steps s) ∧ drawn s' = S (drawn s) ∧
    (∀ ball, ball ∈ balls s' →
       ∃ body m, bodies s' !! rigidBody ball = Some body ∧
                 meshes s' !! mesh ball = Some m ∧
                 position m = translation body ∧ quaternion m = rotation body) ∧
    ∀ r f, bodies (exec (updateMesh r f) s') = bodies s'.
Proof.
  intros s. pose proof (wf_run evs) as Hwf. fold s in Hwf.
  exists (rendered s). split; [by apply render_eq, wf_alive|].
  split; [done|]. split; [done|]. split; [|done].
  intros ball Hball. change (ball ∈ balls s) in Hball.
  destruct (wf_ball s Hwf ball Hball) as (_ & _ & [m Hm] & [body Hbody]).
  exists (integrate (bodies s) body), (synced (integrate (bodies s) body) m).
  simpl. rewrite lookup_fmap, Hbody. split; [done|]. split; [|done].
  apply readback_lookup; try done; [apply Hwf|].
  by rewrite lookup_fmap, Hbody.
Qed.

(** C3 at its failing input.  [drawResults] calls [render] at every frame
    with a detection, and each such call also requests the next frame for
    itself: from the second frame with a detection on, a display frame runs
    [render] more than once.  Here the first call of [detectPose] steps the
    world once and the display frame after it steps it twice. *)
Theorem second_frame_steps_twice `{Physics} :
  let v := seeing (Some [centred]) in
  let s1 := step newSoccerScene (StartTimeout v) in
  let s2 := step s1 (AnimationFrame v) in
  frameRequests s1 = [(1, CbRender); (2, CbDetectPose)] ∧
  steps s1 = 1 ∧ steps s2 = steps s1 + 2 ∧ drawn s2 = drawn s1 + 2 ∧
  frameRequests s2 = [(3, CbRender); (4, CbRender); (5, CbDetectPose)].
Proof. by vm_compute. Qed.

(** * The boxes of the mapper *)

(** Arithmetic on canonical rationals, by way of the rationals. *)
Lemma Qc_add_Q (a b : Qc) : (this (a + b)%Qc == this a + this b)%Q.
Proof. apply Qred_correct. Qed.
Lemma Qc_mul_Q (a b : Qc) : (this (a * b)%Qc == this a * this b)%Q.
Proof. apply Qred_correct. Qed.
Lemma Qc_opp_Q (a : Qc) : (this (- a)%Qc == - this a)%Q.
Proof. apply Qred_correct. Qed.
Lemma Qc_sub_Q (a b : Qc) : (this (a - b)%Qc == this a - this b)%Q.
Proof. unfold Qcminus. rewrite Qc_add_Q, Qc_opp_Q. reflexivity. Qed.
Lemma Qc_lit_Q (q : Q) : (this (Q2Qc q) == q)%Q.
Proof. apply Qred_correct. Qed.
Lemma Qc_inv_Q (a : Qc) : (this (/ a)%Qc == / this a)%Q.
Proof. apply Qred_correct. Qed.
Lemma Qc_div_Q (a b : Qc) : (this (a / b)%Qc == this a / this b)%Q.
Proof. unfold Qcdiv. rewrite Qc_mul_Q, Qc_inv_Q. reflexivity. Qed.

Ltac qc_arith :=
  unfold Qcle, Qclt in *;
  repeat (rewrite ?Qc_add_Q, ?Qc_mul_Q, ?Qc_opp_Q, ?Qc_sub_Q, ?Qc_div_Q, ?Qc_lit_Q in * );
  nra.


Lemma is_least_fin (qs : list Qc) m :
  is_least m (Fin <$> qs) → ∃ a, m = Fin a ∧ a ∈ qs ∧ ∀ v, v ∈ qs → (a <= v)%Qc.
Proof.
  intros [Hin Hle]. apply list_elem_of_fmap in Hin as (a & -> & Ha).
  exists a. split; [done|]. split; [done|]. intros v Hv.
  apply Qc_ltb_ge. apply (Hle (Fin v)). by apply list_elem_of_fmap_2.
Qed.

Lemma is_greatest_fin (qs : list Qc) m :
  is_greatest m (Fin <$> qs) → ∃ a, m = Fin a ∧ a ∈ qs ∧ ∀ v, v ∈ qs → (v <= a)%Qc.
Proof.
  intros [Hin Hle]. apply list_elem_of_fmap in Hin as (a & -> & Ha).
  exists a. split; [done|]. split; [done|]. intros v Hv.
  apply Qc_ltb_ge. apply (Hle (Fin v)). by apply list_elem_of_fmap_2.
Qed.

Lemma padded_edges (m M v : Qc) :
  (m <= v)%Qc → (v <= M)%Qc →
  (m - (M - m) * Q2Qc (5 # 100) <= v)%Qc ∧ (v <= M + (M - m) * Q2Qc (5 # 100))%Qc ∧
  (m - (M - m) * Q2Qc (5 # 100) <= M + (M - m) * Q2Qc (5 # 100))%Qc.
Proof. intros H1 H2. repeat split; qc_arith. Qed.

Lemma box_of_group_encloses b points :
  box_of_group b points → (∀ l, Some l ∈ points → finite_landmark l) →
  encloses b points.
Proof.
  intros (ls & x0 & x1 & y0 & y1 & -> & Hx0 & Hx1 & Hy0 & Hy1 & HminX & HmaxX & HminY & HmaxY) Hfin.
  assert (Forall finite_landmark ls) as Hls.
  { apply Forall_forall. intros l Hl. apply Hfin. by apply list_elem_of_fmap_2. }
  destruct (converted_xs_fin ls Hls) as [qx Hqx].
  destruct (converted_ys_fin ls Hls) as [qy Hqy].
  rewrite Hqx in Hx0, Hx1. rewrite Hqy in Hy0, Hy1.
  apply is_least_fin in Hx0 as (mx & -> & Hmx & Hmx').
  apply is_greatest_fin in Hx1 as (Mx & -> & HMx & HMx').
  apply is_least_fin in Hy0 as (my & -> & Hmy & Hmy').
  apply is_greatest_fin in Hy1 as (My & -> & HMy & HMy').
  unfold encloses. rewrite HminX, HmaxX, HminY, HmaxY.
  split; [apply (padded_edges mx Mx mx); [apply Qcle_refl|by apply HMx']|].
  split; [apply (padded_edges my My my); [apply Qcle_refl|by apply HMy']|].
  intros l Hl. apply list_elem_of_fmap in Hl as (l' & [= <-] & Hl).
  assert (ndcX (Landmark.x l) ∈ Fin <$> qx) as Hvx.
  { rewrite <- Hqx. unfold converted_xs.
    by apply (list_elem_of_fmap_2 (fun l => ndcX (Landmark.x l))). }
  assert (ndcY (Landmark.y l) ∈ Fin <$> qy) as Hvy.
  { rewrite <- Hqy. unfold converted_ys.
    by apply (list_elem_of_fmap_2 (fun l => ndcY (Landmark.y l))). }
  apply list_elem_of_fmap in Hvx as (vx & -> & Hvx).
  apply list_elem_of_fmap in Hvy as (vy & -> & Hvy).
  destruct (padded_edges mx Mx vx (Hmx' _ Hvx) (HMx' _ Hvx)) as (? & ? & _).
  destruct (padded_edges my My vy (Hmy' _ Hvy) (HMy' _ Hvy)) as (? & ? & _).
  done.
Qed.

Lemma picked_in_pose (pose : Pose) (idxs : list nat) l :
  Some l ∈ (fun i => pose !! i) <$> idxs → l ∈ pose.
Proof.
  intros H. apply list_elem_of_fmap in H as (i & Hi & _).
  symmetry in Hi. by apply list_elem_of_lookup_2 in Hi.
Qed.

Lemma head_in_pose (pose : Pose) l : Some l ∈ head_points pose → l ∈ pose.
Proof.
  unfold head_points. intros H. apply list_elem_of_fmap in H as (l' & [= <-] & H).
  eapply elem_of_sublist; [exact H|apply sublist_take].
Qed.

(** X1. Each of the six boxes the mapper returns for a first pose of at
    least 33 finite landmarks is not inverted, and every landmark of its
    group, converted to device coordinates, lies within its edges. *)
Theorem boxes_enclose_their_landmarks (pose : Pose) (rest : list Pose) :
  33 ≤ length pose → Forall finite_landmark pose →
  ∃ boxes, calculateBodyBoundingBoxes (Some (pose :: rest)) = Normal (Some boxes) ∧
    encloses (head boxes) (head_points pose) ∧
    encloses (leftHand boxes) (leftHand_points pose) ∧
    encloses (rightHand boxes) (rightHand_points pose) ∧
    encloses (leftLeg boxes) (leftLeg_points pose) ∧
    encloses (rightLeg boxes) (rightLeg_points pose) ∧
    encloses (torso boxes) (torso_points pose).
Proof.
  intros Hlen Hfin.
  destruct (mapper_boxes pose rest Hlen Hfin) as (boxes & Heq & H1 & H2 & H3 & H4 & H5 & H6).
  pose proof (proj1 (Forall_forall _ _) Hfin) as Hall.
  exists boxes. split; [exact Heq|].
  split; [apply box_of_group_encloses; [done|]; intros l Hl; apply Hall; by apply head_in_pose|].
  split; [apply box_of_group_encloses; [done|]; intros l Hl; apply Hall;
          by apply (picked_in_pose pose [15; 17; 19; 21])|].
  split; [apply box_of_group_encloses; [done|]; intros l Hl; apply Hall;
          by apply (picked_in_pose pose [16; 18; 20; 22])|].
  split; [apply box_of_group_encloses; [done|]; intros l Hl; apply Hall;
          by apply (picked_in_pose pose [23; 25; 27; 29; 31])|].
  split; [apply box_of_group_encloses; [done|]; intros l Hl; apply Hall;
          by apply (picked_in_pose pose [24; 26; 28; 30; 32])|].
  apply box_of_group_encloses; [done|]; intros l Hl; apply Hall.
  by apply (picked_in_pose pose [11; 12; 23; 24]).
Qed.

Lemma Math_min_nan (xs : list number) : NaN ∈ xs → Math_min xs = NaN.
Proof.
  induction xs as [|x xs IH]; [by intros ?%elem_of_nil|].
  intros [<-|Hin]%elem_of_cons; [done|].
  unfold Math_min in *. cbn [foldr]. rewrite (IH Hin). by destruct x.
Qed.

Lemma Math_max_nan (xs : list number) : NaN ∈ xs → Math_max xs = NaN.
Proof.
  induction xs as [|x xs IH]; [by intros ?%elem_of_nil|].
  intros [<-|Hin]%elem_of_cons; [done|].
  unfold Math_max in *. cbn [foldr]. rewrite (IH Hin). by destruct x.
Qed.

(** X2. [Math.min] and [Math.max] propagate [NaN]: a landmark of the group
    whose [x] is [NaN] makes both x edges of the group's box [NaN], and one
    whose [y] is [NaN] both y edges; the call still returns normally. *)
Theorem nan_landmark_poisons_box (ls : Pose) (c : string) (l : Landmark.t) :
  l ∈ ls →
  ∃ b, createBox (Some <$> ls) c = Normal b ∧
    (Landmark.x l = NaN → minX b = NaN ∧ maxX b = NaN) ∧
    (Landmark.y l = NaN → minY b = NaN ∧ maxY b = NaN).
Proof.
  intros Hl. eexists. split; [apply createBox_defined|].
  cbn [minX maxX minY maxY]. split; intros Hnan.
  - assert (NaN ∈ converted_xs ls) as Hin.
    { unfold converted_xs.
      apply list_elem_of_fmap. exists l. split; [by rewrite Hnan|done]. }
    by rewrite (Math_min_nan _ Hin), (Math_max_nan _ Hin).
  - assert (NaN ∈ converted_ys ls) as Hin.
    { unfold converted_ys.
      apply list_elem_of_fmap. exists l. split; [by rewrite Hnan|done]. }
    by rewrite (Math_min_nan _ Hin), (Math_max_nan _ Hin).
Qed.

Lemma take_ext {A} (n : nat) (l k : list A) :
  (∀ i, i < n → l !! i = k !! i) → take n l = take n k.
Proof.
  intros H. apply list_eq. intros i. rewrite !lookup_take.
  destruct (decide (i < n)); [by apply H|done].
Qed.

(** X3. The mapper reads the first pose only, and of it the landmarks 0 to
    12 and 15 to 32: detection lists whose first poses agree on these give
    the same result, whatever the elbows (13 and 14), the landmarks past 32
    and the further poses are. *)
Theorem mapper_reads_31_landmarks (pose pose' : Pose) (rest rest' : list Pose) :
  (∀ i, i < 33 → i ≠ 13 → i ≠ 14 → pose !! i = pose' !! i) →
  calculateBodyBoundingBoxes (Some (pose :: rest)) =
  calculateBodyBoundingBoxes (Some (pose' :: rest')).
Proof.
  intros H. unfold calculateBodyBoundingBoxes.
  assert (head_points pose = head_points pose') as ->.
  { unfold head_points. f_equal. apply take_ext. intros i Hi. apply H; lia. }
  assert (leftHand_points pose = leftHand_points pose') as ->.
  { unfold leftHand_points. rewrite !H by lia. done. }
  assert (rightHand_points pose = rightHand_points pose') as ->.
  { unfold rightHand_points. rewrite !H by lia. done. }
  assert (leftLeg_points pose = leftLeg_points pose') as ->.
  { unfold leftLeg_points. rewrite !H by lia. done. }
  assert (rightLeg_points pose = rightLeg_points pose') as ->.
  { unfold rightLeg_points. rewrite !H by lia. done. }
  assert (torso_points pose = torso_points pose') as ->.
  { unfold torso_points. rewrite !H by lia. done. }
  done.
Qed.

(** * What the front end does to the page *)

Lemma draws_trans `{Physics} s t u : draws s t → draws t u → draws s u.
Proof.
  induction 1 as [s|part box s t ? ? ? ? IH|part box r s t ? ? ? IH|s t ? ? IH]; intros Hu.
  - done.
  - eapply draws_new; eauto.
  - eapply draws_known; eauto.
  - eapply draws_render; eauto.
Qed.

Lemma parts_own k : k ∈ parts → k ∉ objectPrototypeKeys.
Proof.
  intros Hk. unfold parts in Hk.
  repeat (apply elem_of_cons in Hk as [->|Hk];
          [apply (bool_decide_unpack _); by vm_compute|]).
  by apply elem_of_nil in Hk.
Qed.

Lemma wf_introduced part box s :
  wf s → colliderBoxes s !! part = None → part ∈ parts → wf (introduced part box s).
Proof. intros. apply wf_alter_mesh, wf_created; auto using parts_own. Qed.

Lemma wf_moved r box s : wf s → wf (moved r box s).
Proof. apply wf_alter_mesh. Qed.

Lemma updateColliderBoxes_draws `{Physics} es s :
  wf s → Forall (fun k => k ∈ parts) es.*1 →
  ∃ s', updateColliderBoxes es s = (Normal tt, s') ∧ wf s' ∧ draws s s'.
Proof.
  revert s. induction es as [|[k b] es IH]; intros s Hwf Hkeys.
  - exists s. split; [done|]. split; [done|apply draws_done].
  - rewrite fmap_cons in Hkeys. apply Forall_cons in Hkeys as [Hk Hkeys]. simpl in Hk.
    rewrite updateColliderBoxes_cons.
    destruct (colliderBoxes s !! k) as [r|] eqn:Hr.
    + rewrite (updateColliderBox_known k b r s Hr).
      destruct (IH (moved r b s)) as (s' & Heq & Hwf' & Hd); [by apply wf_moved|done|].
      exists s'. split; [done|]. split; [done|]. by eapply draws_known.
    + rewrite (updateColliderBox_new k b s Hr (parts_own k Hk)).
      destruct (IH (introduced k b s)) as (s' & Heq & Hwf' & Hd);
        [by apply wf_introduced|done|].
      exists s'. split; [done|]. split; [done|]. by eapply draws_new.
Qed.

Lemma entries_parts (b : BodyBoundingBoxes) : Forall (fun k => k ∈ parts) (entries b).*1.
Proof. rewrite entries_keys. apply (bool_decide_unpack _). by vm_compute. Qed.

Lemma wf_draws `{Physics} s t : draws s t → wf s → wf t.
Proof.
  induction 1 as [s|part box s t ? ? ? ? IH|part box r s t ? ? ? IH|s t ? ? IH]; intros Hwf.
  - done.
  - by apply IH, wf_introduced.
  - by apply IH, wf_moved.
  - by apply IH, wf_rendered.
Qed.

Lemma drawResults_draws `{Physics} lm s :
  wf s → ∃ c t, drawResults lm s = (c, t) ∧ draws s t.
Proof.
  intros Hwf. unfold drawResults.
  destruct lm as [[|pose rest]|];
    [eexists _, _; split; [done|apply draws_done]|
    |eexists _, _; split; [done|apply draws_done]].
  destruct pose as [|l pose]; [eexists _, _; split; [done|apply draws_done]|].
  cbv [mbind M_bind lift].
  destruct (drawSkeleton (l :: pose)); [|eexists _, _; split; [done|apply draws_done]].
  destruct (calculateBodyBoundingBoxes (Some ((l :: pose) :: rest))) as [[b|]|];
    [| |eexists _, _; split; [done|apply draws_done]].
  - destruct (updateColliderBoxes_draws (entries b) s Hwf (entries_parts b))
      as (s1 & -> & Hwf1 & Hd).
    rewrite render_eq by by apply wf_alive.
    eexists _, _. split; [done|]. eapply draws_trans; [exact Hd|].
    apply draws_render; [done|apply draws_done].
  - cbv [mret M_ret]. rewrite render_eq by by apply wf_alive.
    eexists _, _. split; [done|]. apply draws_render; [done|apply draws_done].
Qed.

Lemma detectPose_shape `{Physics} v s :
  wf s →
  ∃ t, draws s t ∧
    (exec (detectPose v) s = exec rearm t ∨
     exec (detectPose v) s = exec (cancelAnimationFrame (animationId t)) t).
Proof.
  intros Hwf. unfold exec at 1 3, detectPose.
  destruct (negb (detectorLoaded v) || bool_decide (videoWidth v = 0)).
  { exists s. split; [apply draws_done|by left]. }
  destruct (paused v || ended v).
  { exists s. split; [apply draws_done|by right]. }
  destruct (bool_decide (videoWidth v = 0) || bool_decide (videoHeight v = 0)).
  { exists s. split; [apply draws_done|by left]. }
  cbv [try_catch mbind M_bind lift].
  destruct (detectForVideo v) as [lm|];
    [|exists s; split; [apply draws_done|by right]].
  destruct lm as [[|pose rest]|];
    [exists s; split; [apply draws_done|by left]|
    |exists s; split; [apply draws_done|by left]].
  destruct (calculateBodyBoundingBoxes (Some (pose :: rest))) as [bodyBoxes|];
    [|exists s; split; [apply draws_done|by right]].
  destruct (drawResults_draws (Some (pose :: rest)) s Hwf) as (c & t & -> & Hd).
  exists t. split; [done|]. destruct c as [[]|]; [by left|by right].
Qed.

(** * What every reachable page satisfies *)

Lemma tidy_newSoccerScene : tidy newSoccerScene.
Proof.
  constructor; try done.
  - intros h. simpl. rewrite lookup_empty.
    split; [by intros []|by intros ?%elem_of_nil].
  - intros n. change (children newSoccerScene) with (Fixture <$> fixtures). split.
    + intros (name & -> & Hn)%list_elem_of_fmap. left. by exists name.
    + intros [(name & Hn & ->)|[(b & Hb & _)|(k & r & Hk & _)]].
      * by apply (list_elem_of_fmap_2 Fixture).
      * by apply elem_of_nil in Hb.
      * simpl in Hk. by rewrite lookup_empty in Hk.
  - by intros b ?%elem_of_nil.
  - simpl. lia.
Qed.

Lemma readback_keeps bs live ms r m :
  ms !! r = Some m →
  ∃ m', readback bs live ms !! r = Some m' ∧ geometry m' = geometry m ∧
        materialColor m' = materialColor m ∧ scale m' = scale m.
Proof.
  revert ms m. induction live as [|b live IH]; intros ms m Hm; [by exists m|].
  unfold readback in *. cbn [foldl].
  destruct (decide (mesh b = r)) as [<-|Hne].
  - destruct (IH (alter (sync_of bs b) (mesh b) ms) (sync_of bs b m))
      as (m' & Hm' & Hg & Hc & Hs); [by rewrite lookup_alter_eq, Hm|].
    exists m'. split; [done|]. unfold sync_of in *.
    destruct (bs !! rigidBody b); simpl in *; by rewrite Hg, Hc, Hs.
  - apply IH. by rewrite lookup_alter_ne.
Qed.

Lemma tidy_filter_requests (P : nat * Callback → Prop) `{∀ p, Decision (P p)} s :
  tidy s → tidy (set_frameRequests (filter P) s).
Proof.
  intros []. constructor; simpl; try done.
  intros id Hid. destruct (tidy_animationId0 id Hid) as (H1 & H2 & H3).
  split; [done|]. split; [done|]. intros cb [_ Hin]%list_elem_of_filter. by apply H3.
Qed.

Lemma tidy_rendered `{Physics} s : wf s → tidy s → tidy (rendered s).
Proof.
  intros Hwf []. constructor; simpl; try done.
  - intros h. rewrite lookup_fmap, fmap_is_Some. apply tidy_world0.
  - by rewrite tidy_frames0.
  - intros k r Hk. destruct (tidy_proxy0 k r Hk) as (m & Hm & ?).
    exists m. split; [|done]. rewrite readback_lookup_other; [done|].
    by apply (wf_proxy s Hwf k r).
  - intros b Hb. destruct (tidy_ball0 b Hb) as (m & Hm & Hg & Hc & Hs).
    destruct (readback_keeps (integrate (bodies s) <$> bodies s) (balls s) _ _ _ Hm)
      as (m' & Hm' & Hg' & Hc' & Hs').
    exists m'. split; [done|]. by rewrite Hg', Hc', Hs'.
  - intros id Hid. destruct (tidy_animationId0 id Hid) as (H1 & H2 & H3).
    split; [done|]. split; [lia|].
    intros cb [Hin|Hin%list_elem_of_singleton]%elem_of_app.
    + by apply H3.
    + injection Hin as -> _. lia.
  - lia.
Qed.

Lemma tidy_rearm s : wf s → tidy s → tidy (exec rearm s).
Proof.
  intros Hwf []. unfold exec. rewrite rearm_eq. constructor; simpl; try done.
  - intros id [= <-]. split; [done|]. split; [lia|].
    intros cb [Hin|Hin%list_elem_of_singleton]%elem_of_app.
    + assert (nextRequest s < nextRequest s); [|lia].
      apply (wf_requests_bound s Hwf). by apply (list_elem_of_fmap_2 fst _ (_, cb)).
    + by injection Hin as ->.
  - lia.
Qed.

Lemma tidy_cancel id s : tidy s → tidy (exec (cancelAnimationFrame id) s).
Proof. apply tidy_filter_requests. Qed.

Lemma tidy_moved part r box s :
  wf s → colliderBoxes s !! part = Some r → tidy s → tidy (moved r box s).
Proof.
  intros Hwf Hpart []. constructor; simpl; try done.
  - intros k r' Hk. destruct (tidy_proxy0 k r' Hk) as (m & Hm & Hg & Hc & Hp & Hs).
    destruct (decide (r' = r)) as [->|Hne].
    + exists (placed box m). by rewrite lookup_alter_eq, Hm.
    + exists m. by rewrite lookup_alter_ne.
  - intros b Hb. destruct (tidy_ball0 b Hb) as (m & Hm & Hg & Hc & Hs).
    exists m. split; [|done]. rewrite lookup_alter_ne; [done|].
    intros Heq. destruct (wf_proxy s Hwf part r Hpart) as (_ & _ & _ & Hnot & _).
    apply Hnot. rewrite Heq. by apply list_elem_of_fmap_2.
Qed.

Lemma tidy_introduced part box s :
  wf s → colliderBoxes s !! part = None → part ∈ parts → tidy s →
  tidy (introduced part box s).
Proof.
  intros Hwf Hnone Hpart []. constructor; simpl; try done.
  - intros n. rewrite elem_of_app, tidy_scene0, list_elem_of_singleton. split.
    + intros [[?|[?|(k & r & Hk & ->)]]| ->]; [by left|by right; left| |].
      * right; right. exists k, r. split; [|done].
        rewrite lookup_insert_ne; [done|congruence].
      * right; right. exists part, (nextRef s). by rewrite lookup_insert_eq.
    + intros [?|[?|(k & r & Hk & ->)]]; [by left; left|by left; right; left|].
      destruct (decide (part = k)) as [<-|Hne].
      * rewrite lookup_insert_eq in Hk. injection Hk as <-. by right.
      * rewrite lookup_insert_ne in Hk by done. left; right; right. by exists k, r.
  - intros k r Hk. destruct (decide (part = k)) as [<-|Hne]; [done|].
    rewrite lookup_insert_ne in Hk by done. by eapply tidy_parts0.
  - intros k r Hk. destruct (decide (part = k)) as [<-|Hne].
    + rewrite lookup_insert_eq in Hk. injection Hk as <-.
      exists (placed box (proxyMesh part)).
      by rewrite lookup_alter_eq, lookup_insert_eq.
    + rewrite lookup_insert_ne in Hk by done.
      destruct (tidy_proxy0 k r Hk) as (m & Hm & ?). exists m. split; [|done].
      assert (r < nextRef s) by by apply (wf_proxy s Hwf k r).
      rewrite lookup_alter_ne, lookup_insert_ne by lia. done.
  - intros b Hb. destruct (tidy_ball0 b Hb) as (m & Hm & ?). exists m. split; [|done].
    assert (mesh b < nextRef s) by by apply (wf_ball s Hwf b).
    rewrite lookup_alter_ne, lookup_insert_ne by lia. done.
Qed.

Lemma tidy_draws `{Physics} s t : draws s t → tidy s → tidy t.
Proof.
  induction 1 as [s|part box s t ? ? ? ? IH|part box r s t ? ? ? IH|s t ? ? IH]; intros Ht.
  - done.
  - by apply IH, tidy_introduced.
  - by apply IH, (tidy_moved part).
  - by apply IH, tidy_rendered.
Qed.

Lemma remove_first_gone n l : NoDup l → n ∉ remove_first n l.
Proof.
  induction 1 as [|m l Hm Hl IH]; simpl; [by intros ?%elem_of_nil|].
  destruct (decide (m = n)) as [->|Hne]; [done|].
  intros [->|Hin]%elem_of_cons; [done|]. by apply IH.
Qed.

Lemma children_disposeAll_gone s dead b :
  NoDup (children s) → b ∈ dead → MeshNode (mesh b) ∉ children (disposeAll dead s).
Proof.
  simpl. generalize (children s). induction dead as [|d dead IH]; intros c Hc Hb.
  - by apply elem_of_nil in Hb.
  - simpl. apply elem_of_cons in Hb as [->|Hb].
    + intros Hin.
      assert (MeshNode (mesh d) ∈ remove_first (MeshNode (mesh d)) c) as Hin'.
      { clear IH. revert Hin. generalize (remove_first (MeshNode (mesh d)) c).
        induction dead as [|d' dead IH']; intros c'; [done|].
        simpl. intros Hin. by apply (remove_first_subset (MeshNode (mesh d'))), IH'. }
      by apply (remove_first_gone (MeshNode (mesh d)) c Hc).
    + apply IH; [by apply remove_first_NoDup|done].
Qed.

Lemma bodies_disposeAll_gone s dead b :
  b ∈ dead → bodies (disposeAll dead s) !! rigidBody b = None.
Proof.
  simpl. generalize (bodies s). induction dead as [|d dead IH]; intros m Hb.
  - by apply elem_of_nil in Hb.
  - simpl. apply elem_of_cons in Hb as [->|Hb]; [|by apply IH].
    clear IH. assert (delete (rigidBody d) m !! rigidBody d = None) as Hgone
      by apply lookup_delete_eq.
    revert Hgone. generalize (delete (rigidBody d) m).
    induction dead as [|d' dead IH']; intros m' Hm'; [done|].
    simpl. apply IH'.
    destruct (decide (rigidBody d' = rigidBody d)) as [->|Hne].
    + apply lookup_delete_eq.
    + by rewrite lookup_delete_ne.
Qed.

Lemma tidy_disposeAll s survivors removed :
  wf s → tidy s → survivors `sublist_of` balls s →
  (∀ b, b ∈ removed → b ∈ balls s) →
  (∀ b, b ∈ removed → b ∉ survivors) →
  (∀ b, b ∈ balls s → b ∈ survivors ∨ b ∈ removed) →
  tidy (set_balls (fun _ => survivors) (disposeAll removed s)).
Proof.
  intros Hwf Ht Hsub Hin Hout Hcover.
  assert (∀ b, b ∈ survivors → b ∈ balls s) as Hsurv.
  { intros b Hb. by eapply elem_of_sublist. }
  destruct Ht. constructor; simpl; try done.
  - intros h. change (is_Some (bodies (disposeAll removed s) !! h) ↔
                      h ∈ rigidBody <$> survivors). split.
    + intros Hh.
      assert (∀ b, b ∈ removed → h ≠ rigidBody b) as Hne.
      { intros b Hb ->. rewrite (bodies_disposeAll_gone s removed b Hb) in Hh.
        by destruct Hh. }
      rewrite bodies_disposeAll_other in Hh by done.
      apply tidy_world0 in Hh as (b & -> & Hb)%list_elem_of_fmap.
      destruct (Hcover b Hb) as [?|Hr]; [by apply list_elem_of_fmap_2|].
      by destruct (Hne b Hr).
    + intros (b & -> & Hb)%list_elem_of_fmap.
      rewrite bodies_disposeAll_other.
      * apply tidy_world0. by apply list_elem_of_fmap_2, Hsurv.
      * intros d Hd Heq. apply (Hout d Hd).
        rewrite <- (NoDup_fmap_eq rigidBody (balls s) b d); auto. apply Hwf.
  - intros n. change (n ∈ children (disposeAll removed s) ↔
      (∃ name, name ∈ fixtures ∧ n = Fixture name) ∨
      (∃ b, b ∈ survivors ∧ n = MeshNode (mesh b)) ∨
      (∃ k r, colliderBoxes s !! k = Some r ∧ n = MeshNode r)). split.
    + intros Hn. pose proof (children_disposeAll_subset s removed n Hn) as Hn'.
      apply tidy_scene0 in Hn' as [?|[(b & Hb & ->)|?]]; [by left| |by right; right].
      destruct (Hcover b Hb) as [?|Hr]; [right; left; by exists b|].
      destruct (children_disposeAll_gone s removed b (wf_children_nodup s Hwf) Hr Hn).
    + intros Hn. apply children_disposeAll_other.
      * apply tidy_scene0. destruct Hn as [?|[(b & Hb & ->)|?]];
          [by left| |by right; right]. right; left. exists b. split; [by apply Hsurv|done].
      * intros d Hd ->. destruct Hn as [(name & _ & [=])|[(b & Hb & [= Heq])|(k & r & Hk & [= <-])]].
        -- apply (Hout d Hd).
           rewrite (NoDup_fmap_eq mesh (balls s) d b); auto. apply Hwf.
        -- destruct (wf_proxy s Hwf k _ Hk) as (_ & _ & _ & Hnot & _).
           apply Hnot. by apply list_elem_of_fmap_2, Hin.
  - intros b Hb. by apply tidy_ball0, Hsurv.
Qed.

Lemma cleanup_cover s :
  let kept := filter (fun b => far (meshes s) b = false) (balls s) in
  let dead := filter (fun b => far (meshes s) b = true) (balls s) in
  let removed := dead ++ take (length kept - maxBalls) kept in
  ∀ b, b ∈ balls s → b ∈ capped kept ∨ b ∈ removed.
Proof.
  intros kept dead removed b Hb. unfold removed, capped.
  destruct (far (meshes s) b) eqn:Hfar.
  - right. apply elem_of_app. left. by apply list_elem_of_filter.
  - assert (b ∈ kept) as Hk by by apply list_elem_of_filter.
    rewrite <- (take_drop (length kept - maxBalls) kept) in Hk.
    apply elem_of_app in Hk as [Hk|Hk]; [right; apply elem_of_app; by right|by left].
Qed.

Lemma tidy_cleanupBalls s : wf s → tidy s → tidy (exec cleanupBalls s).
Proof.
  intros Hwf Ht. unfold exec. rewrite cleanupBalls_eq. simpl.
  destruct (cleanup_partition s Hwf) as (H1 & H2 & H3).
  apply (tidy_disposeAll s); try done. apply cleanup_cover.
Qed.

Lemma tidy_pushed s : wf s → tidy s → tidy (pushed s).
Proof.
  intros Hwf []. constructor; simpl; try done.
  - intros h. rewrite fmap_app, elem_of_app. simpl. rewrite list_elem_of_singleton.
    rewrite <- tidy_world0. destruct (decide (nextHandle s = h)) as [->|Hne].
    + rewrite lookup_insert_eq. split; [by right|by eexists].
    + rewrite lookup_insert_ne by done. split; [by left|]. by intros [?|?].
  - intros n. rewrite elem_of_app, tidy_scene0, list_elem_of_singleton. split.
    + intros [[?|[(b & Hb & ->)|?]]| ->]; [by left| |by right; right|].
      * right; left. exists b. split; [|done]. apply elem_of_app. by left.
      * right; left. exists (newBall s). split; [|done].
        apply elem_of_app. right. apply list_elem_of_here.
    + intros [?|[(b & [Hb|Hb%list_elem_of_singleton]%elem_of_app & ->)|?]];
        [by left; left| | |by left; right; right].
      * left; right; left. by exists b.
      * subst b. by right.
  - intros k r Hk. destruct (tidy_proxy0 k r Hk) as (m & Hm & ?). exists m. split; [|done].
    assert (r < nextRef s) by by apply (wf_proxy s Hwf k r).
    rewrite lookup_insert_ne by lia. done.
  - intros b [Hb|Hb%list_elem_of_singleton]%elem_of_app.
    + destruct (tidy_ball0 b Hb) as (m & Hm & ?). exists m. split; [|done].
      assert (mesh b < nextRef s) by by apply (wf_ball s Hwf b).
      rewrite lookup_insert_ne by lia. done.
    + subst b. exists ballMesh. by rewrite lookup_insert_eq.
Qed.

Lemma tidy_spawnBall s : wf s → tidy s → tidy (exec spawnBall s).
Proof.
  intros Hwf Ht. unfold exec. rewrite spawnBall_eq.
  by apply tidy_cleanupBalls; [apply wf_pushed|apply tidy_pushed].
Qed.

Lemma tidy_detectPose `{Physics} v s : wf s → tidy s → tidy (exec (detectPose v) s).
Proof.
  intros Hwf Ht. destruct (detectPose_shape v s Hwf) as (t & Hd & [-> | ->]).
  - apply tidy_rearm; [by apply (wf_draws s)|by apply (tidy_draws s)].
  - by apply tidy_cancel, (tidy_draws s).
Qed.

Lemma tidy_runRequest `{Physics} v h s : wf s → tidy s → tidy (runRequest v h s).
Proof.
  intros Hwf Ht. unfold runRequest.
  destruct (findRequest h (frameRequests s)) as [cb|]; [|done].
  set (t := set_frameRequests _ s).
  assert (wf t) as Hwft by by apply wf_filter_requests.
  assert (tidy t) as Htt by by apply tidy_filter_requests.
  destruct cb; simpl.
  - by apply tidy_detectPose.
  - unfold exec. rewrite render_eq by by apply wf_alive. by apply tidy_rendered.
Qed.

Lemma wf_runRequest `{Physics} v h s : wf s → wf (runRequest v h s).
Proof. intros Hwf. by apply runRequest_quiet. Qed.

Lemma tidy_displayFrame `{Physics} v s : wf s → tidy s → tidy (displayFrame v s).
Proof.
  unfold displayFrame. generalize ((frameRequests s).*1). intros hs. revert s.
  induction hs as [|h hs IH]; intros s Hwf Ht; [done|].
  simpl. apply IH; [by apply wf_runRequest|by apply tidy_runRequest].
Qed.

Lemma tidy_stopClick s : tidy s → tidy (exec stopClick s).
Proof.
  intros Ht. unfold exec, stopClick. cbv [mbind M_bind gets].
  destruct (animationId s) as [[|id]|]; [done| |done].
  by apply (tidy_cancel (Some (S id))).
Qed.

Lemma tidy_step `{Physics} s ev : wf s → tidy s → tidy (step s ev).
Proof.
  intros Hwf Ht. destruct ev; simpl.
  - by apply tidy_spawnBall.
  - by apply tidy_detectPose.
  - by apply tidy_displayFrame.
  - by apply tidy_stopClick.
Qed.

Lemma tidy_run `{Physics} evs : tidy (run newSoccerScene evs).
Proof.
  assert (∀ s, wf s → tidy s → tidy (run s evs)) as Hfrom.
  { induction evs as [|ev evs IH]; intros s Hwf Ht; [done|].
    rewrite run_cons. apply IH; [by apply wf_step|by apply tidy_step]. }
  apply Hfrom; [apply wf_newSoccerScene|apply tidy_newSoccerScene].
Qed.

Lemma cap_step `{Physics} s ev :
  wf s → length (balls s) ≤ maxBalls → length (balls (step s ev)) ≤ maxBalls.
Proof.
  intros Hwf Hcap. destruct (spawn_or_not ev) as [->|Hev].
  - rewrite step_spawn, balls_spawnBall, most_recent_length. lia.
  - destruct (step_quiet s ev Hwf Hev) as (_ & -> & _). done.
Qed.

Lemma cap_run `{Physics} evs : length (balls (run newSoccerScene evs)) ≤ maxBalls.
Proof.
  assert (∀ s, wf s → length (balls s) ≤ maxBalls →
               length (balls (run s evs)) ≤ maxBalls) as Hfrom.
  { induction evs as [|ev evs IH]; intros s Hwf Hc; [done|].
    rewrite run_cons. apply IH; [by apply wf_step|by apply cap_step]. }
  apply Hfrom; [apply wf_newSoccerScene|]. simpl. unfold maxBalls. lia.
Qed.

Lemma size_keys {A} (m : gmap nat A) (l : list nat) :
  NoDup l → (∀ h, is_Some (m !! h) ↔ h ∈ l) → size m = length l.
Proof.
  intros Hnd Hl. rewrite <- (size_dom (D := gset nat)), <- (size_list_to_set (C := gset nat) l Hnd).
  f_equal. apply set_eq. intros h. by rewrite elem_of_dom, elem_of_list_to_set.
Qed.

Lemma size_parts (m : gmap string nat) :
  (∀ k r, m !! k = Some r → k ∈ parts) → size m ≤ 6.
Proof.
  intros Hm. rewrite <- (size_dom (D := gset string)).
  assert (NoDup parts) as Hnd by (apply (bool_decide_unpack _); by vm_compute).
  change 6 with (length parts). rewrite <- (size_list_to_set (C := gset string) parts Hnd).
  apply subseteq_size. intros k [r Hk]%elem_of_dom.
  apply elem_of_list_to_set. by eapply Hm.
Qed.

(** X6. In every state the page can reach the physics world holds the
    bodies of the live balls and no other body: nothing a cleanup removed is
    left behind, no two live balls share a body, and there are never more
    than [maxBalls] of them. *)
Theorem world_holds_the_live_bodies `{Physics} (evs : list Event) :
  let s := run newSoccerScene evs in
  (∀ h, is_Some (bodies s !! h) ↔ h ∈ rigidBody <$> balls s) ∧
  NoDup (rigidBody <$> balls s) ∧
  size (bodies s) = length (balls s) ∧
  length (balls s) ≤ maxBalls.
Proof.
  intros s. pose proof (wf_run evs) as Hwf. pose proof (tidy_run evs) as Ht.
  split; [apply Ht|]. split; [apply Hwf|]. split; [|apply cap_run].
  rewrite <- (length_fmap rigidBody). apply size_keys; [apply Hwf|apply Ht].
Qed.

Lemma elem_of_proxies s r :
  r ∈ (map_to_list (colliderBoxes s)).*2 ↔ ∃ k, colliderBoxes s !! k = Some r.
Proof.
  rewrite list_elem_of_fmap. split.
  - intros ([k r'] & -> & Hin). exists k. by apply elem_of_map_to_list.
  - intros [k Hk]. exists (k, r). split; [done|]. by apply elem_of_map_to_list.
Qed.

Lemma NoDup_sceneNodes s : wf s → NoDup (sceneNodes s).
Proof.
  intros Hwf. unfold sceneNodes. apply NoDup_app. split; [|split].
  - apply (bool_decide_unpack _). by vm_compute.
  - intros n (name & -> & _)%list_elem_of_fmap
      [(r & [=] & _)%list_elem_of_fmap|(r & [=] & _)%list_elem_of_fmap]%elem_of_app.
  - apply NoDup_app. split; [|split].
    + apply (NoDup_fmap_2 MeshNode), Hwf.
    + intros n (r & -> & Hr)%list_elem_of_fmap (r' & [= <-] & Hr')%list_elem_of_fmap.
      apply elem_of_proxies in Hr' as [k Hk].
      by destruct (wf_proxy s Hwf k r Hk) as (_ & _ & _ & Hnot & _).
    + apply (NoDup_fmap_2 MeshNode). apply NoDup_fmap_2_strong; [|apply NoDup_map_to_list].
      intros [k1 r1] [k2 r2] H1%elem_of_map_to_list H2%elem_of_map_to_list Heq.
      simpl in Heq. subst r2. f_equal. by apply (wf_proxy_inj s Hwf k1 k2 r1).
Qed.

Lemma elem_of_sceneNodes s n :
  n ∈ sceneNodes s ↔
    (∃ name, name ∈ fixtures ∧ n = Fixture name) ∨
    (∃ b, b ∈ balls s ∧ n = MeshNode (mesh b)) ∨
    (∃ k r, colliderBoxes s !! k = Some r ∧ n = MeshNode r).
Proof.
  unfold sceneNodes. rewrite !elem_of_app, !list_elem_of_fmap. split.
  - intros [(name & -> & ?)|[(r & -> & (b & -> & ?)%list_elem_of_fmap)|(r & -> & [k Hk]%elem_of_proxies)]].
    + left. by exists name.
    + right; left. by exists b.
    + right; right. by exists k, r.
  - intros [(name & ? & ->)|[(b & ? & ->)|(k & r & Hk & ->)]].
    + left. by exists name.
    + right; left. exists (mesh b). split; [done|]. by apply list_elem_of_fmap_2.
    + right; right. exists r. split; [done|]. apply elem_of_proxies. by exists k.
Qed.

(** X7. In every state the page can reach the scene has no child twice, and
    its children are the eight fixtures of the constructor, the meshes of
    the live balls and the registered proxies, nothing else: never more than
    24 children. *)
Theorem scene_holds_fixtures_balls_and_proxies `{Physics} (evs : list Event) :
  let s := run newSoccerScene evs in
  NoDup (children s) ∧
  (∀ n, n ∈ children s ↔
     (∃ name, name ∈ fixtures ∧ n = Fixture name) ∨
     (∃ b, b ∈ balls s ∧ n = MeshNode (mesh b)) ∨
     (∃ k r, colliderBoxes s !! k = Some r ∧ n = MeshNode r)) ∧
  length (children s) = length fixtures + length (balls s) + size (colliderBoxes s) ∧
  length (children s) ≤ 24.
Proof.
  intros s. pose proof (wf_run evs) as Hwf. pose proof (tidy_run evs) as Ht.
  fold s in Hwf, Ht.
  assert (length (children s) =
          length fixtures + length (balls s) + size (colliderBoxes s)) as Hlen.
  { rewrite (Permutation_length (l := children s) (l' := sceneNodes s)).
    - unfold sceneNodes. rewrite !length_app, !length_fmap.
      rewrite length_map_to_list. lia.
    - apply NoDup_Permutation; [apply Hwf|by apply NoDup_sceneNodes|].
      intros n. rewrite elem_of_sceneNodes. apply Ht. }
  split; [apply Hwf|]. split; [apply Ht|]. split; [exact Hlen|].
  rewrite Hlen. pose proof (cap_run evs) as Hcap. fold s in Hcap.
  pose proof (size_parts (colliderBoxes s) (tidy_parts s Ht)).
  unfold maxBalls in Hcap. simpl. lia.
Qed.

(** X8. In every state the page can reach the world has been stepped as
    often as the scene has been drawn: [step] and [renderer.render] are only
    ever called together, by [render]. *)
Theorem every_step_is_drawn `{Physics} (evs : list Event) :
  steps (run newSoccerScene evs) = drawn (run newSoccerScene evs).
Proof. apply tidy_run. Qed.

(** X9. In every state the page can reach, a registered proxy belongs to one
    of the six body parts and its mesh is the 1 x 1 x 0.2 box in the
    colour of its part, lying in the plane [z = 0] with depth scale 0.2. *)
Theorem proxies_are_flat_boxes `{Physics} (evs : list Event) (part : string) (r : nat) :
  let s := run newSoccerScene evs in
  colliderBoxes s !! part = Some r →
  part ∈ parts ∧
  ∃ m, meshes s !! r = Some m ∧
    geometry m = BoxGeometry (lit 1 1) (lit 1 1) (lit 2 10) ∧
    materialColor m = colors part ∧
    Vector3.z (position m) = lit 0 1 ∧ Vector3.z (scale m) = lit 2 10.
Proof.
  intros s Hr. pose proof (tidy_run evs) as Ht.
  split; [by apply (tidy_parts _ Ht part r)|by apply (tidy_proxy _ Ht)].
Qed.

(** X10. In every state the page can reach, the mesh of a live ball is the
    red sphere of radius 0.5 at unit scale, and its position and quaternion
    are the translation and rotation of the ball's body. *)
Theorem ball_meshes_show_bodies `{Physics} (evs : list Event) (ball : Ball) :
  let s := run newSoccerScene evs in
  ball ∈ balls s →
  ∃ m body, meshes s !! mesh ball = Some m ∧ bodies s !! rigidBody ball = Some body ∧
    position m = translation body ∧ quaternion m = rotation body ∧
    geometry m = SphereGeometry (lit 5 10) 32 32 ∧
    materialColor m = Some 0xff0000%N ∧
    scale m = Vector3.mk (lit 1 1) (lit 1 1) (lit 1 1).
Proof.
  intros s Hb. subst s.
  destruct (in_sync_run evs ball Hb) as (m & body & Hm & Hbody & Hpos & Hrot).
  destruct (tidy_ball _ (tidy_run evs) ball Hb) as (m' & Hm' & Hg & Hc & Hs).
  rewrite Hm in Hm'. injection Hm' as <-.
  by exists m, body.
Qed.

(** * The pending callbacks *)

Lemma count_filter_le {A} (P Q : A → Prop) `{∀ x, Decision (P x)} `{∀ x, Decision (Q x)}
    (l : list A) :
  length (filter Q (filter P l)) ≤ length (filter Q l).
Proof.
  induction l as [|a l IH]; [done|].
  rewrite (filter_cons P), (filter_cons Q).
  destruct (decide (P a)); [rewrite (filter_cons Q)|];
    destruct (decide (Q a)); simpl; lia.
Qed.

Lemma count_filter_eq {A} (P Q : A → Prop) `{∀ x, Decision (P x)} `{∀ x, Decision (Q x)}
    (l : list A) :
  (∀ x, x ∈ l → Q x → P x) →
  length (filter Q (filter P l)) = length (filter Q l).
Proof.
  induction l as [|a l IH]; intros Hl; [done|].
  assert (length (filter Q (filter P l)) = length (filter Q l)) as IH'.
  { apply IH. intros x Hx. by apply Hl, list_elem_of_further. }
  rewrite (filter_cons P), (filter_cons Q).
  destruct (decide (P a)) as [HP|HP]; [rewrite (filter_cons Q)|];
    destruct (decide (Q a)) as [HQ|HQ]; simpl; try lia.
  destruct HP. by apply Hl; [apply list_elem_of_here|].
Qed.

Lemma grows_refl s : grows s s.
Proof. by repeat split. Qed.

Lemma grows_trans s t u : grows s t → grows t u → grows s u.
Proof. intros (? & ? & ?) (? & ? & ?). split; [lia|]. split; [lia|auto]. Qed.

Lemma grows_rendered `{Physics} s : grows s (rendered s).
Proof.
  split; [simpl; lia|]. split.
  - simpl. rewrite renders_app. lia.
  - intros h Hh. simpl. apply elem_of_app. by left.
Qed.

Lemma draws_grows `{Physics} s t : draws s t → grows s t.
Proof.
  induction 1 as [s|part box s t ? ? ? ? IH|part box r s t ? ? ? IH|s t ? ? IH].
  - apply grows_refl.
  - exact IH.
  - exact IH.
  - eapply grows_trans; [apply grows_rendered|exact IH].
Qed.

Lemma draws_detects `{Physics} s t :
  draws s t →
  animationId t = animationId s ∧
  detects (frameRequests t) = detects (frameRequests s) ∧
  ∀ h, (h, CbDetectPose) ∈ frameRequests t ↔ (h, CbDetectPose) ∈ frameRequests s.
Proof.
  induction 1 as [s|part box s t ? ? ? ? IH|part box r s t ? ? ? IH|s t ? ? IH].
  - done.
  - exact IH.
  - exact IH.
  - destruct IH as (-> & -> & IH). split; [done|]. split.
    + simpl. rewrite detects_app. simpl. unfold detects at 2. simpl. lia.
    + intros h. rewrite IH. simpl. rewrite elem_of_app, list_elem_of_singleton.
      split; [by intros [?|[=]]|by left].
Qed.

Lemma grows_rearm s : grows s (exec rearm s).
Proof.
  unfold exec. rewrite rearm_eq. split; [done|]. split.
  - simpl. rewrite renders_app. lia.
  - intros h Hh. simpl. apply elem_of_app. by left.
Qed.

Lemma kept_by_cancel s h :
  tidy s → (h, CbRender) ∈ frameRequests s → Some h ≠ animationId s.
Proof.
  intros Ht Hh Heq. symmetry in Heq.
  destruct (tidy_animationId s Ht h Heq) as (_ & _ & Hcb).
  by specialize (Hcb CbRender Hh).
Qed.

Lemma grows_cancel s : tidy s → grows s (exec (cancelAnimationFrame (animationId s)) s).
Proof.
  intros Ht. split; [done|]. split.
  - simpl. unfold renders. rewrite count_filter_eq; [done|].
    intros [h cb] Hin Hcb. simpl in *. subst cb. by apply kept_by_cancel.
  - intros h Hh. simpl. apply list_elem_of_filter. split; [|done].
    by apply kept_by_cancel.
Qed.

Lemma grows_detectPose `{Physics} v s :
  wf s → tidy s → grows s (exec (detectPose v) s).
Proof.
  intros Hwf Ht. destruct (detectPose_shape v s Hwf) as (t & Hd & [-> | ->]).
  - eapply grows_trans; [by apply draws_grows|apply grows_rearm].
  - eapply grows_trans; [by apply draws_grows|].
    by apply grows_cancel, (tidy_draws s).
Qed.

Lemma grows_stopClick s : tidy s → grows s (exec stopClick s).
Proof.
  intros Ht. unfold exec, stopClick. cbv [mbind M_bind gets].
  destruct (animationId s) as [[|id]|] eqn:Hid; [apply grows_refl| |apply grows_refl].
  rewrite <- Hid. by apply grows_cancel.
Qed.

Lemma frameRequests_spawnBall s : frameRequests (exec spawnBall s) = frameRequests s.
Proof. unfold exec. by rewrite spawnBall_eq, cleanupBalls_eq. Qed.

Lemma steps_spawnBall s : steps (exec spawnBall s) = steps s.
Proof. unfold exec. by rewrite spawnBall_eq, cleanupBalls_eq. Qed.

Lemma animationId_spawnBall s : animationId (exec spawnBall s) = animationId s.
Proof. unfold exec. by rewrite spawnBall_eq, cleanupBalls_eq. Qed.

Lemma grows_spawnBall s : grows s (exec spawnBall s).
Proof.
  unfold grows. rewrite frameRequests_spawnBall, steps_spawnBall. by repeat split.
Qed.

Lemma findRequest_elem h q cb : findRequest h q = Some cb → (h, cb) ∈ q.
Proof.
  induction q as [|[h' cb'] q IH]; simpl; [done|].
  destruct (decide (h' = h)) as [->|Hne].
  - intros [= ->]. apply list_elem_of_here.
  - intros Hq. by apply list_elem_of_further, IH.
Qed.

Lemma findRequest_unique h q cb : NoDup q.*1 → (h, cb) ∈ q → findRequest h q = Some cb.
Proof.
  induction q as [|[h' cb'] q IH]; [by intros _ ?%elem_of_nil|].
  rewrite fmap_cons. intros [Hh Hq]%NoDup_cons [[= -> ->]|Hin]%elem_of_cons; simpl.
  - by rewrite decide_True.
  - rewrite decide_False; [by apply IH|].
    intros ->. apply Hh. by apply (list_elem_of_fmap_2 fst _ (h, cb)).
Qed.

Lemma pop_count h cb q :
  NoDup q.*1 → findRequest h q = Some cb →
  renders q = renders (filter (fun p => p.1 ≠ h) q) + renders [(h, cb)] ∧
  detects q = detects (filter (fun p => p.1 ≠ h) q) + detects [(h, cb)].
Proof.
  induction q as [|[h' cb'] q IH]; [done|].
  intros Hnd Hfind. simpl in Hfind. destruct (decide (h' = h)) as [->|Hne].
  - injection Hfind as ->. rewrite filter_requests_head by done.
    rewrite !renders_cons, !detects_cons.
    change (renders []) with 0. change (detects []) with 0. destruct cb; lia.
  - rewrite fmap_cons in Hnd. apply NoDup_cons in Hnd as [_ Hnd].
    destruct (IH Hnd Hfind) as [IH1 IH2].
    rewrite filter_cons_True by done.
    rewrite !(renders_cons h' cb'), !(detects_cons h' cb'). lia.
Qed.

Lemma runRequest_advance `{Physics} v h s :
  wf s → tidy s →
  let t := runRequest v h s in
  steps s ≤ steps t ∧
  renders (frameRequests s) ≤ renders (frameRequests t) ∧
  (∀ h', h' ≠ h → (h', CbRender) ∈ frameRequests s → (h', CbRender) ∈ frameRequests t) ∧
  ((h, CbRender) ∈ frameRequests s → steps t = S (steps s)).
Proof.
  intros Hwf Ht. unfold runRequest.
  destruct (findRequest h (frameRequests s)) as [cb|] eqn:Hfind.
  - set (p := set_frameRequests _ s).
    assert (wf p) as Hwfp by by apply wf_filter_requests.
    assert (tidy p) as Htp by by apply tidy_filter_requests.
    destruct (pop_count h cb (frameRequests s) (wf_requests_nodup s Hwf) Hfind)
      as [Hr Hd].
    assert (∀ h', h' ≠ h → (h', CbRender) ∈ frameRequests s →
                  (h', CbRender) ∈ frameRequests p) as Hkeep.
    { intros h' Hne Hin. simpl. by apply list_elem_of_filter. }
    destruct cb; cbn zeta.
    + destruct (grows_detectPose v p Hwfp Htp) as (G1 & G2 & G3).
      change (renders [(h, CbDetectPose)]) with 0 in Hr.
      change (steps p) with (steps s) in G1.
      change (frameRequests p) with (filter (fun p => p.1 ≠ h) (frameRequests s)) in G2.
      split; [done|]. split; [simpl; lia|]. split.
      * intros h' Hne Hin. by apply G3, Hkeep.
      * intros Hin.
        rewrite (findRequest_unique h _ CbRender (wf_requests_nodup s Hwf) Hin) in Hfind.
        done.
    + unfold runCallback, exec. rewrite render_eq by by apply wf_alive.
      destruct (grows_rendered p) as (G1 & G2 & G3).
      change (renders [(h, CbRender)]) with 1 in Hr.
      split; [simpl; lia|]. split.
      * simpl. rewrite renders_app. change (renders [(nextRequest s, CbRender)]) with 1. lia.
      * split; [|done]. intros h' Hne Hin. by apply G3, Hkeep.
  - cbn zeta. split; [done|]. split; [done|]. split; [done|].
    intros Hin.
    rewrite (findRequest_unique h _ CbRender (wf_requests_nodup s Hwf) Hin) in Hfind.
    done.
Qed.

Lemma frame_renders `{Physics} v hs :
  ∀ t, wf t → tidy t →
    renders (frameRequests t) ≤
    renders (frameRequests (foldl (fun s h => runRequest v h s) t hs)).
Proof.
  induction hs as [|h hs IH]; intros t Hwf Ht; [done|].
  simpl. destruct (runRequest_advance v h t Hwf Ht) as (_ & Hr & _).
  etrans; [exact Hr|]. apply IH; [by apply wf_runRequest|by apply tidy_runRequest].
Qed.

Lemma frame_steps `{Physics} v rest :
  NoDup rest.*1 →
  ∀ t, wf t → tidy t →
    (∀ h, (h, CbRender) ∈ rest → (h, CbRender) ∈ frameRequests t) →
    steps t + renders rest ≤ steps (foldl (fun s h => runRequest v h s) t rest.*1).
Proof.
  induction rest as [|[h cb] rest IH]; intros Hnd t Hwf Ht Hin.
  - simpl. unfold renders. simpl. lia.
  - rewrite fmap_cons in Hnd. apply NoDup_cons in Hnd as [Hh Hnd]. simpl in Hh.
    rewrite fmap_cons. cbn [foldl fst].
    destruct (runRequest_advance v h t Hwf Ht) as (Hs & _ & Hkeep & Hrun).
    assert (steps (runRequest v h t) + renders rest ≤
            steps (foldl (fun s h => runRequest v h s) (runRequest v h t) rest.*1)) as IH'.
    { apply IH; [done|by apply wf_runRequest|by apply tidy_runRequest|].
      intros h' Hh'. apply Hkeep.
      - intros ->. apply Hh. by apply (list_elem_of_fmap_2 fst _ (h, CbRender)).
      - by apply Hin, list_elem_of_further. }
    rewrite renders_cons. destruct cb; [lia|].
    rewrite Hrun in IH' by apply Hin, list_elem_of_here. lia.
Qed.

(** X18. No event undoes a step or cancels a pending [render] callback, in
    any state the page can reach; a display frame steps the world at least
    once for every [render] callback pending when it starts; the stop
    handler leaves all of them pending. *)
Theorem render_loops_never_stop `{Physics} (evs : list Event) :
  let s := run newSoccerScene evs in
  (∀ ev, steps s ≤ steps (step s ev) ∧
         renders (frameRequests s) ≤ renders (frameRequests (step s ev))) ∧
  (∀ v, steps s + renders (frameRequests s) ≤ steps (step s (AnimationFrame v))) ∧
  renders (frameRequests (step s StopClick)) = renders (frameRequests s).
Proof.
  intros s. pose proof (wf_run evs) as Hwf. pose proof (tidy_run evs) as Ht.
  fold s in Hwf, Ht.
  assert (∀ v, steps s + renders (frameRequests s) ≤ steps (step s (AnimationFrame v)))
    as Hframe.
  { intros v. simpl. unfold displayFrame.
    apply frame_steps; [apply Hwf|done|done|done]. }
  split; [|split; [exact Hframe|]].
  - intros ev. destruct ev as [|v|v|]; simpl.
    + destruct (grows_spawnBall s) as (? & ? & _). done.
    + destruct (grows_detectPose v s Hwf Ht) as (? & ? & _). done.
    + split; [specialize (Hframe v); simpl in Hframe; lia|].
      unfold displayFrame. by apply frame_renders.
    + destruct (grows_stopClick s Ht) as (? & ? & _). done.
  - apply Nat.le_antisymm; [|by destruct (grows_stopClick s Ht) as (_ & ? & _)].
    simpl. unfold exec, stopClick. cbv [mbind M_bind gets].
    destruct (animationId s) as [[|id]|]; [done| |done].
    simpl. apply count_filter_le.
Qed.

Lemma starts_app evs1 evs2 : starts (evs1 ++ evs2) = starts evs1 + starts evs2.
Proof.
  induction evs1 as [|[] evs1 IH]; simpl; lia.
Qed.

Lemma count_filter_lt {A} (P Q : A → Prop) `{∀ x, Decision (P x)} `{∀ x, Decision (Q x)}
    (l : list A) x :
  x ∈ l → Q x → ¬ P x → length (filter Q (filter P l)) < length (filter Q l).
Proof.
  induction l as [|a l IH]; intros Hx HQ HP; [by apply elem_of_nil in Hx|].
  pose proof (count_filter_le P Q l) as Hle.
  rewrite (filter_cons P), (filter_cons Q).
  apply elem_of_cons in Hx as [<-|Hx].
  - rewrite decide_False, decide_True by done. simpl. lia.
  - specialize (IH Hx HQ HP).
    destruct (decide (P a)); [rewrite (filter_cons Q)|];
      destruct (decide (Q a)); simpl; lia.
Qed.

Lemma detects_rearm s :
  detects (frameRequests (exec rearm s)) = S (detects (frameRequests s)).
Proof.
  unfold exec. rewrite rearm_eq. simpl. rewrite detects_app.
  change (detects [(nextRequest s, CbDetectPose)]) with 1. lia.
Qed.

Lemma detects_cancel id s :
  detects (frameRequests (exec (cancelAnimationFrame id) s)) ≤ detects (frameRequests s).
Proof. apply count_filter_le. Qed.

Lemma loops_draws `{Physics} n s t : draws s t → loops n s → loops n t.
Proof.
  intros (Ha & Hd & He)%draws_detects [H1 H2]. unfold loops. rewrite Hd, Ha.
  split; [done|]. intros Hn Heq. destruct (H2 Hn Heq) as (id & Hid & Hin).
  exists id. split; [done|]. by apply He.
Qed.

Lemma loops_rearm n s : detects (frameRequests s) < n → loops n (exec rearm s).
Proof.
  intros Hlt. split; [rewrite detects_rearm; lia|]. intros _ _.
  unfold exec. rewrite rearm_eq. simpl. exists (nextRequest s). split; [done|].
  apply elem_of_app. right. apply list_elem_of_here.
Qed.

Lemma loops_below n s : detects (frameRequests s) < n → loops n s.
Proof. intros Hlt. split; [lia|]. intros _ Heq. lia. Qed.

Lemma detects_detectPose `{Physics} v s :
  wf s → detects (frameRequests (exec (detectPose v) s)) ≤ S (detects (frameRequests s)).
Proof.
  intros Hwf. destruct (detectPose_shape v s Hwf) as (t & Hd & [-> | ->]);
    apply draws_detects in Hd as (_ & Hd & _).
  - rewrite detects_rearm. lia.
  - pose proof (detects_cancel (animationId t) t). lia.
Qed.

Lemma loops_detectPose `{Physics} v n s :
  wf s → detects (frameRequests s) < n → loops n (exec (detectPose v) s).
Proof.
  intros Hwf Hlt. destruct (detectPose_shape v s Hwf) as (t & Hd & [-> | ->]);
    apply draws_detects in Hd as (_ & Hd & _).
  - apply loops_rearm. lia.
  - apply loops_below. pose proof (detects_cancel (animationId t) t). lia.
Qed.

Lemma runRequest_detects `{Physics} v h n s :
  wf s →
  detects (frameRequests (runRequest v h s)) ≤ detects (frameRequests s) ∧
  (loops n s → loops n (runRequest v h s)).
Proof.
  intros Hwf. unfold runRequest.
  destruct (findRequest h (frameRequests s)) as [cb|] eqn:Hfind; [|done].
  set (p := set_frameRequests _ s).
  assert (wf p) as Hwfp by by apply wf_filter_requests.
  destruct (pop_count h cb (frameRequests s) (wf_requests_nodup s Hwf) Hfind) as [_ Hd].
  change (filter _ (frameRequests s)) with (frameRequests p) in Hd.
  destruct cb.
  - change (detects [(h, CbDetectPose)]) with 1 in Hd.
    pose proof (detects_detectPose v p Hwfp) as Hle. split; [simpl; lia|].
    intros [Hn _]. simpl. apply loops_detectPose; [done|lia].
  - change (detects [(h, CbRender)]) with 0 in Hd.
    unfold runCallback, exec. rewrite render_eq by by apply wf_alive.
    assert (draws p (rendered p)) as Hdr by (apply draws_render; [done|apply draws_done]).
    destruct (draws_detects _ _ Hdr) as (_ & Hdd & _).
    split; [simpl in *; lia|]. intros [H1 H2].
    apply (loops_draws n p); [done|]. split; [lia|].
    intros Hn Heq. destruct (H2 Hn) as (id & Hid & Hin); [lia|].
    exists id. split; [done|]. simpl. apply list_elem_of_filter. split; [|done].
    simpl. intros ->.
    rewrite (findRequest_unique h _ CbDetectPose (wf_requests_nodup s Hwf) Hin) in Hfind.
    done.
Qed.

Lemma displayFrame_detects `{Physics} v n s :
  wf s →
  detects (frameRequests (displayFrame v s)) ≤ detects (frameRequests s) ∧
  (loops n s → loops n (displayFrame v s)).
Proof.
  unfold displayFrame. generalize ((frameRequests s).*1). intros hs. revert s.
  induction hs as [|h hs IH]; intros s Hwf; [done|].
  simpl. destruct (runRequest_detects v h n s Hwf) as [H1 H2].
  destruct (IH (runRequest v h s) (wf_runRequest v h s Hwf)) as [H3 H4].
  split; [lia|auto].
Qed.

Lemma stopClick_detects n s :
  tidy s →
  detects (frameRequests (exec stopClick s)) ≤ detects (frameRequests s) ∧
  (loops n s → detects (frameRequests (exec stopClick s)) ≤ Nat.pred n).
Proof.
  intros Ht. unfold exec, stopClick. cbv [mbind M_bind gets].
  destruct (animationId s) as [[|id]|] eqn:Hid.
  - split; [done|]. intros [H1 H2]. simpl.
    destruct (decide (0 < n ∧ detects (frameRequests s) = n)) as [[Hn Heq]|Hno]; [|lia].
    destruct (H2 Hn Heq) as (id & Hid' & _). rewrite Hid in Hid'. injection Hid' as <-.
    destruct (tidy_animationId s Ht 0 Hid) as (? & _). lia.
  - split; [apply (detects_cancel (Some (S id)))|]. intros [H1 H2].
    pose proof (detects_cancel (Some (S id)) s) as Hle. unfold exec in Hle.
    destruct (decide (0 < n ∧ detects (frameRequests s) = n)) as [[Hn Heq]|Hno]; [|lia].
    destruct (H2 Hn Heq) as (id' & Hid' & Hin). rewrite Hid in Hid'. injection Hid' as <-.
    assert (detects (frameRequests (cancelAnimationFrame (Some (S id)) s).2) <
            detects (frameRequests s)) as Hlt.
    { simpl. unfold detects. apply (count_filter_lt _ _ _ (S id, CbDetectPose)); [done|done|].
      simpl. by intros []. }
    lia.
  - split; [done|]. intros [H1 H2]. simpl.
    destruct (decide (0 < n ∧ detects (frameRequests s) = n)) as [[Hn Heq]|Hno]; [|lia].
    destruct (H2 Hn Heq) as (id & Hid' & _). by rewrite Hid in Hid'.
Qed.

Lemma loops_weaken n s : loops n s → detects (frameRequests s) ≤ n.
Proof. by intros []. Qed.

Lemma loops_step `{Physics} n s ev :
  wf s → tidy s → loops n s → loops (n + starts [ev]) (step s ev).
Proof.
  intros Hwf Ht Hl. destruct ev as [|v|v|]; simpl starts; simpl step.
  - rewrite Nat.add_0_r. destruct Hl as [H1 H2]. unfold loops.
    rewrite frameRequests_spawnBall, animationId_spawnBall. done.
  - apply loops_detectPose; [done|]. destruct Hl. lia.
  - rewrite Nat.add_0_r. by apply displayFrame_detects.
  - rewrite Nat.add_0_r. destruct (stopClick_detects n s Ht) as [_ H2].
    specialize (H2 Hl). destruct n as [|n].
    + split; [done|]. intros Hn. lia.
    + apply loops_below. simpl in H2. lia.
Qed.

Lemma detects_step `{Physics} s ev :
  wf s → tidy s →
  detects (frameRequests (step s ev)) ≤ detects (frameRequests s) + starts [ev].
Proof.
  intros Hwf Ht. destruct ev as [|v|v|]; simpl starts; simpl step.
  - rewrite frameRequests_spawnBall. lia.
  - pose proof (detects_detectPose v s Hwf). lia.
  - destruct (displayFrame_detects v 0 s Hwf) as [? _]. lia.
  - destruct (stopClick_detects 0 s Ht) as [? _]. lia.
Qed.

Lemma loops_run `{Physics} evs : loops (starts evs) (run newSoccerScene evs).
Proof.
  induction evs as [|ev evs IH] using rev_ind.
  - split; [done|]. simpl. lia.
  - rewrite run_snoc, starts_app.
    apply loops_step; [apply wf_run|apply tidy_run|done].
Qed.

Lemma detects_quiet_run `{Physics} s more :
  wf s → tidy s → starts more = 0 →
  detects (frameRequests (run s more)) ≤ detects (frameRequests s).
Proof.
  revert s. induction more as [|ev more IH]; intros s Hwf Ht Hm; [done|].
  rewrite run_cons. change (ev :: more) with ([ev] ++ more) in Hm.
  rewrite starts_app in Hm.
  etrans; [apply IH; [by apply wf_step|by apply tidy_step|lia]|].
  pose proof (detects_step s ev Hwf Ht). lia.
Qed.

(** X19. There are never more pending [detectPose] callbacks than the start
    timeout fired; only a start timeout can add one, and it adds at most
    one; after the stop handler there is at least one fewer than the
    timeout fired. *)
Theorem detection_loops_never_multiply `{Physics} (evs : list Event) :
  let s := run newSoccerScene evs in
  detects (frameRequests s) ≤ starts evs ∧
  (∀ ev, detects (frameRequests (step s ev)) ≤ detects (frameRequests s) + starts [ev]) ∧
  detects (frameRequests (step s StopClick)) ≤ Nat.pred (starts evs).
Proof.
  intros s. pose proof (wf_run evs) as Hwf. pose proof (tidy_run evs) as Ht.
  pose proof (loops_run evs) as Hl. fold s in Hwf, Ht, Hl.
  split; [by apply loops_weaken|]. split; [intros ev; by apply detects_step|].
  by apply stopClick_detects.
Qed.

(** X20. When the start timeout fired at most once, no [detectPose] callback
    is pending after the stop handler, nor after anything that follows it
    short of another start. *)
Theorem stop_ends_pose_detection `{Physics} (evs more : list Event) :
  starts evs ≤ 1 → starts more = 0 →
  detects (frameRequests (run newSoccerScene (evs ++ StopClick :: more))) = 0.
Proof.
  intros Hevs Hmore.
  change (StopClick :: more) with ([StopClick] ++ more).
  rewrite app_assoc. unfold run at 1. rewrite foldl_app.
  change (foldl step newSoccerScene (evs ++ [StopClick]))
    with (run newSoccerScene (evs ++ [StopClick])).
  change (foldl step ?s more) with (run s more).
  pose proof (detects_quiet_run (run newSoccerScene (evs ++ [StopClick])) more
                (wf_run _) (tidy_run _) Hmore) as Hle.
  rewrite run_snoc in Hle at 2.
  destruct (stopClick_detects (starts evs) (run newSoccerScene evs) (tidy_run evs))
    as [_ Hstop].
  specialize (Hstop (loops_run evs)). simpl in Hle. lia.
Qed.

Lemma short_pose_abrupt (pose : Pose) (rest : list Pose) :
  length pose < 33 → calculateBodyBoundingBoxes (Some (pose :: rest)) = Abrupt.
Proof.
  intros Hlen. unfold calculateBodyBoundingBoxes.
  assert (createBox (rightLeg_points pose) "orange" = Abrupt) as Hthrow.
  { apply createBox_undefined. unfold rightLeg_points.
    rewrite (lookup_ge_None_2 pose 32) by lia.
    do 4 apply list_elem_of_further. apply list_elem_of_here. }
  destruct (createBox (head_points pose) "yellow"); [simpl|done].
  destruct (createBox (leftHand_points pose) "blue"); [simpl|done].
  destruct (createBox (rightHand_points pose) "green"); [simpl|done].
  destruct (createBox (leftLeg_points pose) "purple"); [simpl|done].
  by rewrite Hthrow.
Qed.

Lemma detectPose_stops `{Physics} v t :
  stops_detection v → detectPose v t = cancelAnimationFrame (animationId t) t.
Proof.
  intros (Hload & Hw & Hwhy). unfold detectPose.
  rewrite Hload. rewrite (bool_decide_eq_false_2 (videoWidth v = 0)) by done. simpl.
  destruct (paused v || ended v) eqn:Hp; [done|].
  destruct Hwhy as [Hpa|[He|(Hh & Hfail)]].
  { rewrite Hpa in Hp. done. }
  { rewrite He, orb_true_r in Hp. done. }
  rewrite (bool_decide_eq_false_2 (videoHeight v = 0)) by done.
  cbv [try_catch mbind M_bind lift gets].
  destruct Hfail as [-> |(pose & rest & -> & Hlen)]; [done|].
  by rewrite (short_pose_abrupt pose rest Hlen).
Qed.

Lemma findRequest_is_Some h cb q : (h, cb) ∈ q → is_Some (findRequest h q).
Proof.
  induction q as [|[h' cb'] q IH]; [by intros ?%elem_of_nil|].
  simpl. destruct (decide (h' = h)); [by eexists|].
  intros [[= -> ->]|Hin]%elem_of_cons; [done|by apply IH].
Qed.

Lemma detects_none q : (∀ h, (h, CbDetectPose) ∉ q) → detects q = 0.
Proof.
  induction q as [|[h cb] q IH]; intros Hq; [done|].
  rewrite detects_cons. destruct cb.
  - destruct (Hq h). apply list_elem_of_here.
  - rewrite IH; [done|]. intros h' Hin. by apply (Hq h'), list_elem_of_further.
Qed.

Lemma stopping_request `{Physics} v h t h' :
  stops_detection v → wf t →
  (h', CbDetectPose) ∈ frameRequests (runRequest v h t) →
  (h', CbDetectPose) ∈ frameRequests t ∧ h' ≠ h.
Proof.
  intros Hv Hwf. unfold runRequest.
  destruct (findRequest h (frameRequests t)) as [cb|] eqn:Hfind.
  - set (p := set_frameRequests _ t).
    assert (wf p) as Hwfp by by apply wf_filter_requests.
    destruct cb; simpl runCallback; unfold exec.
    + rewrite detectPose_stops by done. simpl.
      by intros [_ [Hne Hin]%list_elem_of_filter]%list_elem_of_filter.
    + rewrite render_eq by by apply wf_alive. simpl.
      intros [[Hne Hin]%list_elem_of_filter|[=]%list_elem_of_singleton]%elem_of_app.
      done.
  - intros Hin. split; [done|]. intros ->.
    apply findRequest_is_Some in Hin as [cb Hcb]. by rewrite Hfind in Hcb.
Qed.

Lemma stopping_loop `{Physics} v hs :
  stops_detection v → ∀ t, wf t →
  (∀ h, (h, CbDetectPose) ∈ frameRequests t → h ∈ hs) →
  detects (frameRequests (foldl (fun s h => runRequest v h s) t hs)) = 0.
Proof.
  intros Hv. induction hs as [|h hs IH]; intros t Hwf Hin.
  - simpl. apply detects_none. intros h Hh. by apply Hin, elem_of_nil in Hh.
  - simpl. apply IH; [by apply wf_runRequest|].
    intros h' Hh'. apply (stopping_request v h t h' Hv Hwf) in Hh' as [Hh' Hne].
    apply Hin, elem_of_cons in Hh' as [->|?]; done.
Qed.

(** X21. A call of [detectPose] that finds the video paused or ended, whose
    perception call throws, or whose first pose has fewer than 33 landmarks,
    only cancels the request [animationId] names; after a display frame
    with such calls no [detectPose] callback is pending. *)
Theorem failed_detection_ends_detection `{Physics} (evs : list Event) (v : Perception) :
  stops_detection v →
  let s := run newSoccerScene evs in
  exec (detectPose v) s = set_frameRequests (filter (fun p => Some p.1 ≠ animationId s)) s ∧
  detects (frameRequests (step s (AnimationFrame v))) = 0.
Proof.
  intros Hv s. split; [unfold exec; by rewrite detectPose_stops|].
  simpl. unfold displayFrame. apply stopping_loop; [done|apply wf_run|].
  intros h Hh. by apply (list_elem_of_fmap_2 fst _ (h, CbDetectPose)).
Qed.

(** * More on the projectiles and the proxies *)

Lemma length_requests q : length q = renders q + detects q.
Proof.
  induction q as [|[h cb] q IH]; [done|].
  rewrite renders_cons, detects_cons. simpl. destruct cb; lia.
Qed.

Lemma first_detection `{Physics} v :
  one_detection v →
  let s := run newSoccerScene [StartTimeout v] in
  steps s = 1 ∧ renders (frameRequests s) = 1 ∧ detects (frameRequests s) = 1.
Proof.
  intros Hv. cbn zeta. change (run newSoccerScene [StartTimeout v])
    with (exec (detectPose v) newSoccerScene). unfold exec.
  destruct (detectPose_busy v newSoccerScene Hv wf_newSoccerScene) as (t1 & Hwf & Hext & ->).
  destruct Hext as (_ & _ & _ & _ & _ & Hsteps & _ & Hq & _).
  rewrite rearm_eq. simpl. rewrite Hsteps, Hq. done.
Qed.

(** X22. When every frame has a detection, the number of steps of the world
    after the start timeout and [n] display frames is [(n + 1) (n + 2) / 2],
    with [n + 1] [render] callbacks and one [detectPose] callback
    pending. *)
Theorem steps_grow_quadratically `{Physics} (v : Perception) (n : nat) :
  one_detection v →
  let s := run newSoccerScene (StartTimeout v :: replicate n (AnimationFrame v)) in
  2 * steps s = (n + 1) * (n + 2) ∧
  renders (frameRequests s) = n + 1 ∧ detects (frameRequests s) = 1.
Proof.
  intros Hv. cbn zeta. induction n as [|n (IH1 & IH2 & IH3)].
  - cbn [replicate]. destruct (first_detection v Hv) as (-> & -> & ->). done.
  - rewrite replicate_S_end.
    change (StartTimeout v :: replicate n (AnimationFrame v) ++ [AnimationFrame v])
      with ((StartTimeout v :: replicate n (AnimationFrame v)) ++ [AnimationFrame v]).
    rewrite run_snoc.
    destruct (detection_frame (StartTimeout v :: replicate n (AnimationFrame v)) v Hv)
      as (Hs & _ & Hr & Hd).
    cbn zeta in Hs, Hr, Hd. rewrite Hs, Hr, Hd, length_requests, IH2, IH3. lia.
Qed.

Lemma updateColliderBoxes_app es1 es2 s :
  updateColliderBoxes (es1 ++ es2) s =
  match updateColliderBoxes es1 s with
  | (Normal _, s') => updateColliderBoxes es2 s'
  | (Abrupt, s') => (Abrupt, s')
  end.
Proof.
  revert s. induction es1 as [|[k b] es1 IH]; intros s; [done|].
  rewrite <- app_comm_cons, !updateColliderBoxes_cons.
  destruct (updateColliderBox k b s) as [[[]|] s']; [apply IH|done].
Qed.

(** X13. A key that names a member of [Object.prototype] makes
    [updateColliderBoxes] throw: the entries before it have been applied,
    no proxy is created for it, and the entries after it are not
    reached. *)
Theorem inherited_key_aborts_update `{Physics} (evs : list Event)
    (before after : list (string * BoundingBox)) (key : string) (box : BoundingBox) :
  Forall (fun k => k ∉ objectPrototypeKeys) before.*1 → key ∈ objectPrototypeKeys →
  ∃ s1, updateColliderBoxes before (run newSoccerScene evs) = (Normal tt, s1) ∧
        updateColliderBoxes (before ++ (key, box) :: after) (run newSoccerScene evs)
          = (Abrupt, s1).
Proof.
  intros Hbefore Hkey.
  destruct (updateColliderBoxes_ok before _ (wf_run evs) Hbefore) as (s1 & Heq & Hwf1 & _).
  exists s1. split; [done|].
  rewrite updateColliderBoxes_app, Heq, updateColliderBoxes_cons.
  rewrite updateColliderBox_inherited; [done| |done].
  destruct (colliderBoxes s1 !! key) as [r|] eqn:Hr; [|done].
  by destruct (wf_proxy s1 Hwf1 key r Hr) as (_ & _ & _ & _ & Hnot).
Qed.

Lemma most_recent_snoc {A} k (l : list A) x :
  most_recent (S k) (l ++ [x]) = most_recent k l ++ [x].
Proof.
  unfold most_recent. rewrite length_app. simpl.
  replace (length l + 1 - S k) with (length l - k) by lia.
  rewrite drop_app_le by lia. done.
Qed.

Lemma balls_spawnBall_snoc s :
  ∃ older, balls (exec spawnBall s) = older ++ [newBall s] ∧ older `sublist_of` balls s.
Proof.
  rewrite balls_spawnBall, meshes_spawnBall, filter_app.
  rewrite (filter_cons _ (newBall s)), decide_True by apply far_newBall.
  rewrite filter_nil. change maxBalls with (S 9). rewrite most_recent_snoc.
  eexists. split; [done|]. unfold most_recent.
  etrans; [apply sublist_drop|apply sublist_filter].
Qed.

Lemma bodies_spawnBall s :
  wf s → bodies (exec spawnBall s) !! nextHandle s = Some ballBody.
Proof.
  intros Hwf.
  destruct (balls_spawnBall_snoc s) as (older & Hballs & _).
  destruct (cleanup_partition (pushed s) (wf_pushed s Hwf)) as (_ & Hin & Hout).
  cbn zeta in Hin, Hout. revert Hballs.
  unfold exec. rewrite spawnBall_eq, cleanupBalls_eq. cbn zeta. cbn [snd].
  set (kept := filter (fun b => far (meshes (pushed s)) b = false) (balls (pushed s))) in *.
  set (removed := _ ++ _) in *.
  change (balls (set_balls (fun _ => capped kept) (disposeAll removed (pushed s))))
    with (capped kept).
  change (bodies (set_balls (fun _ => capped kept) (disposeAll removed (pushed s))))
    with (bodies (disposeAll removed (pushed s))).
  intros Hballs. rewrite bodies_disposeAll_other.
  - simpl. by rewrite lookup_insert_eq.
  - intros b Hb Heq. pose proof (Hin b Hb) as Hb'. simpl in Hb'.
    apply elem_of_app in Hb' as [Hb'|Hb'%list_elem_of_singleton].
    + apply (wf_ball s Hwf) in Hb' as (_ & Hlt & _). lia.
    + subst b. apply (Hout _ Hb). rewrite Hballs. apply elem_of_app. right.
      apply list_elem_of_here.
Qed.

(** X15. A spawn tick always adds its ball: the ball is new, it is the last
    of the live balls after the tick, what is before it are balls that were
    live, in their order, its mesh is the sphere at the spawn point and its
    body is the one [spawnBall] set up. *)
Theorem spawn_tick_adds_a_ball `{Physics} (evs : list Event) :
  let s := run newSoccerScene evs in
  let s' := step s SpawnTick in
  (newBall s ∉ balls s) ∧
  (∃ older, balls s' = older ++ [newBall s] ∧ older `sublist_of` balls s) ∧
  meshes s' !! mesh (newBall s) = Some ballMesh ∧
  bodies s' !! rigidBody (newBall s) = Some ballBody.
Proof.
  intros s s'. pose proof (wf_run evs) as Hwf. fold s in Hwf.
  split.
  { intros Hb. apply (wf_ball s Hwf) in Hb as (Hb & _). simpl in Hb. lia. }
  split; [apply balls_spawnBall_snoc|]. unfold s'. rewrite step_spawn.
  split; [rewrite meshes_spawnBall; simpl; by rewrite lookup_insert_eq|].
  by apply bodies_spawnBall.
Qed.

Lemma filter_none {A} (P : A → Prop) `{∀ x, Decision (P x)} (l : list A) :
  Forall (fun x => ¬ P x) l → filter P l = [].
Proof.
  induction 1 as [|x l Hx Hl IH]; [done|].
  by rewrite filter_cons, decide_False.
Qed.

(** X16. [cleanupBalls] is idempotent, in any state: a second call right
    after the first changes nothing. *)
Theorem cleanup_is_idempotent (s : State) :
  exec cleanupBalls (exec cleanupBalls s) = exec cleanupBalls s.
Proof.
  unfold exec. rewrite (cleanupBalls_eq s). cbn zeta. cbn [snd].
  set (kept := filter (fun b => far (meshes s) b = false) (balls s)).
  set (removed := _ ++ _).
  set (s1 := set_balls _ _).
  rewrite (cleanupBalls_eq s1). cbn zeta. cbn [snd].
  change (meshes s1) with (meshes s). change (balls s1) with (capped kept).
  assert (Forall (fun b => far (meshes s) b = false) (capped kept)) as Hnear.
  { apply Forall_forall. intros b Hb. unfold capped in Hb.
    eapply elem_of_sublist in Hb; [|apply sublist_drop].
    by apply list_elem_of_filter in Hb as [? _]. }
  rewrite (filter_all _ _ Hnear).
  rewrite (filter_none (fun b => far (meshes s) b = true)).
  2:{ eapply Forall_impl; [exact Hnear|]. intros b Hb. simpl. by rewrite Hb. }
  assert (length (capped kept) - maxBalls = 0) as ->.
  { unfold capped. rewrite length_drop. lia. }
  assert (capped (capped kept) = capped kept) as ->.
  { unfold capped at 1. replace (length (capped kept) - maxBalls) with 0; [done|].
    unfold capped. rewrite length_drop. lia. }
  rewrite take_0, disposeAll_nil. by apply state_eq.
Qed.


Lemma distanceExceeds_nan (p : Vector3.t) (r : number) :
  Vector3.x p = NaN ∨ Vector3.y p = NaN ∨ Vector3.z p = NaN →
  distanceExceeds p r = false.
Proof.
  destruct p as [x y z]. unfold distanceExceeds. cbn [Vector3.x Vector3.y Vector3.z].
  intros [-> |[-> | ->]].
  - done.
  - destruct (num_sq x); done.
  - destruct (num_add (num_sq x) (num_sq y)); done.
Qed.

(** X17. The distance test of [cleanupBalls] never holds on a position with
    a [NaN] coordinate: a call of [cleanupBalls], in any state with at most
    [maxBalls] live balls, keeps every ball whose mesh has such a
    position. *)
Theorem nan_positions_are_never_far (s : State) (ball : Ball) :
  ball ∈ balls s → length (balls s) ≤ maxBalls →
  (let p := position (meshes s !!! mesh ball) in
   Vector3.x p = NaN ∨ Vector3.y p = NaN ∨ Vector3.z p = NaN) →
  far (meshes s) ball = false ∧ ball ∈ balls (exec cleanupBalls s).
Proof.
  intros Hin Hlen Hnan.
  assert (far (meshes s) ball = false) as Hfar by (by apply distanceExceeds_nan).
  split; [exact Hfar|].
  unfold exec. rewrite (cleanupBalls_eq s). cbn zeta. cbn [snd].
  set (kept := filter (fun b => far (meshes s) b = false) (balls s)).
  change (ball ∈ capped kept).
  assert (ball ∈ kept) as Hkept by (by apply list_elem_of_filter).
  assert (length kept ≤ length (balls s)) as Hle by apply length_filter.
  unfold capped. by replace (length kept - maxBalls) with 0 by lia.
Qed.

(** X25. Only a spawn tick changes the projectiles.  In any state the page
    can reach, an event that is not a spawn tick (a call of [detectPose], a
    display frame with every callback it runs, a stop) leaves the list of
    live balls as it was, creates no body and removes none: [render] steps
    the world and moves the meshes, and nothing it calls reaches
    [cleanupBalls]. *)
Theorem only_spawn_ticks_change_the_projectiles `{Physics}
    (evs : list Event) (ev : Event) :
  ev ≠ SpawnTick →
  let s := run newSoccerScene evs in
  balls (step s ev) = balls s ∧
  nextHandle (step s ev) = nextHandle s ∧
  ∀ h, is_Some (bodies (step s ev) !! h) ↔ is_Some (bodies s !! h).
Proof.
  intros Hev s.
  destruct (step_quiet s ev (wf_run evs) Hev) as (_ & Hb & Hh & _).
  split; [exact Hb|]. split; [exact Hh|]. intros h.
  pose proof (tidy_world _ (tidy_run (evs ++ [ev])) h) as Hafter.
  rewrite run_snoc in Hafter. fold s in Hafter.
  rewrite Hafter, Hb. symmetry. apply (tidy_world _ (tidy_run evs)).
Qed.

Lemma detectPose_found `{Physics} v t pose rest boxes :
  one_detection v → detectForVideo v = Normal (Some (pose :: rest)) →
  calculateBodyBoundingBoxes (Some (pose :: rest)) = Normal (Some boxes) → wf t →
  ∃ t1, updateColliderBoxes (entries boxes) t = (Normal tt, t1) ∧ wf t1 ∧
        detectPose v t = rearm (rendered t1).
Proof.
  intros (Hload & Hw & Hh & Hp & He & pose' & rest' & Hdet' & Hlen) Hdet Hboxes Hwf.
  rewrite Hdet in Hdet'. injection Hdet' as <- <-.
  destruct (updateColliderBoxes_ok (entries boxes) t Hwf (entries_keys_own boxes))
    as (t1 & Hupd & Hwf1 & _).
  exists t1. split; [done|]. split; [done|].
  unfold detectPose. rewrite Hload, Hp, He.
  rewrite !bool_decide_eq_false_2 by done. simpl.
  cbv [try_catch mbind M_bind lift]. rewrite Hdet, Hboxes.
  unfold drawResults. destruct pose as [|l pose]; [simpl in Hlen; lia|].
  cbv [mbind M_bind lift]. rewrite (drawSkeleton_total _ Hlen), Hboxes, Hupd.
  rewrite render_eq by by apply wf_alive.
  by rewrite rearm_eq.
Qed.

(** X14. End to end: a call of [detectPose] whose perception result has a
    first pose of at least 33 landmarks leaves, for each of the six body
    parts, a registered proxy that is a child of the scene and carries the
    position and scale of the box the mapper computes for that part. *)
Theorem detection_places_the_proxies `{Physics} (evs : list Event) (v : Perception)
    (pose : Pose) (rest : list Pose) :
  one_detection v → detectForVideo v = Normal (Some (pose :: rest)) →
  let s' := exec (detectPose v) (run newSoccerScene evs) in
  ∃ boxes, calculateBodyBoundingBoxes (Some (pose :: rest)) = Normal (Some boxes) ∧
    ∀ part box, (part, box) ∈ entries boxes →
      ∃ r m, colliderBoxes s' !! part = Some r ∧ meshes s' !! r = Some m ∧
        MeshNode r ∈ children s' ∧
        position m = proxyPosition box ∧ scale m = proxyScale box.
Proof.
  intros Hone Hdet s'.
  assert (33 ≤ length pose) as Hlen.
  { destruct Hone as (_ & _ & _ & _ & _ & pose' & rest' & Hdet' & Hlen).
    rewrite Hdet in Hdet'. by injection Hdet' as <- <-. }
  destruct (mapper_total pose rest Hlen) as (boxes & Hboxes).
  exists boxes. split; [done|]. intros part box Hin.
  destruct (detectPose_found v _ pose rest boxes Hone Hdet Hboxes (wf_run evs))
    as (t1 & Hupd & Hwf1 & Heq).
  destruct (updateColliderBoxes_places (entries boxes) _ part box (wf_run evs)
              (entries_keys_own boxes) (entries_keys_NoDup boxes) Hin)
    as (t1' & r & m & Hupd' & _ & _ & Hr & Hm & Hpos & Hscale & _).
  rewrite Hupd in Hupd'. injection Hupd' as <-.
  destruct (wf_proxy t1 Hwf1 part r Hr) as (_ & _ & Hchild & Hnot & _).
  exists r, m. unfold s', exec. rewrite Heq, rearm_eq. simpl.
  split; [done|]. split; [by rewrite readback_lookup_other|]. done.
Qed.

Lemma keeps_refl s : keeps_proxies s s.
Proof. by intros k r. Qed.

Lemma keeps_trans s t u : keeps_proxies s t → keeps_proxies t u → keeps_proxies s u.
Proof. intros H1 H2 k r Hk. by apply H2, H1. Qed.

Lemma draws_keeps `{Physics} s t : draws s t → keeps_proxies s t.
Proof.
  induction 1 as [s|part box s t ? Hnone ? ? IH|part box r s t ? ? ? IH|s t ? ? IH].
  - apply keeps_refl.
  - intros k r Hk. apply IH. simpl. rewrite lookup_insert_ne; [done|]. congruence.
  - exact IH.
  - exact IH.
Qed.

Lemma colliderBoxes_rearm s : colliderBoxes (exec rearm s) = colliderBoxes s.
Proof. unfold exec. by rewrite rearm_eq. Qed.

Lemma detectPose_keeps `{Physics} v s : wf s → keeps_proxies s (exec (detectPose v) s).
Proof.
  intros Hwf. destruct (detectPose_shape v s Hwf) as (t & Hd & [-> | ->]);
    apply draws_keeps in Hd; intros k r Hk.
  - rewrite colliderBoxes_rearm. by apply Hd.
  - simpl. by apply Hd.
Qed.

Lemma runRequest_keeps `{Physics} v h s : wf s → keeps_proxies s (runRequest v h s).
Proof.
  intros Hwf. unfold runRequest.
  destruct (findRequest h (frameRequests s)) as [cb|]; [|apply keeps_refl].
  set (p := set_frameRequests _ s).
  assert (wf p) as Hwfp by by apply wf_filter_requests.
  destruct cb; simpl runCallback.
  - intros k r Hk. apply (detectPose_keeps v p Hwfp). exact Hk.
  - unfold exec. rewrite render_eq by by apply wf_alive. intros k r Hk. exact Hk.
Qed.

Lemma displayFrame_keeps `{Physics} v s : wf s → keeps_proxies s (displayFrame v s).
Proof.
  unfold displayFrame. generalize ((frameRequests s).*1). intros hs. revert s.
  induction hs as [|h hs IH]; intros s Hwf; [apply keeps_refl|].
  simpl. eapply keeps_trans; [by apply runRequest_keeps|].
  by apply IH, wf_runRequest.
Qed.

Lemma step_keeps `{Physics} s ev : wf s → keeps_proxies s (step s ev).
Proof.
  intros Hwf. destruct ev as [|v|v|]; simpl.
  - unfold exec. rewrite spawnBall_eq, cleanupBalls_eq. intros k r Hk. exact Hk.
  - by apply detectPose_keeps.
  - by apply displayFrame_keeps.
  - unfold exec, stopClick. cbv [mbind M_bind gets].
    destruct (animationId s) as [[|id]|]; intros k r Hk; exact Hk.
Qed.

(** X11. A proxy, once registered, stays registered under the same mesh
    reference and stays in the scene, whatever happens to the page
    afterwards. *)
Theorem proxies_are_never_replaced `{Physics} (evs more : list Event)
    (part : string) (r : nat) :
  colliderBoxes (run newSoccerScene evs) !! part = Some r →
  colliderBoxes (run newSoccerScene (evs ++ more)) !! part = Some r ∧
  MeshNode r ∈ children (run newSoccerScene (evs ++ more)).
Proof.
  intros Hr.
  assert (∀ s, wf s → keeps_proxies s (run s more)) as Hrun.
  { induction more as [|ev more IH]; intros s Hwf; [apply keeps_refl|].
    rewrite run_cons. eapply keeps_trans; [by apply step_keeps|].
    by apply IH, wf_step. }
  assert (colliderBoxes (run newSoccerScene (evs ++ more)) !! part = Some r) as Hr'.
  { unfold run. rewrite foldl_app. by apply (Hrun _ (wf_run evs)). }
  split; [done|]. by apply (wf_proxy _ (wf_run (evs ++ more)) part r).
Qed.

(** X12. [updateColliderBoxes], called in any state the page can reach with
    keys that are not members of [Object.prototype], returns normally and
    touches the proxies only: the live balls and their meshes, the physics
    world, the step and draw counts and the pending callbacks are as they
    were, and no proxy or child of the scene is lost. *)
Theorem proxy_update_leaves_projectiles_alone `{Physics} (evs : list Event)
    (bodyBoxes : list (string * BoundingBox)) :
  Forall (fun k => k ∉ objectPrototypeKeys) bodyBoxes.*1 →
  ∃ s', updateColliderBoxes bodyBoxes (run newSoccerScene evs) = (Normal tt, s') ∧
        extends (run newSoccerScene evs) s'.
Proof.
  intros Hkeys.
  destruct (updateColliderBoxes_ok bodyBoxes _ (wf_run evs) Hkeys) as (s' & Heq & _ & Hext & _).
  by exists s'.
Qed.

(** * The background remover *)

Lemma isBackground_sum (data : list Z) (i : nat) :
  isBackground data i = true ↔
  ∃ r g b, data !! i = Some r ∧ data !! (i + 1) = Some g ∧ data !! (i + 2) = Some b ∧
           (234 < r + g + b < 534)%Z.
Proof.
  unfold isBackground, byteAt, threshold, tolerance.
  destruct (data !! i) as [r|]; [|split; [done|by intros (? & ? & ? & [=] & _)]].
  destruct (data !! (i + 1)) as [g|]; [|split; [done|by intros (? & ? & ? & _ & [=] & _)]].
  destruct (data !! (i + 2)) as [b|];
    [|split; [by rewrite andb_false_r|by intros (? & ? & ? & _ & _ & [=] & _)]].
  unfold lit. cbn [num_add num_sub num_neg]. 
  change (num_div (Fin ?a) (Fin (Q2Qc 3))) with (Fin (a / Q2Qc 3)%Qc).
  unfold num_gtb. cbn [num_ltb]. rewrite andb_true_iff, !Qc_ltb_lt.
  assert (∀ lo hi : Z,
    ((Q2Qc (lo # 1) < (Q2Qc (r # 1) + Q2Qc (g # 1) + Q2Qc (b # 1)) / Q2Qc 3)%Qc ↔
       (3 * lo < r + g + b)%Z) ∧
    (((Q2Qc (r # 1) + Q2Qc (g # 1) + Q2Qc (b # 1)) / Q2Qc 3 < Q2Qc (hi # 1))%Qc ↔
       (r + g + b < 3 * hi)%Z)) as Hcmp.
  { intros lo hi. unfold Qclt. rewrite Qc_div_Q, !Qc_add_Q, !Qc_lit_Q.
    unfold Qlt, Qdiv, Qmult, Qplus, Qinv. simpl. split; lia. }
  change (Q2Qc 128 + - Q2Qc 50)%Qc with (Q2Qc (78 # 1)).
  change (Q2Qc 128 + Q2Qc 50)%Qc with (Q2Qc (178 # 1)).
  rewrite (proj1 (Hcmp 78%Z 0%Z)), (proj2 (Hcmp 0%Z 178%Z)). split.
  - intros [H1 H2]. exists r, g, b. repeat split; try done; lia.
  - intros (? & ? & ? & [= <-] & [= <-] & [= <-] & H1 & H2). lia.
Qed.

Ltac lia_mod := zify; Z.div_mod_to_equations; lia.

Lemma isBackground_same d d' i :
  i mod 4 = 0 → same_colours d d' → isBackground d' i = isBackground d i.
Proof.
  intros Hi Hsame. unfold isBackground, byteAt.
  rewrite (Hsame i), (Hsame (i + 1)), (Hsame (i + 2)); [done| | |]; lia_mod.
Qed.

Lemma removeAt_lookup d i j :
  removeAt d i !! j =
  if decide (j = i + 3) then
    if isBackground d i then (fun _ => 0%Z) <$> d !! j else d !! j
  else d !! j.
Proof.
  unfold removeAt. destruct (isBackground d i); [|by destruct (decide _)].
  destruct (decide (j = i + 3)) as [->|Hne]; [|by rewrite list_lookup_insert_ne].
  destruct (d !! (i + 3)) as [a|] eqn:Ha.
  - apply lookup_lt_Some in Ha. by rewrite list_lookup_insert_eq.
  - rewrite list_insert_ge by by apply lookup_ge_None. by rewrite Ha.
Qed.

Lemma length_removeAt d i : length (removeAt d i) = length d.
Proof. unfold removeAt. destruct (isBackground d i); [apply length_insert|done]. Qed.

Lemma length_foldl_removeAt offsets d : length (foldl removeAt d offsets) = length d.
Proof.
  revert d. induction offsets as [|i offsets IH]; intros d; [done|].
  cbn [foldl]. by rewrite IH, length_removeAt.
Qed.

Lemma removeBackground_loop d offsets :
  Forall (fun i => i mod 4 = 0) offsets →
  ∀ d', same_colours d d' →
  ∀ j, foldl removeAt d' offsets !! j =
       if decide (j mod 4 = 3 ∧ j - 3 ∈ offsets) then
         if isBackground d (j - 3) then (fun _ => 0%Z) <$> d' !! j else d' !! j
       else d' !! j.
Proof.
  induction 1 as [|i offsets Hi Hoff IH]; intros d' Hsame j.
  - simpl. rewrite decide_False; [done|]. by intros [_ ?%elem_of_nil].
  - cbn [foldl]. rewrite IH.
    2:{ intros j' Hj'. rewrite removeAt_lookup, decide_False by lia_mod. by apply Hsame. }
    rewrite removeAt_lookup, (isBackground_same d d' i Hi Hsame).
    destruct (decide (j = i + 3)) as [->|Hne].
    + replace (i + 3 - 3) with i by lia.
      rewrite (decide_True (P := (i + 3) mod 4 = 3 ∧ i ∈ i :: offsets));
        [|split; [lia_mod|apply list_elem_of_here]].
      destruct (decide _); destruct (isBackground d i); try done.
      by destruct (d' !! (i + 3)).
    + destruct (decide (j mod 4 = 3 ∧ j - 3 ∈ offsets)) as [[H3 Hin]|Hno].
      * rewrite decide_True; [done|]. split; [done|by apply list_elem_of_further].
      * rewrite decide_False; [done|].
        intros [H3 Hin]. apply elem_of_cons in Hin as [Heq|Hin]; [lia_mod|].
        by apply Hno.
Qed.

Lemma pixelOffsets_aligned n : Forall (fun i => i mod 4 = 0) (pixelOffsets n).
Proof. apply Forall_forall. intros i Hi. by apply list_elem_of_filter in Hi as [? _]. Qed.

Lemma removeBackground_lookup d j : removeBackground d !! j = cleared d j.
Proof.
  unfold removeBackground, cleared.
  rewrite (removeBackground_loop d _ (pixelOffsets_aligned _) d) by done.
  destruct (decide (j mod 4 = 3)) as [H3|H3].
  - destruct (decide (j - 3 < length d)) as [Hlt|Hge].
    + rewrite decide_True; [done|]. split; [done|].
      apply list_elem_of_filter. split; [lia_mod|]. apply elem_of_seq. lia.
    + rewrite (lookup_ge_None_2 d j) by lia. by destruct (decide _), (isBackground d (j - 3)).
  - rewrite decide_False; [done|]. by intros [? _].
Qed.

(** X23. [removeBackground] keeps the length of the image and every colour
    byte; the alpha byte of a pixel is set to zero when the pixel passes the
    luminance test on the original bytes and is left alone otherwise; a
    second pass changes nothing. *)
Theorem removeBackground_clears_alpha_only (data : list Z) :
  length (removeBackground data) = length data ∧
  (∀ j, j mod 4 ≠ 3 → removeBackground data !! j = data !! j) ∧
  (∀ k, removeBackground data !! (4 * k + 3) =
        if isBackground data (4 * k) then (fun _ => 0%Z) <$> data !! (4 * k + 3)
        else data !! (4 * k + 3)) ∧
  removeBackground (removeBackground data) = removeBackground data.
Proof.
  assert (same_colours data (removeBackground data)) as Hsame.
  { intros j Hj. rewrite removeBackground_lookup. unfold cleared.
    by rewrite decide_False. }
  split; [|split; [exact Hsame|split]].
  - apply length_foldl_removeAt.
  - intros k. rewrite removeBackground_lookup. unfold cleared.
    rewrite decide_True by lia_mod. by replace (4 * k + 3 - 3) with (4 * k) by lia.
  - apply list_eq. intros j. rewrite (removeBackground_lookup (removeBackground data)).
    unfold cleared at 1. destruct (decide (j mod 4 = 3)) as [H3|H3]; [|done].
    rewrite (isBackground_same data) by (done || lia_mod).
    rewrite removeBackground_lookup. unfold cleared. rewrite decide_True by done.
    destruct (isBackground data (j - 3)); [|done]. by destruct (data !! j).
Qed.

(** X24. For a pixel with bytes [r], [g], [b], [a]: [removeBackground]
    keeps [r], [g] and [b], and replaces [a] by zero exactly when
    [234 < r + g + b < 534], that is when the luminance is strictly between
    78 and 178. *)
Theorem background_pixels_become_transparent (data : list Z) (k : nat) (r g b a : Z) :
  data !! (4 * k) = Some r → data !! (4 * k + 1) = Some g →
  data !! (4 * k + 2) = Some b → data !! (4 * k + 3) = Some a →
  removeBackground data !! (4 * k) = Some r ∧
  removeBackground data !! (4 * k + 1) = Some g ∧
  removeBackground data !! (4 * k + 2) = Some b ∧
  removeBackground data !! (4 * k + 3) =
    Some (if bool_decide (234 < r + g + b < 534)%Z then 0%Z else a).
Proof.
  intros Hr Hg Hb Ha. rewrite !removeBackground_lookup. unfold cleared.
  rewrite !(decide_False (P := _ mod 4 = 3)) by lia_mod.
  rewrite decide_True by lia_mod. replace (4 * k + 3 - 3) with (4 * k) by lia.
  split; [done|]. split; [done|]. split; [done|]. rewrite Ha.
  destruct (isBackground data (4 * k)) eqn:Hbg.
  - apply isBackground_sum in Hbg as (r' & g' & b' & Hr' & Hg' & Hb' & Hsum).
    rewrite Hr in Hr'. rewrite Hg in Hg'. rewrite Hb in Hb'.
    injection Hr' as <-. injection Hg' as <-. injection Hb' as <-.
    by rewrite bool_decide_eq_true_2.
  - rewrite bool_decide_eq_false_2; [done|]. intros Hsum.
    assert (isBackground data (4 * k) = true) as Hbg'; [|congruence].
    apply isBackground_sum. by exists r, g, b.
Qed.

(** * The theorems at concrete inputs *)

Lemma projectile_cap_witness :
  let evs := replicate 11 SpawnTick in
  maxBalls < ticks evs ∧
  calm (H := ballistic) newSoccerScene evs = true ∧
  length (balls (run (H := ballistic) newSoccerScene evs)) = maxBalls ∧
  balls (run (H := ballistic) newSoccerScene evs) =
    most_recent maxBalls (spawned (H := ballistic) newSoccerScene evs).
Proof.
  intros evs.
  assert (maxBalls < ticks evs) as H1 by (vm_compute; lia).
  assert (calm (H := ballistic) newSoccerScene evs = true) as H2
    by (vm_compute; reflexivity).
  split; [exact H1|]. split; [exact H2|].
  pose proof (projectile_cap (H := ballistic) evs H1 H2) as (Hlen & Hballs & _).
  split; [exact Hlen|exact Hballs].
Defined.


Lemma proxy_placement_witness :
  Forall (fun k => k ∉ objectPrototypeKeys) (entries sixBoxes).*1 ∧
  NoDup (entries sixBoxes).*1 ∧
  ("head", squareBox "yellow") ∈ entries sixBoxes ∧
  ∃ s' r m,
    updateColliderBoxes (entries sixBoxes) (run (H := ballistic) newSoccerScene [])
      = (Normal tt, s') ∧
    colliderBoxes s' !! "head" = Some r ∧ meshes s' !! r = Some m ∧
    position m = proxyPosition (squareBox "yellow") ∧
    scale m = proxyScale (squareBox "yellow").
Proof.
  assert (Forall (fun k => k ∉ objectPrototypeKeys) (entries sixBoxes).*1) as H1.
  { apply (bool_decide_unpack _). vm_compute. reflexivity. }
  assert (NoDup (entries sixBoxes).*1) as H2.
  { apply (bool_decide_unpack _). vm_compute. reflexivity. }
  assert (("head", squareBox "yellow") ∈ entries sixBoxes) as H3.
  { simpl. apply list_elem_of_here. }
  split; [exact H1|]. split; [exact H2|]. split; [exact H3|].
  exact (proxy_placement (H := ballistic) [] (entries sixBoxes) "head"
           (squareBox "yellow") H1 H2 H3).
Defined.

Lemma proxy_identity_witness :
  Forall (fun k => k ∉ objectPrototypeKeys) (entries sixBoxes).*1 ∧
  NoDup (entries sixBoxes).*1 ∧
  ("head", squareBox "yellow") ∈ entries sixBoxes ∧
  ∃ s1 s2 r m1 m2,
    updateColliderBoxes (entries sixBoxes) (run (H := ballistic) newSoccerScene [])
      = (Normal tt, s1) ∧
    updateColliderBoxes (entries sixBoxes) s1 = (Normal tt, s2) ∧
    colliderBoxes s1 !! "head" = Some r ∧ colliderBoxes s2 !! "head" = Some r ∧
    meshes s1 !! r = Some m1 ∧ meshes s2 !! r = Some m2 ∧
    geometry m2 = geometry m1 ∧ materialColor m2 = materialColor m1 ∧
    occurrences (MeshNode r) (children s1) = 1 ∧
    occurrences (MeshNode r) (children s2) = 1 ∧
    position m2 = proxyPosition (squareBox "yellow") ∧
    scale m2 = proxyScale (squareBox "yellow").
Proof.
  assert (Forall (fun k => k ∉ objectPrototypeKeys) (entries sixBoxes).*1) as H1.
  { apply (bool_decide_unpack _). vm_compute. reflexivity. }
  assert (NoDup (entries sixBoxes).*1) as H2.
  { apply (bool_decide_unpack _). vm_compute. reflexivity. }
  assert (("head", squareBox "yellow") ∈ entries sixBoxes) as H3.
  { simpl. apply list_elem_of_here. }
  split; [exact H1|]. split; [exact H2|]. split; [exact H3|].
  exact (proxy_identity (H := ballistic) [] (entries sixBoxes) (entries sixBoxes)
           "head" (squareBox "yellow") (squareBox "yellow") H1 H2 H1 H2 H3 H3).
Defined.


Lemma mapper_converts_then_bounds_witness :
  33 ≤ length centred ∧ Forall finite_landmark centred ∧
  ∃ boxes, calculateBodyBoundingBoxes (Some [centred]) = Normal (Some boxes) ∧
    box_of_group (head boxes) (head_points centred) ∧
    box_of_group (torso boxes) (torso_points centred).
Proof.
  assert (33 ≤ length centred) as H1 by (simpl; lia).
  assert (Forall finite_landmark centred) as H2.
  { apply Forall_replicate. eexists _, _. reflexivity. }
  split; [exact H1|]. split; [exact H2|].
  destruct (mapper_converts_then_bounds centred [] H1 H2)
    as (_ & boxes & Heq & Hhead & _ & _ & _ & _ & Htorso).
  exists boxes. split; [exact Heq|]. split; [exact Hhead|exact Htorso].
Defined.

Lemma mapper_short_pose_throws_witness :
  length ([] : Pose) < 33 ∧ calculateBodyBoundingBoxes (Some [[]]) = Abrupt.
Proof.
  assert (length ([] : Pose) < 33) as H1 by (simpl; lia).
  split; [exact H1|]. exact (mapper_short_pose_throws [] [] H1).
Defined.

Lemma boxes_enclose_their_landmarks_witness :
  33 ≤ length centred ∧ Forall finite_landmark centred ∧
  ∃ boxes, calculateBodyBoundingBoxes (Some [centred]) = Normal (Some boxes) ∧
    encloses (head boxes) (head_points centred) ∧
    encloses (torso boxes) (torso_points centred).
Proof.
  assert (33 ≤ length centred) as H1 by (simpl; lia).
  assert (Forall finite_landmark centred) as H2.
  { apply Forall_replicate. eexists _, _. reflexivity. }
  split; [exact H1|]. split; [exact H2|].
  destruct (boxes_enclose_their_landmarks centred [] H1 H2)
    as (boxes & Heq & Hhead & _ & _ & _ & _ & Htorso).
  exists boxes. split; [exact Heq|]. split; [exact Hhead|exact Htorso].
Defined.

Lemma nan_landmark_poisons_box_witness :
  let l := Landmark.mk NaN (lit 1 2) in
  let ls := [Landmark.mk (lit 1 4) (lit 1 4); l] in
  l ∈ ls ∧
  ∃ b, createBox (Some <$> ls) "red" = Normal b ∧ minX b = NaN ∧ maxX b = NaN.
Proof.
  intros l ls.
  assert (l ∈ ls) as H1 by apply list_elem_of_further, list_elem_of_here.
  split; [exact H1|].
  destruct (nan_landmark_poisons_box ls "red" l H1) as (b & Hb & Hx & _).
  exists b. split; [exact Hb|]. exact (Hx eq_refl).
Defined.

Lemma mapper_reads_31_landmarks_witness :
  let elbow := Landmark.mk (lit 1 10) (lit 9 10) in
  let pose' := <[13 := elbow]> (<[14 := elbow]> centred) ++ [elbow] in
  (∀ i, i < 33 → i ≠ 13 → i ≠ 14 → centred !! i = pose' !! i) ∧
  calculateBodyBoundingBoxes (Some [centred]) =
  calculateBodyBoundingBoxes (Some [pose'; []]).
Proof.
  intros elbow pose'.
  assert (∀ i, i < 33 → i ≠ 13 → i ≠ 14 → centred !! i = pose' !! i) as H1.
  { intros i Hi H13 H14. unfold pose'.
    rewrite lookup_app_l by (rewrite !length_insert; simpl; lia).
    rewrite !list_lookup_insert_ne by done. reflexivity. }
  split; [exact H1|].
  exact (mapper_reads_31_landmarks centred pose' [] [[]] H1).
Defined.

Lemma proxies_are_flat_boxes_witness :
  let s := run (H := ballistic) newSoccerScene [StartTimeout (seeing (Some [centred]))] in
  colliderBoxes s !! "torso" = Some 5 ∧
  "torso" ∈ parts ∧
  ∃ m, meshes s !! 5 = Some m ∧
    geometry m = BoxGeometry (lit 1 1) (lit 1 1) (lit 2 10) ∧
    materialColor m = colors "torso" ∧
    Vector3.z (position m) = lit 0 1 ∧ Vector3.z (scale m) = lit 2 10.
Proof.
  intros s.
  assert (colliderBoxes s !! "torso" = Some 5) as H1 by (vm_compute; reflexivity).
  split; [exact H1|].
  exact (proxies_are_flat_boxes (H := ballistic)
           [StartTimeout (seeing (Some [centred]))] "torso" 5 H1).
Defined.

Lemma ball_meshes_show_bodies_witness :
  let s := run (H := ballistic) newSoccerScene [SpawnTick] in
  let ball := {| mesh := 0; rigidBody := 0 |} in
  ball ∈ balls s ∧
  ∃ m body, meshes s !! mesh ball = Some m ∧ bodies s !! rigidBody ball = Some body ∧
    position m = translation body ∧ quaternion m = rotation body ∧
    geometry m = SphereGeometry (lit 5 10) 32 32 ∧
    materialColor m = Some 0xff0000%N ∧
    scale m = Vector3.mk (lit 1 1) (lit 1 1) (lit 1 1).
Proof.
  intros s ball.
  assert (ball ∈ balls s) as H1.
  { assert (balls s = [ball]) as -> by (vm_compute; reflexivity). apply list_elem_of_here. }
  split; [exact H1|].
  exact (ball_meshes_show_bodies (H := ballistic) [SpawnTick] ball H1).
Defined.

Lemma stop_ends_pose_detection_witness :
  let v := seeing (Some [centred]) in
  let evs := [StartTimeout v; AnimationFrame v] in
  let more := [AnimationFrame v; SpawnTick] in
  starts evs ≤ 1 ∧ starts more = 0 ∧
  detects (frameRequests (run (H := ballistic) newSoccerScene (evs ++ StopClick :: more))) = 0.
Proof.
  intros v evs more.
  assert (starts evs ≤ 1) as H1 by (simpl; lia).
  assert (starts more = 0) as H2 by reflexivity.
  split; [exact H1|]. split; [exact H2|].
  exact (stop_ends_pose_detection (H := ballistic) evs more H1 H2).
Defined.

Lemma failed_detection_ends_detection_witness :
  let v := seeing (Some [[]]) in
  let s := run (H := ballistic) newSoccerScene [StartTimeout (seeing (Some [centred]))] in
  stops_detection v ∧
  detects (frameRequests s) = 1 ∧
  detects (frameRequests (step (H := ballistic) s (AnimationFrame v))) = 0.
Proof.
  intros v s.
  assert (stops_detection v) as H1.
  { unfold stops_detection, v, seeing. simpl.
    split; [reflexivity|]. split; [lia|]. right. right. split; [lia|].
    right. exists [], []. split; [reflexivity|simpl; lia]. }
  split; [exact H1|]. split; [vm_compute; reflexivity|].
  exact (proj2 (failed_detection_ends_detection (H := ballistic)
                  [StartTimeout (seeing (Some [centred]))] v H1)).
Defined.

Lemma steps_grow_quadratically_witness :
  let v := seeing (Some [centred]) in
  one_detection v ∧
  2 * steps (run (H := ballistic) newSoccerScene
               (StartTimeout v :: replicate 3 (AnimationFrame v))) = (3 + 1) * (3 + 2).
Proof.
  intros v.
  assert (one_detection v) as H1.
  { unfold one_detection, v, seeing. simpl.
    split; [reflexivity|]. split; [lia|]. split; [lia|].
    split; [reflexivity|]. split; [reflexivity|].
    exists centred, []. split; [reflexivity|simpl; lia]. }
  split; [exact H1|].
  exact (proj1 (steps_grow_quadratically (H := ballistic) v 3 H1)).
Defined.

Lemma inherited_key_aborts_update_witness :
  let before := [("head", squareBox "yellow")] in
  let after := [("torso", squareBox "red")] in
  Forall (fun k => k ∉ objectPrototypeKeys) before.*1 ∧
  "toString" ∈ objectPrototypeKeys ∧
  ∃ s1, updateColliderBoxes before (run (H := ballistic) newSoccerScene [])
          = (Normal tt, s1) ∧
        updateColliderBoxes (before ++ ("toString", squareBox "blue") :: after)
          (run (H := ballistic) newSoccerScene []) = (Abrupt, s1).
Proof.
  intros before after.
  assert (Forall (fun k => k ∉ objectPrototypeKeys) before.*1) as H1.
  { apply (bool_decide_unpack _). vm_compute. reflexivity. }
  assert ("toString" ∈ objectPrototypeKeys) as H2.
  { apply (bool_decide_unpack _). vm_compute. reflexivity. }
  split; [exact H1|]. split; [exact H2|].
  exact (inherited_key_aborts_update (H := ballistic) [] before after "toString"
           (squareBox "blue") H1 H2).
Defined.

Lemma detection_places_the_proxies_witness :
  let v := seeing (Some [centred]) in
  let s' := exec (detectPose (H := ballistic) v) (run (H := ballistic) newSoccerScene []) in
  one_detection v ∧ detectForVideo v = Normal (Some [centred]) ∧
  ∃ boxes, calculateBodyBoundingBoxes (Some [centred]) = Normal (Some boxes) ∧
    ∃ r m, colliderBoxes s' !! "torso" = Some r ∧ meshes s' !! r = Some m ∧
      MeshNode r ∈ children s' ∧
      position m = proxyPosition (torso boxes) ∧ scale m = proxyScale (torso boxes).
Proof.
  intros v s'.
  assert (one_detection v) as H1.
  { unfold one_detection, v, seeing. simpl.
    split; [reflexivity|]. split; [lia|]. split; [lia|].
    split; [reflexivity|]. split; [reflexivity|].
    exists centred, []. split; [reflexivity|simpl; lia]. }
  assert (detectForVideo v = Normal (Some [centred])) as H2 by reflexivity.
  split; [exact H1|]. split; [exact H2|].
  destruct (detection_places_the_proxies (H := ballistic) [] v centred [] H1 H2)
    as (boxes & Hboxes & Hall).
  exists boxes. split; [exact Hboxes|].
  apply (Hall "torso" (torso boxes)). unfold entries.
  do 5 apply list_elem_of_further. apply list_elem_of_here.
Defined.

Lemma proxies_are_never_replaced_witness :
  let v := seeing (Some [centred]) in
  let evs := [StartTimeout v] in
  let more := [SpawnTick; AnimationFrame v; StopClick] in
  colliderBoxes (run (H := ballistic) newSoccerScene evs) !! "head" = Some 0 ∧
  colliderBoxes (run (H := ballistic) newSoccerScene (evs ++ more)) !! "head" = Some 0 ∧
  MeshNode 0 ∈ children (run (H := ballistic) newSoccerScene (evs ++ more)).
Proof.
  intros v evs more.
  assert (colliderBoxes (run (H := ballistic) newSoccerScene evs) !! "head" = Some 0)
    as H1 by (vm_compute; reflexivity).
  split; [exact H1|].
  exact (proxies_are_never_replaced (H := ballistic) evs more "head" 0 H1).
Defined.

Lemma proxy_update_leaves_projectiles_alone_witness :
  Forall (fun k => k ∉ objectPrototypeKeys) (entries sixBoxes).*1 ∧
  ∃ s', updateColliderBoxes (entries sixBoxes)
          (run (H := ballistic) newSoccerScene [SpawnTick]) = (Normal tt, s') ∧
        extends (run (H := ballistic) newSoccerScene [SpawnTick]) s'.
Proof.
  assert (Forall (fun k => k ∉ objectPrototypeKeys) (entries sixBoxes).*1) as H1.
  { apply (bool_decide_unpack _). vm_compute. reflexivity. }
  split; [exact H1|].
  exact (proxy_update_leaves_projectiles_alone (H := ballistic) [SpawnTick]
           (entries sixBoxes) H1).
Defined.

Lemma background_pixels_become_transparent_witness :
  let data := [128; 128; 128; 255; 255; 255; 255; 255]%Z in
  data !! (4 * 0) = Some 128%Z ∧ data !! (4 * 0 + 1) = Some 128%Z ∧
  data !! (4 * 0 + 2) = Some 128%Z ∧ data !! (4 * 0 + 3) = Some 255%Z ∧
  removeBackground data !! (4 * 0 + 3) = Some 0%Z ∧
  removeBackground data = [128; 128; 128; 0; 255; 255; 255; 255]%Z.
Proof.
  intros data.
  assert (data !! (4 * 0) = Some 128%Z) as H1 by reflexivity.
  assert (data !! (4 * 0 + 1) = Some 128%Z) as H2 by reflexivity.
  assert (data !! (4 * 0 + 2) = Some 128%Z) as H3 by reflexivity.
  assert (data !! (4 * 0 + 3) = Some 255%Z) as H4 by reflexivity.
  split; [exact H1|]. split; [exact H2|]. split; [exact H3|]. split; [exact H4|].
  split.
  - exact (proj2 (proj2 (proj2
      (background_pixels_become_transparent data 0 128 128 128 255 H1 H2 H3 H4)))).
  - vm_compute. reflexivity.
Defined.

Lemma nan_positions_are_never_far_witness :
  let s0 := run (H := ballistic) newSoccerScene [SpawnTick] in
  let s := set_meshes (alter (with_position (Vector3.mk NaN (lit 2 1) (lit 4 1))) 0) s0 in
  let ball := {| mesh := 0; rigidBody := 0 |} in
  ball ∈ balls s ∧ length (balls s) ≤ maxBalls ∧
  Vector3.x (position (meshes s !!! mesh ball)) = NaN ∧
  far (meshes s) ball = false ∧ ball ∈ balls (exec cleanupBalls s).
Proof.
  intros s0 s ball.
  assert (ball ∈ balls s) as H1 by (apply list_elem_of_here).
  assert (length (balls s) ≤ maxBalls) as H2 by (apply (bool_decide_unpack _); vm_compute; reflexivity).
  assert (Vector3.x (position (meshes s !!! mesh ball)) = NaN) as H3 by (vm_compute; reflexivity).
  split; [exact H1|]. split; [exact H2|]. split; [exact H3|].
  exact (nan_positions_are_never_far s ball H1 H2 (or_introl H3)).
Defined.

Lemma only_spawn_ticks_change_the_projectiles_witness :
  let v := seeing (Some [centred]) in
  let s := run (H := ballistic) newSoccerScene [SpawnTick; StartTimeout v] in
  AnimationFrame v ≠ SpawnTick ∧
  balls (step (H := ballistic) s (AnimationFrame v)) = balls s ∧
  nextHandle (step (H := ballistic) s (AnimationFrame v)) = nextHandle s ∧
  ∀ h, is_Some (bodies (step (H := ballistic) s (AnimationFrame v)) !! h) ↔
       is_Some (bodies s !! h).
Proof.
  intros v s.
  assert (AnimationFrame v ≠ SpawnTick) as H1 by discriminate.
  split; [exact H1|].
  exact (only_spawn_ticks_change_the_projectiles (H := ballistic)
           [SpawnTick; StartTimeout v] (AnimationFrame v) H1).
Defined.
